(** * Multi-head self-attention engine: a shallow embedding of
      [js/math.js] and [js/mhsa.js], with the properties of its
      specification, and of the deterministic embeddings of
      [js/embeddings.js] that feed it.

    Numbers.  A JavaScript number is modelled by a real number: the
    embedding follows the finite values of a run and ignores rounding.  A
    run in which a value that is not a real number shows up in arithmetic
    or is stored in a matrix ([undefined] read past the end of an array,
    [NaN] or an infinity from a division by zero, an infinity from
    [Math.exp] or from the sum of exponentials in [softmax] beyond the
    largest double) does not throw in JavaScript; the embedding records
    it as the outcome [NonNumber] and follows the run no further.

    Exceptions.  Reading a property of [undefined] or [null] throws a
    [TypeError]; the loaders throw [new Error(msg)].  Both are the outcome
    [Throws].

    Dimensions and counts ([embedDim], [numHeads], [headDim], the fields
    of [config]) are natural numbers; a missing or [null] property is
    [None]. *)

From Stdlib Require Import String.
From Stdlib Require Import Reals Lra Lia List Bool Arith Permutation.
Import ListNotations.

Set Implicit Arguments.

(* ------------------------------------------------------------------ *)
(** ** Outcomes of a JavaScript call *)

Inductive js_error : Type :=
| TypeError
| Error (msg : string).

Inductive outcome (A : Type) : Type :=
| Returns (a : A)
| Throws (e : js_error)
| NonNumber.

Arguments Throws {A} e.
Arguments NonNumber {A}.

Definition bind {A B : Type} (c : outcome A) (k : A -> outcome B) : outcome B :=
  match c with
  | Returns a => k a
  | Throws e => Throws e
  | NonNumber => NonNumber
  end.

Declare Scope js_scope.
Delimit Scope js_scope with js.
Notation "x <- c ;; k" := (bind c (fun x => k))
  (at level 61, c at next level, right associativity) : js_scope.
Open Scope js_scope.

(** [for]-loops that build an array element by element, and
    [Array.prototype.map] with a callback that may leave the model. *)
Fixpoint mapM {A B : Type} (f : A -> outcome B) (l : list A) : outcome (list B) :=
  match l with
  | [] => Returns []
  | x :: r => y <- f x ;; ys <- mapM f r ;; Returns (y :: ys)
  end.

(** [for]-loops that update a variable in place. *)
Fixpoint foldM {A S : Type} (f : S -> A -> outcome S) (l : list A) (s : S) : outcome S :=
  match l with
  | [] => Returns s
  | x :: r => s' <- f s x ;; foldM f r s'
  end.

(** A value used as a number: [undefined] turns the arithmetic into [NaN]. *)
Definition num (x : option R) : outcome R :=
  match x with
  | Some r => Returns r
  | None => NonNumber
  end.

(** A value whose property is read: [undefined] and [null] throw. *)
Definition deref {A : Type} (x : option A) : outcome A :=
  match x with
  | Some a => Returns a
  | None => Throws TypeError
  end.

(** [a[i] = v] on an index that exists. *)
Fixpoint update {A : Type} (i : nat) (v : A) (l : list A) : list A :=
  match l, i with
  | [], _ => []
  | _ :: r, O => v :: r
  | x :: r, S i' => x :: update i' v r
  end.

Definition matrix : Type := list (list R).

Open Scope R_scope.

(** [a / b] in IEEE arithmetic is an infinity or [NaN] when [b] is zero. *)
Definition div (a b : R) : outcome R :=
  if Req_dec_T b 0 then NonNumber else Returns (a / b).

(** [Number.MAX_VALUE], the largest double, [2^1024 - 2^971]. *)
Definition MAX_VALUE : R := IZR (2 ^ 1024 - 2 ^ 971).

(** The result [x] of an operation on doubles: beyond [MAX_VALUE] it is
    an infinity. *)
Definition finite (x : R) : outcome R :=
  if Rlt_dec MAX_VALUE (Rabs x) then NonNumber else Returns x.

(* ------------------------------------------------------------------ *)
(** ** [js/math.js] *)

Module MathUtils.

(** The innermost loop of [matmul]: [sum += A[i][k] * B[k][j]] for
    [k < colsA].  [B[k][j]] throws when row [k] of [B] is missing. *)
Definition matmul_cell (Ai : list R) (B : matrix) (colsA j : nat) : outcome R :=
  foldM (fun sum k =>
           Bk <- deref (nth_error B k) ;;
           a <- num (nth_error Ai k) ;;
           b <- num (nth_error Bk j) ;;
           Returns (sum + a * b))
        (seq 0 colsA) 0.

Definition matmul (A B : matrix) : outcome matrix :=
  match A with
  | [] => Throws TypeError                      (* A[0].length *)
  | A0 :: _ =>
      match B with
      | [] => Throws TypeError                  (* B[0].length *)
      | B0 :: _ =>
          let colsA := length A0 in
          let colsB := length B0 in
          mapM (fun Ai => mapM (matmul_cell Ai B colsA) (seq 0 colsB)) A
      end
  end.

Definition transpose (A : matrix) : outcome matrix :=
  match A with
  | [] => Throws TypeError                      (* A[0].length *)
  | A0 :: _ =>
      mapM (fun j => mapM (fun Ai => num (nth_error Ai j)) A) (seq 0 (length A0))
  end.

(** [expScores.reduce((a, b) => a + b, 0)]: a partial sum beyond the
    largest double is an infinity.  An array has fewer than [2^32]
    elements; a longer list stands for no array, and its sum is taken
    in the real numbers. *)
Definition reduce_sum (expScores : list R) : outcome R :=
  if Z.ltb (Z.of_nat (length expScores)) (2 ^ 32)
  then foldM (fun a b => finite (a + b)) expScores 0
  else Returns (fold_left Rplus expScores 0).

(** One iteration of the loop of [softmax].  For an empty row
    [Math.max()] is [-Infinity], but then neither callback runs.  For a
    temperature above zero no exponent is above zero; for one below
    zero none is below, and [Math.exp] of a large one is an infinity,
    which makes the quotient [NaN]. *)
Definition softmax_row (row : list R) (temperature : R) : outcome (list R) :=
  match row with
  | [] => Returns []
  | s0 :: rest =>
      let maxScore := fold_left Rmax rest s0 in
      expScores <- mapM (fun s => q <- div (s - maxScore) temperature ;;
                                  finite (exp q)) row ;;
      sumExp <- reduce_sum expScores ;;
      mapM (fun e => div e sumExp) expScores
  end.

Definition softmax (scores : matrix) (temperature : R) : outcome matrix :=
  mapM (fun row => softmax_row row temperature) scores.

(** [Math.random()] is the next element of a stream of draws; the state is
    the number of draws made so far. *)
Section Random.
Variable random : nat -> R.

Fixpoint randomRow (scale : R) (cols : nat) (n : nat) : list R * nat :=
  match cols with
  | O => ([], n)
  | S c =>
      let x := (random n - 0.5) * 2 * scale in
      let (r, n') := randomRow scale c (S n) in
      (x :: r, n')
  end.

Fixpoint randomRows (scale : R) (rows cols : nat) (n : nat) : matrix * nat :=
  match rows with
  | O => ([], n)
  | S r =>
      let (row, n1) := randomRow scale cols n in
      let (m, n2) := randomRows scale r cols n1 in
      (row :: m, n2)
  end.

(** [scale] is only used when there is an entry, and then
    [rows + cols] is positive. *)
Definition randomMatrix (rows cols : nat) (n : nat) : matrix * nat :=
  let scale := sqrt (2 / INR (rows + cols)) in
  randomRows scale rows cols n.
End Random.

(** [zeros] *)
Definition zeros (rows cols : nat) : matrix :=
  map (fun _ => repeat 0 cols) (seq 0 rows).

(** [add]: the loops run over the rows of [A] and the columns of its
    first row; [A[0]] is read only when there is a row. *)
Definition add (A B : matrix) : outcome matrix :=
  match A with
  | [] => Returns []
  | A0 :: _ =>
      mapM (fun iAi =>
              mapM (fun j =>
                      Bi <- deref (nth_error B (fst iAi)) ;;
                      a <- num (nth_error (snd iAi) j) ;;
                      b <- num (nth_error Bi j) ;;
                      Returns (a + b))
                   (seq 0 (length A0)))
           (combine (seq 0 (length A)) A)
  end.

(** [scale] *)
Definition scale (A : matrix) (scalar : R) : matrix :=
  map (fun row => map (fun val => val * scalar) row) A.

(** [dot]: the loop runs over the indices of [a]. *)
Definition dot (a b : list R) : outcome R :=
  foldM (fun sum ia =>
           bi <- num (nth_error b (fst ia)) ;;
           Returns (sum + snd ia * bi))
        (combine (seq 0 (length a)) a) 0.

(** [norm] *)
Definition norm (v : list R) : R :=
  sqrt (fold_left (fun sum val => sum + val * val) v 0).

(** [normalize] *)
Definition normalize (v : list R) : list R :=
  let n := norm v in
  if Rlt_dec 0 n then map (fun val => val / n) v else v.

(** [cosineSimilarity] *)
Definition cosineSimilarity (a b : list R) : outcome R :=
  dotProduct <- dot a b ;;
  let normA := norm a in
  let normB := norm b in
  if Rlt_dec 0 normA
  then if Rlt_dec 0 normB
       then Returns (dotProduct / (normA * normB))
       else Returns 0
  else Returns 0.

(** [averageAttentions]: [numHeads] is at least 1 when the division is
    reached. *)
Definition averageAttentions (attentions : list matrix) : outcome matrix :=
  match attentions with
  | [] => Throws TypeError                      (* attentions[0].length *)
  | A0 :: _ =>
      let numHeads := length attentions in
      let seqLen := length A0 in
      mapM (fun i =>
              mapM (fun j =>
                      sum <- foldM (fun sum Ah =>
                                      row <- deref (nth_error Ah i) ;;
                                      x <- num (nth_error row j) ;;
                                      Returns (sum + x))
                                   attentions 0 ;;
                      Returns (sum / INR numHeads))
                   (seq 0 seqLen))
           (seq 0 seqLen)
  end.

(** [concatenateHorizontal(...matrices)] *)
Definition concatenateHorizontal (matrices : list matrix) : outcome matrix :=
  match matrices with
  | [] => Throws TypeError                      (* matrices[0].length *)
  | M0 :: _ =>
      mapM (fun i =>
              foldM (fun row M =>
                       r <- deref (nth_error M i) ;;
                       Returns (row ++ r))
                    matrices [])
           (seq 0 (length M0))
  end.

(** [Array.prototype.slice] on integer bounds: a negative bound counts
    from the end, and both are clamped to the array. *)
Definition slice {A : Type} (l : list A) (start final : Z) : list A :=
  let len := Z.of_nat (length l) in
  let k := if Z.ltb start 0 then Z.max (len + start) 0 else Z.min start len in
  let e := if Z.ltb final 0 then Z.max (len + final) 0 else Z.min final len in
  firstn (Z.to_nat (Z.max (e - k) 0)) (skipn (Z.to_nat k) l).

(** [sliceRows] *)
Definition sliceRows (m : matrix) (startRow endRow : Z) : matrix :=
  slice m startRow endRow.

(** [sliceCols] *)
Definition sliceCols (m : matrix) (startCol endCol : Z) : matrix :=
  map (fun row => slice row startCol endCol) m.

End MathUtils.

(* ------------------------------------------------------------------ *)
(** ** [js/mhsa.js]: the data *)

(** One element of [heads]: the object literal built by the initializer
    and by both loaders, and also a head object of a weight file, where
    any field may be missing. *)
Module Head.
Record t : Type := mk {
  Wq : option matrix;
  Wk : option matrix;
  Wv : option matrix;
  Wo : option matrix;
  bq : option (list R);
  bk : option (list R);
  bv : option (list R)
}.
End Head.

(** The [weights] argument of the loaders, as parsed from a weight file. *)
Module Weights.
Record Config : Type := mkConfig {
  num_heads : option nat;
  head_dim : option nat;
  embed_dim : option nat
}.

Record ModelConfig : Type := mkModelConfig {
  isRealModel : option bool
}.

Record t : Type := mk {
  heads : option (list Head.t);
  Wo : option matrix;
  bo : option (list R);
  config : option Config;
  modelConfig : option ModelConfig;
  model_name : option string
}.
End Weights.

(** One element of [headOutputs] in the result of [forward]. *)
Module HeadOutput.
Record t : Type := mk {
  Q : matrix;
  K : matrix;
  V : matrix;
  output : matrix;
  attentionWeights : matrix;
  scores : matrix;
  Wq : option matrix;
  Wk : option matrix;
  Wv : option matrix;
  Wo : option matrix
}.
End HeadOutput.

(** The object returned by [forward]. *)
Module Result.
Record t : Type := mk {
  output : matrix;
  headOutputs : list HeadOutput.t;
  headAttentions : list matrix;
  concatenated : matrix;
  headProjectedOutputs : option (list matrix)
}.
End Result.

(** Truthiness, as [||] and [if] use it. *)
Definition truthy_string (x : option string) : bool :=
  match x with
  | Some (String _ _) => true
  | _ => false
  end.

Definition present {A : Type} (x : option A) : bool :=
  match x with
  | Some _ => true
  | None => false
  end.

(* ------------------------------------------------------------------ *)
(** ** [js/mhsa.js]: class [MultiHeadSelfAttention] *)

Module MHSA.
Import MathUtils.

(** The fields of [this]. *)
Record t : Type := mk {
  embedDim : nat;
  numHeads : nat;
  headDim : nat;
  temperature : R;
  heads : list Head.t;
  Wo : option matrix;
  bo : option (list R);
  isRealModel : bool;
  modelName : option string;
  useBias : bool
}.

(** [constructor]: [Math.floor(embedDim / numHeads)] is an infinity or
    [NaN] when [numHeads] is zero. *)
Definition constructor (embedDim numHeads : nat) (temperature : R) : outcome t :=
  match numHeads with
  | O => NonNumber
  | S _ =>
      Returns {| embedDim := embedDim;
                 numHeads := numHeads;
                 headDim := Nat.div embedDim numHeads;
                 temperature := temperature;
                 heads := [];
                 Wo := None;
                 bo := None;
                 isRealModel := false;
                 modelName := None;
                 useBias := false |}
  end.

(** *** Methods that assign to the fields of [this]

    A method is run on a state of [this] and gives an outcome and the
    state it leaves, also when it throws. *)
Definition method (A : Type) : Type := t -> outcome A * t.

Definition mbind {A B : Type} (c : method A) (k : A -> method B) : method B :=
  fun this =>
    match c this with
    | (Returns a, this') => k a this'
    | (Throws e, this') => (Throws e, this')
    | (NonNumber, this') => (NonNumber, this')
    end.

Definition lift {A : Type} (c : outcome A) : method A := fun this => (c, this).

Definition assign (f : t -> t) : method unit := fun this => (Returns tt, f this).

Definition throw {A : Type} (e : js_error) : method A := fun this => (Throws e, this).

Notation "x <~ c ;; k" := (mbind c (fun x => k))
  (at level 61, c at next level, right associativity) : js_scope.
Notation "c ;;; k" := (mbind c (fun _ => k))
  (at level 61, right associativity) : js_scope.

Definition set_embedDim (v : nat) (s : t) : t :=
  mk v (numHeads s) (headDim s) (temperature s) (heads s) (Wo s) (bo s)
     (isRealModel s) (modelName s) (useBias s).
Definition set_numHeads (v : nat) (s : t) : t :=
  mk (embedDim s) v (headDim s) (temperature s) (heads s) (Wo s) (bo s)
     (isRealModel s) (modelName s) (useBias s).
Definition set_headDim (v : nat) (s : t) : t :=
  mk (embedDim s) (numHeads s) v (temperature s) (heads s) (Wo s) (bo s)
     (isRealModel s) (modelName s) (useBias s).
Definition set_heads (v : list Head.t) (s : t) : t :=
  mk (embedDim s) (numHeads s) (headDim s) (temperature s) v (Wo s) (bo s)
     (isRealModel s) (modelName s) (useBias s).
Definition set_Wo (v : option matrix) (s : t) : t :=
  mk (embedDim s) (numHeads s) (headDim s) (temperature s) (heads s) v (bo s)
     (isRealModel s) (modelName s) (useBias s).
Definition set_bo (v : option (list R)) (s : t) : t :=
  mk (embedDim s) (numHeads s) (headDim s) (temperature s) (heads s) (Wo s) v
     (isRealModel s) (modelName s) (useBias s).
Definition set_isRealModel (v : bool) (s : t) : t :=
  mk (embedDim s) (numHeads s) (headDim s) (temperature s) (heads s) (Wo s) (bo s)
     v (modelName s) (useBias s).
Definition set_modelName (v : option string) (s : t) : t :=
  mk (embedDim s) (numHeads s) (headDim s) (temperature s) (heads s) (Wo s) (bo s)
     (isRealModel s) v (useBias s).
Definition set_useBias (v : bool) (s : t) : t :=
  mk (embedDim s) (numHeads s) (headDim s) (temperature s) (heads s) (Wo s) (bo s)
     (isRealModel s) (modelName s) v.

(** *** [initializeRandomWeights] *)
Section Init.
Variable random : nat -> R.

(** The loop that pushes [numHeads] head objects; the four matrices of a
    head are drawn in the order of the object literal. *)
Fixpoint randomHeads (count embedDim headDim : nat) (n : nat) : list Head.t * nat :=
  match count with
  | O => ([], n)
  | S c =>
      let (wq, n1) := randomMatrix random embedDim headDim n in
      let (wk, n2) := randomMatrix random embedDim headDim n1 in
      let (wv, n3) := randomMatrix random embedDim headDim n2 in
      let (wo, n4) := randomMatrix random headDim embedDim n3 in
      let (hs, n5) := randomHeads c embedDim headDim n4 in
      (Head.mk (Some wq) (Some wk) (Some wv) (Some wo) None None None :: hs, n5)
  end.

Definition initializeRandomWeights (this : t) (n : nat) : t * nat :=
  let (hs, n1) := randomHeads (numHeads this) (embedDim this) (headDim this) n in
  let (wo, n2) := randomMatrix random (numHeads this * headDim this) (embedDim this) n1 in
  ({| embedDim := embedDim this;
      numHeads := numHeads this;
      headDim := headDim this;
      temperature := temperature this;
      heads := hs;
      Wo := Some wo;
      bo := None;
      isRealModel := false;
      modelName := Some "Random Initialization"%string;
      useBias := false |}, n2).

(** [createRandomMHSA] *)
Definition createRandomMHSA (embedDim numHeads : nat) (temperature : R) (n : nat)
  : outcome (t * nat) :=
  mhsa <- constructor embedDim numHeads temperature ;;
  Returns (initializeRandomWeights mhsa n).
End Init.

(** *** The loaders *)

(** [weights.heads[0].Wq[0].length] *)
Definition first_Wq_cols (hs : list Head.t) : outcome nat :=
  head0 <- deref (nth_error hs 0) ;;
  wq <- deref (Head.Wq head0) ;;
  row0 <- deref (nth_error wq 0) ;;
  Returns (length row0).

(** [weights.heads[0].Wq.length] *)
Definition first_Wq_rows (hs : list Head.t) : outcome nat :=
  head0 <- deref (nth_error hs 0) ;;
  wq <- deref (Head.Wq head0) ;;
  Returns (length wq).

(** [!!(weights.heads[0].bq)] *)
Definition first_has_bq (hs : list Head.t) : outcome bool :=
  head0 <- deref (nth_error hs 0) ;;
  Returns (present (Head.bq head0)).

Definition loadRealWeights (weights : option Weights.t) (modelName : option string)
  : method unit :=
  match weights with
  | Some w =>
      match Weights.heads w, Weights.Wo w with
      | Some hs, Some wo =>
          assign (set_numHeads (length hs)) ;;;
          hd <~ lift (first_Wq_cols hs) ;;
          assign (set_headDim hd) ;;;
          ed <~ lift (first_Wq_rows hs) ;;
          assign (set_embedDim ed) ;;;
          assign (set_heads
                    (map (fun head =>
                            Head.mk (Head.Wq head) (Head.Wk head) (Head.Wv head)
                                    (Head.Wo head)
                                    (Head.bq head) (Head.bk head) (Head.bv head))
                         hs)) ;;;
          assign (set_Wo (Some wo)) ;;;
          assign (set_bo (Weights.bo w)) ;;;
          assign (set_isRealModel true) ;;;
          assign (set_modelName modelName) ;;;
          ub <~ lift (first_has_bq hs) ;;
          assign (set_useBias ub)
      | _, _ => throw (Error "Invalid weight structure")
      end
  | None => throw (Error "Invalid weight structure")
  end.

(** [config.f || fallback]: the fallback is evaluated only when the
    field is missing or zero. *)
Definition config_or (field : option nat) (fallback : outcome nat) : outcome nat :=
  match field with
  | Some (S n) => Returns (S n)
  | _ => fallback
  end.

Definition config_field (c : option Weights.Config)
  (f : Weights.Config -> option nat) : option nat :=
  match c with
  | Some c => f c
  | None => None
  end.

Definition loadPreExtractedWeights (weights : option Weights.t)
  (modelName : option string) : method unit :=
  match weights with
  | Some w =>
      match Weights.heads w with
      | Some hs =>
          let config := Weights.config w in
          nh <~ lift (config_or (config_field config Weights.num_heads)
                                (Returns (length hs))) ;;
          assign (set_numHeads nh) ;;;
          hd <~ lift (config_or (config_field config Weights.head_dim)
                                (first_Wq_cols hs)) ;;
          assign (set_headDim hd) ;;;
          ed <~ lift (config_or (config_field config Weights.embed_dim)
                                (first_Wq_rows hs)) ;;
          assign (set_embedDim ed) ;;;
          assign (set_heads
                    (map (fun head =>
                            Head.mk (Head.Wq head) (Head.Wk head) (Head.Wv head)
                                    (Head.Wo head)
                                    (Head.bq head) (Head.bk head) (Head.bv head))
                         hs)) ;;;
          assign (set_Wo None) ;;;
          assign (set_bo (Weights.bo w)) ;;;
          assign (set_isRealModel
                    (match Weights.modelConfig w with
                     | Some mc =>
                         match Weights.isRealModel mc with
                         | Some false => false
                         | _ => true
                         end
                     | None => true
                     end)) ;;;
          assign (set_modelName
                    (if truthy_string modelName then modelName
                     else if truthy_string (Weights.model_name w)
                          then Weights.model_name w
                          else Some "Pre-extracted Model"%string)) ;;;
          ub <~ lift (first_has_bq hs) ;;
          assign (set_useBias ub)
      | None => throw (Error "Invalid pre-extracted weight structure")
      end
  | None => throw (Error "Invalid pre-extracted weight structure")
  end.

(** *** The forward pass *)

Definition scaledDotProductAttention (this : t) (Q K V : matrix)
  : outcome (matrix * matrix * matrix) :=
  KT <- transpose K ;;
  scores <- matmul Q KT ;;
  let scale := sqrt (INR (headDim this)) in
  scaledScores <- mapM (fun row => mapM (fun val => div val scale) row) scores ;;
  attentionWeights <- softmax scaledScores (temperature this) ;;
  output <- matmul attentionWeights V ;;
  Returns (output, attentionWeights, scaledScores).

(** [row[j] += b[j]] for every [j] below the length of [row]. *)
Definition add_bias_row (b row : list R) : outcome (list R) :=
  mapM (fun jx => bj <- num (nth_error b (fst jx)) ;; Returns (snd jx + bj))
       (combine (seq 0 (length row)) row).

Definition linearProjection (X : matrix) (W : option matrix) (b : option (list R))
  : outcome matrix :=
  W' <- deref W ;;
  result <- matmul X W' ;;
  match b with
  | Some ((_ :: _) as b') => mapM (add_bias_row b') result
  | _ => Returns result
  end.

(** The body of the loop over the heads: what it pushes on [headOutputs]
    (its [attentionWeights] is also what goes on [headAttentions]) and,
    when the head has a [Wo], on [headProjectedOutputs]. *)
Definition forward_head (this : t) (embeddings : matrix) (head : Head.t)
  : outcome (HeadOutput.t * option matrix) :=
  Q <- linearProjection embeddings (Head.Wq head) (Head.bq head) ;;
  K <- linearProjection embeddings (Head.Wk head) (Head.bk head) ;;
  V <- linearProjection embeddings (Head.Wv head) (Head.bv head) ;;
  r <- scaledDotProductAttention this Q K V ;;
  let '(output, attentionWeights, scores) := r in
  let ho := HeadOutput.mk Q K V output attentionWeights scores
                          (Head.Wq head) (Head.Wk head) (Head.Wv head) (Head.Wo head) in
  match Head.Wo head with
  | Some wo => projected <- matmul output wo ;; Returns (ho, Some projected)
  | None => Returns (ho, None)
  end.

Definition push_projected (l : list matrix) (p : option matrix) : list matrix :=
  match p with
  | Some projected => l ++ [projected]
  | None => l
  end.

Definition forward_heads (this : t) (embeddings : matrix)
  : outcome (list HeadOutput.t * list matrix * list matrix) :=
  foldM (fun st h =>
           let '(headOutputs, headAttentions, headProjectedOutputs) := st in
           head <- deref (nth_error (heads this) h) ;;
           r <- forward_head this embeddings head ;;
           Returns (headOutputs ++ [fst r],
                    headAttentions ++ [HeadOutput.attentionWeights (fst r)],
                    push_projected headProjectedOutputs (snd r)))
        (seq 0 (numHeads this)) ([], [], []).

(** [finalOutput[i][j] += headProjectedOutputs[h][i][j]] *)
Definition add_projected (headProjectedOutputs : list matrix) (h i j : nat)
  (finalOutput : matrix) : outcome matrix :=
  row <- deref (nth_error finalOutput i) ;;
  Ph <- deref (nth_error headProjectedOutputs h) ;;
  Phi <- deref (nth_error Ph i) ;;
  x <- num (nth_error row j) ;;
  y <- num (nth_error Phi j) ;;
  Returns (update i (update j (x + y) row) finalOutput).

(** [finalOutput[i][j] += this.bo[j]] *)
Definition add_bo (bo : list R) (i j : nat) (finalOutput : matrix) : outcome matrix :=
  row <- deref (nth_error finalOutput i) ;;
  x <- num (nth_error row j) ;;
  y <- num (nth_error bo j) ;;
  Returns (update i (update j (x + y) row) finalOutput).

(** Row [i] of [concatenated]: the rows [i] of the head outputs, pushed
    one after the other. *)
Definition concat_row (this : t) (headOutputs : list HeadOutput.t) (i : nat)
  : outcome (list R) :=
  foldM (fun row h =>
           ho <- deref (nth_error headOutputs h) ;;
           r <- deref (nth_error (HeadOutput.output ho) i) ;;
           Returns (row ++ r))
        (seq 0 (numHeads this)) [].

Definition concatenate (this : t) (headOutputs : list HeadOutput.t) (seqLen : nat)
  : outcome matrix :=
  mapM (concat_row this headOutputs) (seq 0 seqLen).

Definition forward (this : t) (embeddings : matrix) : outcome Result.t :=
  let seqLen := length embeddings in
  st <- forward_heads this embeddings ;;
  let '(headOutputs, headAttentions, headProjectedOutputs) := st in
  let projected_or_null :=
    match headProjectedOutputs with
    | [] => None
    | _ :: _ => Some headProjectedOutputs
    end in
  if Nat.eqb (length headProjectedOutputs) (numHeads this) then
    P0 <- deref (nth_error headProjectedOutputs 0) ;;
    finalOutput <-
      foldM (fun fo h =>
               foldM (fun fo i =>
                        foldM (fun fo j => add_projected headProjectedOutputs h i j fo)
                              (seq 0 (embedDim this)) fo)
                     (seq 0 seqLen) fo)
            (seq 1 (numHeads this - 1)) P0 ;;
    finalOutput <-
      match bo this with
      | Some ((_ :: _) as b) =>
          foldM (fun fo i =>
                   foldM (fun fo j => add_bo b i j fo) (seq 0 (embedDim this)) fo)
                (seq 0 seqLen) finalOutput
      | _ => Returns finalOutput
      end ;;
    concatenated <- concatenate this headOutputs seqLen ;;
    Returns (Result.mk finalOutput headOutputs headAttentions concatenated
                       projected_or_null)
  else
    concatenated <- concatenate this headOutputs seqLen ;;
    wo <- deref (Wo this) ;;
    finalOutput <- matmul concatenated wo ;;
    Returns (Result.mk finalOutput headOutputs headAttentions concatenated
                       projected_or_null).

(** [calculateParams] *)
Definition calculateParams (this : t) : nat :=
  let perHead := (3 * embedDim this * headDim this)%nat in
  let headsTotal := (numHeads this * perHead)%nat in
  let outputProj := (numHeads this * headDim this * embedDim this)%nat in
  (headsTotal + outputProj)%nat.

(** [createMHSAFromWeights]: the constructor arguments are read off the
    weights before the loader runs; the factory fails when the loader
    does. *)
Definition createMHSAFromWeights (weights : Weights.t) (temperature : R)
  : outcome t :=
  let config := Weights.config weights in
  embedDim <- config_or (config_field config Weights.embed_dim)
                        (hs <- deref (Weights.heads weights) ;; first_Wq_rows hs) ;;
  numHeads <- config_or (config_field config Weights.num_heads)
                        (hs <- deref (Weights.heads weights) ;; Returns (length hs)) ;;
  mhsa <- constructor embedDim numHeads temperature ;;
  match loadPreExtractedWeights
          (Some weights)
          (if truthy_string (Weights.model_name weights)
           then Weights.model_name weights
           else Some "Pre-extracted Model"%string) mhsa with
  | (Returns _, mhsa') => Returns mhsa'
  | (Throws e, _) => Throws e
  | (NonNumber, _) => NonNumber
  end.

End MHSA.

(* ------------------------------------------------------------------ *)
(** ** The earlier revision of the class

    The repository also keeps an earlier text of the same module: a head
    is [{Wq, Wk, Wv}], there are no biases, and [forward] has one merge
    only, concatenate-then-project.  [scaledDotProductAttention] and the
    loop that builds [concatenated] have the same text in both
    revisions. *)

Module Legacy.
Import MathUtils.

Record t : Type := mk {
  embedDim : nat;
  numHeads : nat;
  headDim : nat;
  temperature : R;
  heads : list Head.t;
  Wo : option matrix;
  isRealModel : bool;
  modelName : option string
}.

(** The fields of the current class that the shared methods read. *)
Definition as_current (this : t) : MHSA.t :=
  MHSA.mk (embedDim this) (numHeads this) (headDim this) (temperature this)
          (heads this) (Wo this) None (isRealModel this) (modelName this) false.

Definition constructor (embedDim numHeads : nat) (temperature : R) : outcome t :=
  match numHeads with
  | O => NonNumber
  | S _ =>
      Returns {| embedDim := embedDim;
                 numHeads := numHeads;
                 headDim := Nat.div embedDim numHeads;
                 temperature := temperature;
                 heads := [];
                 Wo := None;
                 isRealModel := false;
                 modelName := None |}
  end.

Section Init.
Variable random : nat -> R.

Fixpoint randomHeads (count embedDim headDim : nat) (n : nat) : list Head.t * nat :=
  match count with
  | O => ([], n)
  | S c =>
      let (wq, n1) := randomMatrix random embedDim headDim n in
      let (wk, n2) := randomMatrix random embedDim headDim n1 in
      let (wv, n3) := randomMatrix random embedDim headDim n2 in
      let (hs, n4) := randomHeads c embedDim headDim n3 in
      (Head.mk (Some wq) (Some wk) (Some wv) None None None None :: hs, n4)
  end.

Definition initializeRandomWeights (this : t) (n : nat) : t * nat :=
  let (hs, n1) := randomHeads (numHeads this) (embedDim this) (headDim this) n in
  let (wo, n2) := randomMatrix random (numHeads this * headDim this) (embedDim this) n1 in
  ({| embedDim := embedDim this;
      numHeads := numHeads this;
      headDim := headDim this;
      temperature := temperature this;
      heads := hs;
      Wo := Some wo;
      isRealModel := false;
      modelName := Some "Random Initialization"%string |}, n2).
End Init.

Definition loadRealWeights (weights : option Weights.t) (modelName : option string)
  (this : t) : outcome unit * t :=
  match weights with
  | Some w =>
      match Weights.heads w, Weights.Wo w with
      | Some hs, Some wo =>
          let this1 := mk (embedDim this) (length hs) (headDim this) (temperature this)
                          (heads this) (Wo this) (isRealModel this) (Legacy.modelName this) in
          match MHSA.first_Wq_cols hs with
          | Returns hd =>
              let this2 := mk (embedDim this) (length hs) hd (temperature this)
                              (heads this) (Wo this) (isRealModel this)
                              (Legacy.modelName this) in
              match MHSA.first_Wq_rows hs with
              | Returns ed =>
                  (Returns tt,
                   mk ed (length hs) hd (temperature this)
                      (map (fun head =>
                              Head.mk (Head.Wq head) (Head.Wk head) (Head.Wv head)
                                      None None None None) hs)
                      (Some wo) true modelName)
              | Throws e => (Throws e, this2)
              | NonNumber => (NonNumber, this2)
              end
          | Throws e => (Throws e, this1)
          | NonNumber => (NonNumber, this1)
          end
      | _, _ => (Throws (Error "Invalid weight structure"), this)
      end
  | None => (Throws (Error "Invalid weight structure"), this)
  end.

Definition forward_head (this : t) (embeddings : matrix) (head : Head.t)
  : outcome HeadOutput.t :=
  wq <- deref (Head.Wq head) ;;
  Q <- matmul embeddings wq ;;
  wk <- deref (Head.Wk head) ;;
  K <- matmul embeddings wk ;;
  wv <- deref (Head.Wv head) ;;
  V <- matmul embeddings wv ;;
  r <- MHSA.scaledDotProductAttention (as_current this) Q K V ;;
  let '(output, attentionWeights, scores) := r in
  Returns (HeadOutput.mk Q K V output attentionWeights scores None None None None).

Definition forward_heads (this : t) (embeddings : matrix)
  : outcome (list HeadOutput.t * list matrix) :=
  foldM (fun st h =>
           let '(headOutputs, headAttentions) := st in
           head <- deref (nth_error (heads this) h) ;;
           ho <- forward_head this embeddings head ;;
           Returns (headOutputs ++ [ho],
                    headAttentions ++ [HeadOutput.attentionWeights ho]))
        (seq 0 (numHeads this)) ([], []).

Definition forward (this : t) (embeddings : matrix) : outcome Result.t :=
  let seqLen := length embeddings in
  st <- forward_heads this embeddings ;;
  let '(headOutputs, headAttentions) := st in
  concatenated <- MHSA.concatenate (as_current this) headOutputs seqLen ;;
  wo <- deref (Wo this) ;;
  finalOutput <- matmul concatenated wo ;;
  Returns (Result.mk finalOutput headOutputs headAttentions concatenated None).

End Legacy.

(* ------------------------------------------------------------------ *)
(** ** Linear algebra on lists of rows: the vocabulary of the
       specification *)

Module Linalg.

(** [M] has [rows] rows, each of [cols] entries. *)
Definition shape (rows cols : nat) (M : matrix) : Prop :=
  length M = rows /\ Forall (fun r => length r = cols) M.

Definition dot (a b : list R) : R :=
  fold_left (fun s p => s + fst p * snd p) (combine a b) 0.

Definition column (B : matrix) (j : nat) : list R :=
  map (fun r => nth j r 0) B.

Definition width (B : matrix) : nat := length (hd [] B).

(** The product of two matrices: inner products of rows and columns. *)
Definition mmul (A B : matrix) : matrix :=
  map (fun a => map (fun j => dot a (column B j)) (seq 0 (width B))) A.

Definition mtranspose (A : matrix) : matrix :=
  map (column A) (seq 0 (width A)).

Definition vadd (a b : list R) : list R :=
  map (fun p => fst p + snd p) (combine a b).

(** The elementwise sum of two matrices. *)
Definition madd (A B : matrix) : matrix :=
  map (fun p => vadd (fst p) (snd p)) (combine A B).

(** The elementwise sum of a list of matrices, first to last. *)
Definition msum (l : list matrix) : matrix :=
  match l with
  | [] => []
  | M :: r => fold_left madd r M
  end.

(** A vector added to every row. *)
Definition add_to_rows (b : list R) (M : matrix) : matrix :=
  map (fun r => vadd r b) M.

(** Matrices of [rows] rows side by side. *)
Definition hconcat (rows : nat) (Ms : list matrix) : matrix :=
  map (fun i => concat (map (fun M => nth i M []) Ms)) (seq 0 rows).

(** Matrices on top of each other. *)
Definition vstack (Ms : list matrix) : matrix := concat Ms.

Definition row_sum (r : list R) : R := fold_left Rplus r 0.

Definition row_max (r : list R) : R := fold_left Rmax (tl r) (hd 0 r).

(** Softmax of one row with a temperature: subtract the maximum, divide
    by the temperature, exponentiate, normalise by the sum. *)
Definition softmax_row_spec (temperature : R) (row : list R) : list R :=
  let e := map (fun s => exp ((s - row_max row) / temperature)) row in
  map (fun x => x / row_sum e) e.

Definition softmaxRows (S : matrix) (temperature : R) : matrix :=
  map (softmax_row_spec temperature) S.

(** Softmax of one row without the subtraction of the maximum. *)
Definition plain_softmax_row (temperature : R) (row : list R) : list R :=
  let e := map (fun s => exp (s / temperature)) row in
  map (fun x => x / row_sum e) e.

(** A constant added to every element of row [i]. *)
Definition shift_row (i : nat) (c : R) (S : matrix) : matrix :=
  match nth_error S i with
  | Some row => update i (map (fun s => s + c) row) S
  | None => S
  end.

(** Every row sums to 1 and every entry lies between 0 and 1. *)
Definition stochastic (M : matrix) : Prop :=
  Forall (fun row => row_sum row = 1 /\ Forall (fun x => 0 <= x <= 1) row) M.

(** The sum over a list of matrices of their entries at [(i, j)]. *)
Definition entry_sum (i j : nat) (Ms : list matrix) : R :=
  fold_left (fun sum M => sum + nth j (nth i M []) 0) Ms 0.

(** The entrywise mean of a list of square matrices of size [n]. *)
Definition mean_matrix (n : nat) (Ms : list matrix) : matrix :=
  map (fun i => map (fun j => entry_sum i j Ms / INR (length Ms)) (seq 0 n)) (seq 0 n).

(** The number of entries of a matrix. *)
Definition entries (M : matrix) : nat :=
  fold_right (fun row n => (length row + n)%nat) 0%nat M.

(** The list [l] with the element at every index [k] replaced by
    [G k] of it, counting from [start]. *)
Fixpoint imap_from {A : Type} (start : nat) (G : nat -> A -> A) (l : list A) : list A :=
  match l with
  | [] => []
  | x :: r => G start x :: imap_from (S start) G r
  end.

End Linalg.

(* ------------------------------------------------------------------ *)
(** ** [js/embeddings.js]: embeddings from a hash of the token *)

Module Embeddings.

(** A token is the sequence of its UTF-16 code units, which is what
    [split('')] and [charCodeAt(0)] go through. *)
Definition token : Type := list nat.

(** [x % y] for [x] not negative and [y] positive. *)
Definition rem (x y : R) : R := x - IZR (Int_part (x / y)) * y.

(** [tokens[i].split('').reduce((acc, char) => acc + char.charCodeAt(0), 0)] *)
Definition hash (t : token) : nat :=
  fold_left (fun acc char => (acc + char)%nat) t 0%nat.

Definition generateDeterministicEmbeddings (tokens : list token) (embedDim : nat)
  : matrix :=
  map (fun t =>
         let hash := hash t in
         map (fun j =>
                let angle := rem (INR hash * 0.1 + INR j * 0.5) (2 * PI) in
                sin angle * 0.5)
             (seq 0 embedDim))
      tokens.

End Embeddings.

(* ------------------------------------------------------------------ *)
(** ** The engine in the vocabulary of the specification *)

Module Spec.
Import Linalg.

(** The data model of a head: [Wq], [Wk], [Wv] of shape
    [embedDim x headDim]; a [Wo], when there is one, of shape
    [headDim x embedDim]; biases, when there are some, of length
    [headDim]. *)
Definition head_ok (embedDim headDim : nat) (h : Head.t) : Prop :=
  (exists wq, Head.Wq h = Some wq /\ shape embedDim headDim wq) /\
  (exists wk, Head.Wk h = Some wk /\ shape embedDim headDim wk) /\
  (exists wv, Head.Wv h = Some wv /\ shape embedDim headDim wv) /\
  (forall wo, Head.Wo h = Some wo -> shape headDim embedDim wo) /\
  (forall b, Head.bq h = Some b -> length b = headDim) /\
  (forall b, Head.bk h = Some b -> length b = headDim) /\
  (forall b, Head.bv h = Some b -> length b = headDim).

Definition every_head_has_Wo (this : MHSA.t) : bool :=
  forallb (fun h => present (Head.Wo h)) (MHSA.heads this).

(** Head [k] is there and has a [Wo] of its own. *)
Definition has_Wo_at (this : MHSA.t) (k : nat) : bool :=
  match nth_error (MHSA.heads this) k with
  | Some h => present (Head.Wo h)
  | None => false
  end.

(** The number of heads among the first [numHeads] that have a [Wo]. *)
Definition projecting_heads (this : MHSA.t) : nat :=
  length (filter (has_Wo_at this) (seq 0 (MHSA.numHeads this))).

(** An initialized engine: positive dimensions and temperature,
    [numHeads] heads of the right shapes, and a combined [Wo] of shape
    [numHeads * headDim x embedDim] unless every head has its own. *)
Definition initialized (this : MHSA.t) : Prop :=
  (1 <= MHSA.embedDim this)%nat /\
  (1 <= MHSA.headDim this)%nat /\
  (1 <= MHSA.numHeads this)%nat /\
  MHSA.numHeads this = length (MHSA.heads this) /\
  0 < MHSA.temperature this /\
  Forall (head_ok (MHSA.embedDim this) (MHSA.headDim this)) (MHSA.heads this) /\
  (forall b, MHSA.bo this = Some b -> length b = MHSA.embedDim this) /\
  (every_head_has_Wo this = true \/
   exists wo, MHSA.Wo this = Some wo /\
              shape (MHSA.numHeads this * MHSA.headDim this) (MHSA.embedDim this) wo).

(** The part of [initialized] that the loop over the heads relies on. *)
Definition heads_ready (this : MHSA.t) : Prop :=
  (1 <= MHSA.embedDim this)%nat /\
  (1 <= MHSA.headDim this)%nat /\
  (1 <= MHSA.numHeads this)%nat /\
  MHSA.numHeads this = length (MHSA.heads this) /\
  0 < MHSA.temperature this /\
  Forall (head_ok (MHSA.embedDim this) (MHSA.headDim this)) (MHSA.heads this).

(** A matrix whose every entry is a draw from [[0, 1)] moved to
    [[-1, 1)] and scaled by [sqrt (2 / (rows + cols))]. *)
Definition xavier (random : nat -> R) (rows cols : nat) (M : matrix) : Prop :=
  Forall (Forall (fun x => exists k,
                      x = (random k - 0.5) * 2 * sqrt (2 / INR (rows + cols)))) M.

(** A head as [initializeRandomWeights] builds it. *)
Definition random_head (random : nat -> R) (embedDim headDim : nat) (h : Head.t) : Prop :=
  (exists wq, Head.Wq h = Some wq /\ shape embedDim headDim wq /\
              xavier random embedDim headDim wq) /\
  (exists wk, Head.Wk h = Some wk /\ shape embedDim headDim wk /\
              xavier random embedDim headDim wk) /\
  (exists wv, Head.Wv h = Some wv /\ shape embedDim headDim wv /\
              xavier random embedDim headDim wv) /\
  (exists wo, Head.Wo h = Some wo /\ shape headDim embedDim wo /\
              xavier random headDim embedDim wo) /\
  Head.bq h = None /\ Head.bk h = None /\ Head.bv h = None.

(** The state a constructor leaves: no heads and no combined [Wo]. *)
Definition uninitialized (this : MHSA.t) : Prop :=
  MHSA.heads this = [] /\ MHSA.Wo this = None.

(** An error the code raises itself, with [throw new Error(...)], as
    an error of the specification's own ([NotInitialized],
    [MalformedWeights], [InvalidParameter]) would be; the [TypeError]
    of reading a property of [undefined] or [null] is the runtime's. *)
Definition raised_by_the_code (e : js_error) : Prop :=
  exists msg, e = Error msg.

Definition matrix_of (W : option matrix) : matrix :=
  match W with
  | Some w => w
  | None => []
  end.

(** The number of entries of the three input projections of a head. *)
Definition head_entries (h : Head.t) : nat :=
  (entries (matrix_of (Head.Wq h)) + entries (matrix_of (Head.Wk h))
   + entries (matrix_of (Head.Wv h)))%nat.

(** The number of entries of the weight matrices [forward] multiplies
    by: [Wq], [Wk], [Wv] of every head and either every head's [Wo] or
    the combined one. *)
Definition forward_weights (this : MHSA.t) : nat :=
  (fold_right (fun h n => head_entries h + n) 0 (MHSA.heads this)
   + (if every_head_has_Wo this
      then fold_right (fun h n => entries (matrix_of (Head.Wo h)) + n) 0 (MHSA.heads this)
      else entries (matrix_of (MHSA.Wo this))))%nat.

(** [project(X, W, b)]: [X . W], plus [b] on every row when present. *)
Definition project (X : matrix) (W : option matrix) (b : option (list R)) : matrix :=
  match b with
  | Some b' => add_to_rows b' (mmul X (matrix_of W))
  | None => mmul X (matrix_of W)
  end.

(** Scaled dot-product attention of one head: post-scale scores,
    attention weights, output. *)
Definition head_scores (this : MHSA.t) (Q K : matrix) : matrix :=
  map (fun row => map (fun v => v / sqrt (INR (MHSA.headDim this))) row)
      (mmul Q (mtranspose K)).

Definition head_result (this : MHSA.t) (X : matrix) (h : Head.t) : HeadOutput.t :=
  let Q := project X (Head.Wq h) (Head.bq h) in
  let K := project X (Head.Wk h) (Head.bk h) in
  let V := project X (Head.Wv h) (Head.bv h) in
  let scores := head_scores this Q K in
  let weights := softmaxRows scores (MHSA.temperature this) in
  HeadOutput.mk Q K V (mmul weights V) weights scores
                (Head.Wq h) (Head.Wk h) (Head.Wv h) (Head.Wo h).

(** The same trace as the earlier revision records it, without the
    weights. *)
Definition legacy_head_result (this : MHSA.t) (X : matrix) (h : Head.t) : HeadOutput.t :=
  let r := head_result this X h in
  HeadOutput.mk (HeadOutput.Q r) (HeadOutput.K r) (HeadOutput.V r)
                (HeadOutput.output r) (HeadOutput.attentionWeights r)
                (HeadOutput.scores r) None None None None.

Definition no_bias (h : Head.t) : Prop :=
  Head.bq h = None /\ Head.bk h = None /\ Head.bv h = None.

(** [headOutput . headWo] for a head that has a [Wo]. *)
Definition head_projected (this : MHSA.t) (X : matrix) (h : Head.t) : option matrix :=
  match Head.Wo h with
  | Some wo => Some (mmul (HeadOutput.output (head_result this X h)) wo)
  | None => None
  end.

(** The elements that are there, in order. *)
Fixpoint collect {A : Type} (l : list (option A)) : list A :=
  match l with
  | [] => []
  | Some x :: r => x :: collect r
  | None :: r => collect r
  end.

Definition projected_outputs (this : MHSA.t) (X : matrix) : list matrix :=
  collect (map (head_projected this X) (MHSA.heads this)).

Definition head_outputs (this : MHSA.t) (X : matrix) : list matrix :=
  map (fun h => HeadOutput.output (head_result this X h)) (MHSA.heads this).

(** Project-then-sum: every head's [headOutput . headWo], summed
    elementwise, plus [bo] on every row when present. *)
Definition project_then_sum (this : MHSA.t) (outs : list matrix) : matrix :=
  let contributions :=
    map (fun p => mmul (fst p) (matrix_of (Head.Wo (snd p))))
        (combine outs (MHSA.heads this)) in
  match MHSA.bo this with
  | Some b => add_to_rows b (msum contributions)
  | None => msum contributions
  end.

(** Concatenate-then-project: the head outputs side by side, times the
    combined [Wo]. *)
Definition concat_then_project (this : MHSA.t) (seqLen : nat) (outs : list matrix)
  : matrix :=
  mmul (hconcat seqLen outs) (matrix_of (MHSA.Wo this)).

Definition merge (this : MHSA.t) (seqLen : nat) (outs : list matrix) : matrix :=
  if every_head_has_Wo this
  then project_then_sum this outs
  else concat_then_project this seqLen outs.

(** Weight files the specification calls malformed: [heads] absent,
    empty, or with a head that lacks [Wq], [Wk] or [Wv]. *)
Definition lacks_projection (h : Head.t) : Prop :=
  Head.Wq h = None \/ Head.Wk h = None \/ Head.Wv h = None.

Definition heads_absent (weights : option Weights.t) : Prop :=
  weights = None \/ exists w, weights = Some w /\ Weights.heads w = None.

Definition heads_empty (weights : option Weights.t) : Prop :=
  exists w, weights = Some w /\ Weights.heads w = Some [].

Definition some_head_lacks_projection (weights : option Weights.t) : Prop :=
  exists w hs, weights = Some w /\ Weights.heads w = Some hs /\
               Exists lacks_projection hs.

Definition malformed (weights : option Weights.t) : Prop :=
  heads_absent weights \/ heads_empty weights \/ some_head_lacks_projection weights.

(** Two weight files for the same heads, given by their [Wq], [Wk],
    [Wv] and output projection, without biases: the legacy one carries
    the output projections stacked into one combined [Wo], the per-head
    one carries them on the heads. *)
Definition head_matrices : Type := (matrix * matrix * matrix * matrix)%type.

Definition legacy_head (m : head_matrices) : Head.t :=
  let '(q, k, v, _) := m in
  Head.mk (Some q) (Some k) (Some v) None None None None.

Definition per_head_head (m : head_matrices) : Head.t :=
  let '(q, k, v, o) := m in
  Head.mk (Some q) (Some k) (Some v) (Some o) None None None.

Definition legacy_weights (ms : list head_matrices) : Weights.t :=
  Weights.mk (Some (map legacy_head ms)) (Some (vstack (map snd ms)))
             None None None None.

Definition per_head_weights (ms : list head_matrices) : Weights.t :=
  Weights.mk (Some (map per_head_head ms)) None None None None None.

Definition matrices_ok (embedDim headDim : nat) (m : head_matrices) : Prop :=
  let '(q, k, v, o) := m in
  shape embedDim headDim q /\ shape embedDim headDim k /\
  shape embedDim headDim v /\ shape headDim embedDim o.

(** What [forward] returns on an initialized engine: the trace of every
    head, the concatenated head outputs, and the merged output. *)
Definition forward_result (this : MHSA.t) (X : matrix) : Result.t :=
  let hos := map (head_result this X) (MHSA.heads this) in
  let P := projected_outputs this X in
  Result.mk (merge this (length X) (head_outputs this X))
            hos
            (map HeadOutput.attentionWeights hos)
            (hconcat (length X) (head_outputs this X))
            (match P with
             | [] => None
             | _ :: _ => Some P
             end).

End Spec.

(* ------------------------------------------------------------------ *)
(** ** Small engines and weight files to run the model on *)

Module Example.

Definition X : matrix := [[1; 0]; [0; 1]; [1; 1]].

(** Two heads of width 1 on embeddings of width 2. *)
Definition head_a (wo : option matrix) : Head.t :=
  Head.mk (Some [[1]; [0]]) (Some [[1]; [0]]) (Some [[1]; [0]]) wo None None None.

Definition head_b (wo : option matrix) : Head.t :=
  Head.mk (Some [[0]; [1]]) (Some [[0]; [1]]) (Some [[0]; [1]]) wo None None None.

Definition per_head_engine : MHSA.t :=
  MHSA.mk 2 2 1 1 [head_a (Some [[1; 0]]); head_b (Some [[0; 1]])]
          None (Some [1; 1]) true (Some "example"%string) false.

Definition combined_engine : MHSA.t :=
  MHSA.mk 2 2 1 1 [head_a None; head_b None]
          (Some [[1; 0]; [0; 1]]) None true (Some "example"%string) false.

(** The state [new MultiHeadSelfAttention(2, 2, 1)] is in. *)
Definition fresh_engine : MHSA.t :=
  MHSA.mk 2 2 1 1 [] None None false None false.

(** A weight file in the per-head format whose second head has no
    [Wo]. *)
Definition partial_per_head_weights : Weights.t :=
  Weights.mk (Some [head_a (Some [[1; 0]]); head_b None]) None None None None None.

(** The state [loadPreExtractedWeights] leaves [fresh_engine] in on
    [partial_per_head_weights]. *)
Definition partial_per_head_engine : MHSA.t :=
  MHSA.mk 2 2 1 1 [head_a (Some [[1; 0]]); head_b None]
          None None true (Some "Pre-extracted Model"%string) false.

(** A weight file in the per-head format with [config.num_heads = 1]
    and two heads, the second without [Wo], and the state
    [loadPreExtractedWeights] leaves [fresh_engine] in on it. *)
Definition one_of_two_weights : Weights.t :=
  Weights.mk (Some [head_a (Some [[1; 0]]); head_b None]) None None
             (Some (Weights.mkConfig (Some 1%nat) None None)) None None.

Definition one_of_two_engine : MHSA.t :=
  MHSA.mk 2 1 1 1 [head_a (Some [[1; 0]]); head_b None]
          None None true (Some "Pre-extracted Model"%string) false.

(** Weight files whose only head has no [Wk] and no [Wv]: one in the
    per-head format, one in the legacy format. *)
Definition head_without_Wk_Wv : Head.t :=
  Head.mk (Some [[1]; [0]]) None None (Some [[1; 0]]) None None None.

Definition lacking_per_head_weights : Weights.t :=
  Weights.mk (Some [head_without_Wk_Wv]) None None None None None.

Definition lacking_legacy_weights : Weights.t :=
  Weights.mk (Some [head_without_Wk_Wv]) (Some [[1; 0]]) None None None None.

(** The state the constructor of the earlier revision leaves. *)
Definition fresh_legacy_engine : Legacy.t :=
  Legacy.mk 2 2 1 1 [] None false None.

(** The matrices of the two heads of [per_head_engine]. *)
Definition two_heads : list Spec.head_matrices :=
  [([[1]; [0]], [[1]; [0]], [[1]; [0]], [[1; 0]]);
   ([[0]; [1]], [[0]; [1]], [[0]; [1]], [[0; 1]])].

End Example.

(* ------------------------------------------------------------------ *)
(** ** Loops that stay inside the model *)

Section Loops.
Context {A B : Type}.

Lemma mapM_pure (f : A -> outcome B) (g : A -> B) (l : list A) :
  (forall x, In x l -> f x = Returns (g x)) ->
  mapM f l = Returns (map g l).
Proof.
  induction l as [|x r IH]; intros Hf; simpl.
  - reflexivity.
  - rewrite (Hf x (or_introl eq_refl)); simpl.
    rewrite IH by (intros y Hy; apply Hf; now right).
    reflexivity.
Qed.

Lemma mapM_never_throws (f : A -> outcome B) (l : list A) :
  (forall x e, f x <> Throws e) -> forall e, mapM f l <> Throws e.
Proof.
  intros Hf; induction l as [|x r IH]; intros e; simpl.
  - discriminate.
  - destruct (f x) eqn:Hx; simpl.
    + destruct (mapM f r) eqn:Hr; simpl; try discriminate.
      intros _. first [exact (IH _ eq_refl) | exact (IH _ Hr)].
    + now apply Hf in Hx.
    + discriminate.
Qed.

Lemma foldM_ext {S : Type} (f f' : S -> A -> outcome S) (l : list A) (s : S) :
  (forall s x, In x l -> f s x = f' s x) -> foldM f l s = foldM f' l s.
Proof.
  revert s; induction l as [|x r IH]; intros s Hf; simpl.
  - reflexivity.
  - rewrite (Hf s x (or_introl eq_refl)).
    destruct (f' s x); simpl; try reflexivity.
    apply IH. intros s' y Hy. apply Hf. now right.
Qed.

End Loops.

(** A loop over the indices of a list that reads the element at each
    index is a loop over the list. *)
Lemma foldM_indices {A St : Type} (g : St -> A -> outcome St) (l : list A) :
  forall (start : nat) (pre : list A) (s : St),
    length pre = start ->
    foldM (fun s k => x <- deref (nth_error (pre ++ l) k) ;; g s x)
          (seq start (length l)) s
    = foldM g l s.
Proof.
  induction l as [|x r IH]; intros start pre s Hpre; simpl.
  - reflexivity.
  - rewrite nth_error_app2 by lia.
    replace (start - length pre)%nat with O by lia. simpl.
    destruct (g s x) as [s'| |]; simpl; try reflexivity.
    specialize (IH (S start) (pre ++ [x]) s').
    rewrite <- app_assoc in IH. simpl in IH.
    apply IH. rewrite length_app. simpl. lia.
Qed.

(* ------------------------------------------------------------------ *)
(** ** Sums of rows *)

Import Linalg.

Lemma fold_left_Rplus_acc (l : list R) (a : R) :
  fold_left Rplus l a = a + fold_left Rplus l 0.
Proof.
  revert a; induction l as [|x r IH]; intros a; simpl.
  - lra.
  - rewrite IH. rewrite (IH (0 + x)). lra.
Qed.

Lemma row_sum_cons (x : R) (l : list R) : row_sum (x :: l) = x + row_sum l.
Proof.
  unfold row_sum. simpl. rewrite fold_left_Rplus_acc. lra.
Qed.

Lemma row_sum_nonneg (l : list R) :
  Forall (fun x => 0 < x) l -> 0 <= row_sum l.
Proof.
  induction 1 as [|x r Hx _ IH].
  - unfold row_sum; simpl; lra.
  - rewrite row_sum_cons. lra.
Qed.

Lemma row_sum_pos (l : list R) :
  Forall (fun x => 0 < x) l -> l <> [] -> 0 < row_sum l.
Proof.
  intros Hl Hne. destruct Hl as [|x r Hx Hr]; [congruence|].
  rewrite row_sum_cons. pose proof (row_sum_nonneg Hr). lra.
Qed.

Lemma row_sum_bounds_entry (l : list R) :
  Forall (fun x => 0 < x) l -> forall x, In x l -> x <= row_sum l.
Proof.
  induction 1 as [|y r Hy Hr IH]; intros x Hin.
  - destruct Hin.
  - rewrite row_sum_cons. pose proof (row_sum_nonneg Hr).
    destruct Hin as [->|Hin]; [lra|]. specialize (IH x Hin). lra.
Qed.

Lemma row_sum_map_div (l : list R) (s : R) :
  row_sum (map (fun x => x / s) l) = row_sum l / s.
Proof.
  induction l as [|x r IH]; simpl.
  - unfold row_sum; simpl. unfold Rdiv. lra.
  - rewrite !row_sum_cons, IH. unfold Rdiv. lra.
Qed.

(* ------------------------------------------------------------------ *)
(** ** [softmax] *)

Lemma div_nonzero (a b : R) : b <> 0 -> div a b = Returns (a / b).
Proof.
  intros Hb. unfold div. destruct (Req_dec_T b 0); [contradiction|reflexivity].
Qed.

Lemma div_never_throws (a b : R) (e : js_error) : div a b <> Throws e.
Proof.
  unfold div. destruct (Req_dec_T b 0); discriminate.
Qed.

Lemma exps_positive (f : R -> R) (row : list R) :
  Forall (fun x => 0 < x) (map (fun s => exp (f s)) row).
Proof.
  induction row; simpl; constructor; auto using exp_pos.
Qed.

Lemma MAX_VALUE_large : 4294967296 <= MAX_VALUE.
Proof.
  unfold MAX_VALUE. apply IZR_le. apply Z.leb_le. vm_compute. reflexivity.
Qed.

Lemma finite_in_range (x : R) : Rabs x <= MAX_VALUE -> finite x = Returns x.
Proof.
  intros H. unfold finite. destruct (Rlt_dec MAX_VALUE (Rabs x)); [lra|reflexivity].
Qed.

Lemma finite_never_throws (x : R) (e : js_error) : finite x <> Throws e.
Proof.
  unfold finite. destruct (Rlt_dec MAX_VALUE (Rabs x)); discriminate.
Qed.

Lemma foldM_never_throws {A St : Type} (f : St -> A -> outcome St) (l : list A) :
  (forall s x e, f s x <> Throws e) ->
  forall s e, foldM f l s <> Throws e.
Proof.
  intros Hf. induction l as [|x l IH]; intros s e; cbn [foldM]; [discriminate|].
  destruct (f s x) as [s'|e'|] eqn:E; cbn [bind]; try discriminate.
  - apply IH.
  - exfalso. exact (Hf s x e' E).
Qed.

Lemma fold_left_Rmax_ge (rest : list R) :
  forall a, a <= fold_left Rmax rest a /\
            Forall (fun x => x <= fold_left Rmax rest a) rest.
Proof.
  induction rest as [|y rest IH]; intros a; cbn [fold_left].
  - split; [lra|constructor].
  - destruct (IH (Rmax a y)) as [H1 H2].
    pose proof (Rmax_l a y). pose proof (Rmax_r a y).
    split; [lra|]. constructor; [lra|assumption].
Qed.

Lemma row_max_ge (row : list R) :
  Forall (fun s => s <= row_max row) row.
Proof.
  destruct row as [|s0 rest]; [constructor|].
  unfold row_max. cbn [hd tl].
  destruct (fold_left_Rmax_ge rest s0) as [H1 H2]. now constructor.
Qed.

Lemma sum_loop_in_range (l : list R) :
  Forall (fun x => 0 < x) l ->
  forall acc, 0 <= acc -> acc + row_sum l <= MAX_VALUE ->
         foldM (fun a b => finite (a + b)) l acc = Returns (fold_left Rplus l acc).
Proof.
  induction 1 as [|x l Hx Hall IH]; intros acc Hacc Hle; [reflexivity|].
  cbn [foldM fold_left]. rewrite row_sum_cons in Hle.
  pose proof (row_sum_nonneg Hall) as Hl.
  rewrite finite_in_range by (rewrite Rabs_pos_eq; lra).
  cbn [bind]. apply IH; lra.
Qed.

Lemma reduce_sum_returns (l : list R) :
  Forall (fun x => 0 < x) l ->
  ((Z.of_nat (length l) < 2 ^ 32)%Z -> row_sum l <= MAX_VALUE) ->
  MathUtils.reduce_sum l = Returns (row_sum l).
Proof.
  intros Hall Hle. unfold MathUtils.reduce_sum.
  destruct (Z.ltb_spec (Z.of_nat (length l)) (2 ^ 32)) as [Hlen|_]; [|reflexivity].
  apply sum_loop_in_range; [assumption|lra|]. specialize (Hle Hlen). lra.
Qed.

Lemma row_sum_le_length (l : list R) :
  Forall (fun x => x <= 1) l -> row_sum l <= INR (length l).
Proof.
  induction 1 as [|x l Hx _ IH].
  - unfold row_sum. simpl. lra.
  - rewrite row_sum_cons. change (length (x :: l)) with (S (length l)).
    rewrite S_INR. lra.
Qed.

Lemma array_length_in_range (n : nat) :
  (Z.of_nat n < 2 ^ 32)%Z -> INR n <= MAX_VALUE.
Proof.
  intros H. rewrite INR_IZR_INZ.
  apply Rle_trans with 4294967296; [|exact MAX_VALUE_large].
  apply IZR_le. change (2 ^ 32)%Z with 4294967296%Z in H. lia.
Qed.

(** The exponentials of a row, as [softmax] takes them. *)
Lemma softmax_row_returns_in_range (row : list R) (T : R) :
  T <> 0 ->
  let e := map (fun s => exp ((s - row_max row) / T)) row in
  Forall (fun x => x <= MAX_VALUE) e ->
  ((Z.of_nat (length row) < 2 ^ 32)%Z -> row_sum e <= MAX_VALUE) ->
  MathUtils.softmax_row row T = Returns (softmax_row_spec T row).
Proof.
  intros HT e Hexp Hsum. destruct row as [|s0 rest]; [reflexivity|].
  unfold MathUtils.softmax_row, softmax_row_spec.
  change (fold_left Rmax rest s0) with (row_max (s0 :: rest)).
  set (m := row_max (s0 :: rest)) in *.
  rewrite (mapM_pure _ (fun s => exp ((s - m) / T))).
  2:{ intros x Hx. rewrite div_nonzero by assumption. cbn [bind].
      apply finite_in_range. rewrite Rabs_pos_eq by (apply Rlt_le, exp_pos).
      rewrite Forall_forall in Hexp. apply Hexp. unfold e.
      apply in_map_iff. now exists x. }
  cbn [bind]. fold e.
  assert (Hall : Forall (fun x => 0 < x) e) by apply exps_positive.
  assert (Hpos : 0 < row_sum e).
  { apply row_sum_pos; [assumption | discriminate]. }
  rewrite reduce_sum_returns; [|assumption|].
  2:{ unfold e at 1. rewrite length_map. exact Hsum. }
  cbn [bind]. apply mapM_pure. intros x _. apply div_nonzero. lra.
Qed.

Lemma softmax_row_returns (row : list R) (T : R) :
  0 < T -> MathUtils.softmax_row row T = Returns (softmax_row_spec T row).
Proof.
  intros HT.
  assert (Hle1 : Forall (fun x => x <= 1)
                        (map (fun s => exp ((s - row_max row) / T)) row)).
  { apply Forall_map. eapply Forall_impl; [|apply row_max_ge].
    cbn beta. intros s Hs.
    assert (Hq : (s - row_max row) / T <= 0).
    { unfold Rdiv. pose proof (Rinv_0_lt_compat T HT). nra. }
    rewrite <- exp_0. destruct Hq as [Hq|Hq].
    - apply Rlt_le. now apply exp_increasing.
    - rewrite Hq. lra. }
  pose proof MAX_VALUE_large as Hbig.
  apply softmax_row_returns_in_range.
  - lra.
  - eapply Forall_impl; [|exact Hle1]. cbn beta. intros x Hx. lra.
  - intros Hlen. apply Rle_trans with (INR (length row)).
    + rewrite <- (length_map (fun s => exp ((s - row_max row) / T)) row).
      now apply row_sum_le_length.
    + now apply array_length_in_range.
Qed.

Lemma softmax_returns (S : matrix) (T : R) :
  0 < T -> MathUtils.softmax S T = Returns (softmaxRows S T).
Proof.
  intros HT. unfold MathUtils.softmax, softmaxRows.
  apply mapM_pure. intros row _. now apply softmax_row_returns.
Qed.

Lemma softmax_row_never_throws (row : list R) (T : R) (e : js_error) :
  MathUtils.softmax_row row T <> Throws e.
Proof.
  destruct row as [|s0 rest]; [discriminate|].
  unfold MathUtils.softmax_row.
  set (m := fold_left Rmax rest s0).
  destruct (mapM _ (s0 :: rest)) as [es|e'|] eqn:Hm; cbn [bind]; try discriminate.
  - destruct (MathUtils.reduce_sum es) as [sumExp|e'|] eqn:Hs; cbn [bind];
      try discriminate.
    + apply mapM_never_throws. intros; apply div_never_throws.
    + exfalso. revert Hs. unfold MathUtils.reduce_sum.
      destruct (Z.ltb _ _); [|discriminate].
      apply foldM_never_throws. intros; apply finite_never_throws.
  - exfalso. revert Hm. apply mapM_never_throws.
    intros x e0. destruct (div (x - m) T) eqn:Hd; simpl; try discriminate.
    + apply finite_never_throws.
    + now apply div_never_throws in Hd.
Qed.

Lemma softmax_row_spec_normalised (T : R) (row : list R) :
  row <> [] ->
  row_sum (softmax_row_spec T row) = 1 /\
  Forall (fun x => 0 <= x <= 1) (softmax_row_spec T row).
Proof.
  intros Hne. unfold softmax_row_spec.
  set (e := map (fun s => exp ((s - row_max row) / T)) row).
  assert (Hall : Forall (fun x => 0 < x) e) by apply exps_positive.
  assert (Hpos : 0 < row_sum e).
  { apply row_sum_pos; [assumption|]. unfold e. destruct row; [congruence|discriminate]. }
  split.
  - rewrite row_sum_map_div. field. lra.
  - apply Forall_forall. intros y Hy. apply in_map_iff in Hy as (x & <- & Hx).
    pose proof (row_sum_bounds_entry Hall x Hx) as Hle.
    assert (0 < x) by (rewrite Forall_forall in Hall; auto).
    split.
    + apply Rlt_le. apply Rdiv_lt_0_compat; assumption.
    + apply Rmult_le_reg_r with (row_sum e); [assumption|].
      replace (x / row_sum e * row_sum e) with x by (field; lra). lra.
Qed.

Lemma fold_left_Rmax_shift (c : R) (rest : list R) (s0 : R) :
  fold_left Rmax (map (fun s => s + c) rest) (s0 + c) = fold_left Rmax rest s0 + c.
Proof.
  revert s0; induction rest as [|x r IH]; intros s0; simpl.
  - reflexivity.
  - rewrite <- IH. f_equal.
    unfold Rmax. destruct (Rle_dec (s0 + c) (x + c)), (Rle_dec s0 x); lra.
Qed.

Lemma softmax_row_spec_shift (T c : R) (row : list R) :
  softmax_row_spec T (map (fun s => s + c) row) = softmax_row_spec T row.
Proof.
  destruct row as [|s0 rest]; [reflexivity|].
  assert (Hm : row_max (map (fun s => s + c) (s0 :: rest)) = row_max (s0 :: rest) + c).
  { unfold row_max. simpl. apply fold_left_Rmax_shift. }
  unfold softmax_row_spec. rewrite Hm.
  set (m := row_max (s0 :: rest)).
  assert (He : map (fun s => exp ((s - (m + c)) / T)) (map (fun s => s + c) (s0 :: rest))
               = map (fun s => exp ((s - m) / T)) (s0 :: rest)).
  { rewrite map_map. apply map_ext. intros x. f_equal. f_equal. lra. }
  rewrite He. reflexivity.
Qed.

Lemma map_update {A B : Type} (f : A -> B) (i : nat) (v : A) (l : list A) :
  map f (update i v l) = update i (f v) (map f l).
Proof.
  revert i; induction l as [|x r IH]; intros [|i]; simpl; try reflexivity.
  now rewrite IH.
Qed.

Lemma update_same {A : Type} (i : nat) (v : A) (l : list A) :
  nth_error l i = Some v -> update i v l = l.
Proof.
  revert i; induction l as [|x r IH]; intros [|i]; simpl; try discriminate.
  - now intros [= ->].
  - intros H. now rewrite IH.
Qed.

Lemma softmaxRows_shift_row (S : matrix) (T c : R) (i : nat) :
  softmaxRows (shift_row i c S) T = softmaxRows S T.
Proof.
  unfold shift_row, softmaxRows.
  destruct (nth_error S i) as [row|] eqn:Hi; [|reflexivity].
  rewrite map_update, softmax_row_spec_shift.
  apply update_same. now apply map_nth_error.
Qed.

(* ------------------------------------------------------------------ *)
(** ** Shapes *)

Lemma shape_row (r c : nat) (M : matrix) (row : list R) :
  shape r c M -> In row M -> length row = c.
Proof.
  intros [_ H] Hin. rewrite Forall_forall in H. auto.
Qed.

Lemma shape_nth_error (r c : nat) (M : matrix) (i : nat) (row : list R) :
  shape r c M -> nth_error M i = Some row -> length row = c.
Proof.
  intros H Hi. eapply shape_row; eauto using nth_error_In.
Qed.

Lemma shape_width (r c : nat) (M : matrix) :
  shape r c M -> (1 <= r)%nat -> width M = c.
Proof.
  intros [Hl H] Hr. destruct M as [|row M]; simpl in *; [lia|].
  now inversion H.
Qed.

Lemma shape_map_rows (r c c' : nat) (f : list R -> list R) (M : matrix) :
  shape r c M -> (forall row, length row = c -> length (f row) = c') ->
  shape r c' (map f M).
Proof.
  intros [Hl H] Hf. split.
  - now rewrite length_map.
  - apply Forall_map. eapply Forall_impl; [|exact H]. simpl. auto.
Qed.

Lemma length_vadd (a b : list R) :
  length a = length b -> length (vadd a b) = length a.
Proof.
  intros H. unfold vadd. rewrite length_map, length_combine. lia.
Qed.

Lemma shape_madd (r c : nat) (A B : matrix) :
  shape r c A -> shape r c B -> shape r c (madd A B).
Proof.
  intros [HA FA] [HB FB]. split.
  - unfold madd. rewrite length_map, length_combine. lia.
  - unfold madd. apply Forall_forall. intros x Hx.
    apply in_map_iff in Hx as ([a b] & <- & Hin). simpl.
    rewrite Forall_forall in FA, FB.
    pose proof (in_combine_l _ _ _ _ Hin) as Ha.
    pose proof (in_combine_r _ _ _ _ Hin) as Hb.
    rewrite length_vadd; rewrite (FA a Ha); [reflexivity|]. now rewrite (FB b Hb).
Qed.

Lemma shape_add_to_rows (r c : nat) (b : list R) (M : matrix) :
  shape r c M -> length b = c -> shape r c (add_to_rows b M).
Proof.
  intros H Hb. unfold add_to_rows. eapply shape_map_rows; [exact H|].
  intros row Hrow. rewrite length_vadd; lia.
Qed.

Lemma shape_mmul (r k c : nat) (A B : matrix) :
  shape r k A -> shape k c B -> (1 <= k)%nat -> shape r c (mmul A B).
Proof.
  intros HA HB Hk. unfold mmul. destruct HA as [HlA _]. split.
  - now rewrite length_map.
  - apply Forall_map, Forall_forall. intros a _.
    rewrite length_map, length_seq. eapply shape_width; eauto.
Qed.

Lemma shape_mtranspose (r c : nat) (A : matrix) :
  shape r c A -> (1 <= r)%nat -> shape c r (mtranspose A).
Proof.
  intros HA Hr. unfold mtranspose. rewrite (shape_width HA Hr). split.
  - now rewrite length_map, length_seq.
  - apply Forall_map, Forall_forall. intros j _.
    unfold column. rewrite length_map. apply HA.
Qed.

Lemma length_softmax_row_spec (T : R) (row : list R) :
  length (softmax_row_spec T row) = length row.
Proof.
  unfold softmax_row_spec. now rewrite !length_map.
Qed.

Lemma shape_softmaxRows (r c : nat) (S : matrix) (T : R) :
  shape r c S -> shape r c (softmaxRows S T).
Proof.
  intros H. unfold softmaxRows. eapply shape_map_rows; [exact H|].
  intros row Hrow. now rewrite length_softmax_row_spec.
Qed.

(* ------------------------------------------------------------------ *)
(** ** [matmul] and [transpose] on well-shaped matrices *)

Lemma matmul_cell_from (j : nat) (As : list R) :
  forall (Bs : matrix) (preA : list R) (preB : matrix) (acc : R),
    length preA = length preB ->
    length As = length Bs ->
    Forall (fun r => (j < length r)%nat) Bs ->
    foldM (fun sum k =>
             Bk <- deref (nth_error (preB ++ Bs) k) ;;
             a <- num (nth_error (preA ++ As) k) ;;
             b <- num (nth_error Bk j) ;;
             Returns (sum + a * b))
          (seq (length preA) (length As)) acc
    = Returns (fold_left (fun s p => s + fst p * snd p) (combine As (column Bs j)) acc).
Proof.
  induction As as [|a As IH]; intros [|b Bs] preA preB acc Hpre Hlen HB;
    simpl in Hlen; try discriminate; [reflexivity|].
  cbn [length seq foldM].
  rewrite Hpre at 1. rewrite !nth_error_app2 by lia.
  rewrite Hpre, Nat.sub_diag. cbn [nth_error deref num bind].
  inversion HB as [|? ? Hb HBs]; subst.
  destruct (nth_error b j) as [y|] eqn:Hy.
  2:{ apply nth_error_None in Hy. lia. }
  cbn [num bind].
  specialize (IH Bs (preA ++ [a]) (preB ++ [b]) (acc + a * y)).
  rewrite <- !app_assoc in IH. cbn [app] in IH.
  rewrite !length_app in IH. cbn [length] in IH.
  replace (length preA + 1)%nat with (S (length preA)) in IH by lia.
  rewrite <- Hpre.
  rewrite IH; [|lia|lia|assumption].
  cbn [column map combine fold_left fst snd].
  rewrite (nth_error_nth _ _ 0 Hy). reflexivity.
Qed.

Lemma matmul_cell_returns (Ai : list R) (B : matrix) (j : nat) :
  length Ai = length B ->
  Forall (fun r => (j < length r)%nat) B ->
  MathUtils.matmul_cell Ai B (length Ai) j = Returns (dot Ai (column B j)).
Proof.
  intros Hlen HB. unfold MathUtils.matmul_cell, dot.
  apply (@matmul_cell_from j Ai B [] [] 0); auto.
Qed.

Lemma matmul_returns (r k c : nat) (A B : matrix) :
  shape r k A -> shape k c B -> (1 <= r)%nat -> (1 <= k)%nat ->
  MathUtils.matmul A B = Returns (mmul A B).
Proof.
  intros HA HB Hr Hk.
  pose proof (shape_width HB Hk) as Hw.
  destruct A as [|A0 A']; [destruct HA; simpl in *; lia|].
  destruct B as [|B0 B']; [destruct HB; simpl in *; lia|].
  unfold MathUtils.matmul, mmul. rewrite Hw.
  assert (HB0 : length B0 = c) by (eapply shape_row; [exact HB|now left]).
  assert (HA0 : length A0 = k) by (eapply shape_row; [exact HA|now left]).
  rewrite HB0, HA0.
  apply mapM_pure. intros Ai HAi.
  assert (HlAi : length Ai = k) by (eapply shape_row; eauto).
  apply mapM_pure. intros j Hj. apply in_seq in Hj.
  rewrite <- HlAi. apply matmul_cell_returns.
  - destruct HB as [HlB _]. lia.
  - destruct HB as [_ HB]. eapply Forall_impl; [|exact HB]. simpl. lia.
Qed.

Lemma transpose_returns (r c : nat) (A : matrix) :
  shape r c A -> (1 <= r)%nat ->
  MathUtils.transpose A = Returns (mtranspose A).
Proof.
  intros HA Hr. pose proof (shape_width HA Hr) as Hw.
  destruct A as [|A0 A']; [destruct HA; simpl in *; lia|].
  unfold MathUtils.transpose, mtranspose. rewrite Hw.
  assert (HA0 : length A0 = c) by (eapply shape_row; [exact HA|now left]).
  rewrite HA0. apply mapM_pure. intros j Hj. apply in_seq in Hj.
  unfold column. apply mapM_pure. intros Ai HAi.
  assert (HlAi : length Ai = c) by (eapply shape_row; eauto).
  destruct (nth_error Ai j) as [y|] eqn:Hy.
  - now rewrite (nth_error_nth _ _ 0 Hy).
  - apply nth_error_None in Hy. lia.
Qed.

(* ------------------------------------------------------------------ *)
(** ** One head *)

Import Spec.

Lemma add_bias_row_from (row : list R) :
  forall (b bpre : list R),
    (length row <= length b)%nat ->
    mapM (fun jx => bj <- num (nth_error (bpre ++ b) (fst jx)) ;; Returns (snd jx + bj))
         (combine (seq (length bpre) (length row)) row)
    = Returns (vadd row b).
Proof.
  induction row as [|x row IH]; intros [|y b] bpre Hlen; simpl in Hlen;
    try lia; try reflexivity.
  cbn [length seq combine mapM fst snd].
  rewrite nth_error_app2 by lia. rewrite Nat.sub_diag. cbn [nth_error num bind].
  specialize (IH b (bpre ++ [y])).
  rewrite <- app_assoc, length_app in IH. cbn [app length] in IH.
  replace (length bpre + 1)%nat with (S (length bpre)) in IH by lia.
  rewrite IH by lia. reflexivity.
Qed.

Lemma add_bias_row_returns (b row : list R) :
  (length row <= length b)%nat ->
  MHSA.add_bias_row b row = Returns (vadd row b).
Proof.
  intros H. unfold MHSA.add_bias_row. now apply (@add_bias_row_from row b []).
Qed.

Lemma linearProjection_returns (s ed hd : nat) (X w : matrix) (b : option (list R)) :
  shape s ed X -> shape ed hd w ->
  (1 <= s)%nat -> (1 <= ed)%nat -> (1 <= hd)%nat ->
  (forall b', b = Some b' -> length b' = hd) ->
  MHSA.linearProjection X (Some w) b = Returns (project X (Some w) b) /\
  shape s hd (project X (Some w) b).
Proof.
  intros HX Hw Hs Hed Hhd Hb.
  pose proof (shape_mmul HX Hw Hed) as Hshape.
  unfold MHSA.linearProjection, project. cbn [deref bind matrix_of].
  rewrite (matmul_returns HX Hw Hs Hed). cbn [bind].
  destruct b as [b'|]; [|now split].
  specialize (Hb b' eq_refl).
  destruct b' as [|y b']; [simpl in Hb; lia|].
  split.
  - apply mapM_pure. intros row Hrow. apply add_bias_row_returns.
    rewrite (@shape_row _ _ _ _ Hshape Hrow). lia.
  - now apply shape_add_to_rows.
Qed.

Lemma sqrt_headDim_nonzero (hd : nat) : (1 <= hd)%nat -> sqrt (INR hd) <> 0.
Proof.
  intros H. apply Rgt_not_eq. apply sqrt_lt_R0. apply lt_0_INR. lia.
Qed.

Lemma shape_head_scores (this : MHSA.t) (s : nat) (Q K : matrix) :
  shape s (MHSA.headDim this) Q -> shape s (MHSA.headDim this) K ->
  (1 <= s)%nat -> (1 <= MHSA.headDim this)%nat ->
  shape s s (head_scores this Q K).
Proof.
  intros HQ HK Hs Hhd. unfold head_scores.
  pose proof (shape_mtranspose HK Hs) as HKT.
  pose proof (shape_mmul HQ HKT Hhd) as Hm.
  eapply shape_map_rows; [exact Hm|].
  intros row Hrow. now rewrite length_map.
Qed.

Lemma scaledDotProductAttention_returns (this : MHSA.t) (s : nat) (Q K V : matrix) :
  shape s (MHSA.headDim this) Q ->
  shape s (MHSA.headDim this) K ->
  shape s (MHSA.headDim this) V ->
  (1 <= s)%nat -> (1 <= MHSA.headDim this)%nat -> 0 < MHSA.temperature this ->
  let scores := head_scores this Q K in
  let weights := softmaxRows scores (MHSA.temperature this) in
  MHSA.scaledDotProductAttention this Q K V = Returns (mmul weights V, weights, scores) /\
  shape s (MHSA.headDim this) (mmul weights V).
Proof.
  intros HQ HK HV Hs Hhd HT scores weights. subst scores weights.
  pose proof (shape_mtranspose HK Hs) as HKT.
  pose proof (shape_head_scores this HQ HK Hs Hhd) as Hsc.
  pose proof (shape_softmaxRows (MHSA.temperature this) Hsc) as Hws.
  unfold MHSA.scaledDotProductAttention.
  rewrite (transpose_returns HK Hs). cbn [bind].
  rewrite (matmul_returns HQ HKT Hs Hhd). cbn [bind].
  rewrite (mapM_pure _ (fun row => map (fun v => v / sqrt (INR (MHSA.headDim this))) row)).
  2:{ intros row _. apply mapM_pure. intros v _.
      apply div_nonzero. now apply sqrt_headDim_nonzero. }
  cbn [bind]. fold (head_scores this Q K).
  rewrite (softmax_returns (head_scores this Q K) HT). cbn [bind].
  rewrite (matmul_returns Hws HV Hs Hs). cbn [bind].
  split; [reflexivity|]. eapply shape_mmul; eauto.
Qed.

Lemma shape_head_output (this : MHSA.t) (s : nat) (X : matrix) (h : Head.t) :
  shape s (MHSA.embedDim this) X ->
  head_ok (MHSA.embedDim this) (MHSA.headDim this) h ->
  (1 <= s)%nat -> (1 <= MHSA.embedDim this)%nat -> (1 <= MHSA.headDim this)%nat ->
  shape s (MHSA.headDim this) (HeadOutput.output (head_result this X h)).
Proof.
  intros HX (Hq & Hk & Hv & _ & Hbq & Hbk & Hbv) Hs Hed Hhd.
  destruct Hq as (wq & Eq & Sq), Hk as (wk & Ek & Sk), Hv as (wv & Ev & Sv).
  unfold head_result. cbn [HeadOutput.output]. rewrite Eq, Ek, Ev.
  destruct (linearProjection_returns HX Sq Hs Hed Hhd Hbq) as [_ SQ].
  destruct (linearProjection_returns HX Sk Hs Hed Hhd Hbk) as [_ SK].
  destruct (linearProjection_returns HX Sv Hs Hed Hhd Hbv) as [_ SV].
  eapply shape_mmul; [|exact SV|exact Hs].
  apply shape_softmaxRows. now apply shape_head_scores.
Qed.

Lemma forward_head_returns (this : MHSA.t) (s : nat) (X : matrix) (h : Head.t) :
  shape s (MHSA.embedDim this) X ->
  head_ok (MHSA.embedDim this) (MHSA.headDim this) h ->
  (1 <= s)%nat -> (1 <= MHSA.embedDim this)%nat -> (1 <= MHSA.headDim this)%nat ->
  0 < MHSA.temperature this ->
  MHSA.forward_head this X h = Returns (head_result this X h, head_projected this X h).
Proof.
  intros HX Hok Hs Hed Hhd HT.
  pose proof (@shape_head_output this s X h HX Hok Hs Hed Hhd) as Hout.
  destruct Hok as (Hq & Hk & Hv & Hwo & Hbq & Hbk & Hbv).
  destruct Hq as (wq & Eq & Sq), Hk as (wk & Ek & Sk), Hv as (wv & Ev & Sv).
  unfold MHSA.forward_head, head_projected.
  unfold head_result in *. cbn [HeadOutput.output] in *.
  rewrite Eq, Ek, Ev in *.
  destruct (linearProjection_returns HX Sq Hs Hed Hhd Hbq) as [-> SQ].
  destruct (linearProjection_returns HX Sk Hs Hed Hhd Hbk) as [-> SK].
  destruct (linearProjection_returns HX Sv Hs Hed Hhd Hbv) as [-> SV].
  cbn [bind].
  destruct (scaledDotProductAttention_returns this SQ SK SV Hs Hhd HT) as [-> _].
  cbn [bind].
  destruct (Head.Wo h) as [wo|] eqn:Ewo; [|reflexivity].
  rewrite (matmul_returns Hout (Hwo wo eq_refl) Hs Hhd). reflexivity.
Qed.

(* ------------------------------------------------------------------ *)
(** ** Loops that update an array in place *)

Lemma update_app_middle {A : Type} (pre suf : list A) (x v : A) :
  update (length pre) v (pre ++ x :: suf) = pre ++ v :: suf.
Proof.
  induction pre as [|p pre IH]; simpl; [reflexivity|]. now rewrite IH.
Qed.

Lemma update_update {A : Type} (i : nat) (v w : A) (l : list A) :
  update i w (update i v l) = update i w l.
Proof.
  revert i; induction l as [|x r IH]; intros [|i]; simpl; try reflexivity.
  now rewrite IH.
Qed.

Lemma nth_error_update {A : Type} (i : nat) (v x : A) (l : list A) :
  nth_error l i = Some x -> nth_error (update i v l) i = Some v.
Proof.
  revert i; induction l as [|y r IH]; intros [|i]; simpl; try discriminate; auto.
Qed.

(** A loop over the cells [j] of row [i] of a matrix. *)
Lemma foldM_row_cells (step : matrix -> nat -> outcome matrix) (G : nat -> R -> R)
  (i n : nat) :
  (forall fo row j x,
      (j < n)%nat -> nth_error fo i = Some row -> nth_error row j = Some x ->
      step fo j = Returns (update i (update j (G j x) row) fo)) ->
  forall (suf pre : list R) (fo : matrix),
    (length pre + length suf <= n)%nat ->
    nth_error fo i = Some (pre ++ suf) ->
    foldM step (seq (length pre) (length suf)) fo
    = Returns (update i (pre ++ imap_from (length pre) G suf) fo).
Proof.
  intros Hstep. induction suf as [|x suf IH]; intros pre fo Hn Hfo.
  - simpl. now rewrite (update_same _ _ Hfo).
  - cbn [length seq foldM imap_from].
    assert (Hx : nth_error (pre ++ x :: suf) (length pre) = Some x).
    { rewrite nth_error_app2 by lia. now rewrite Nat.sub_diag. }
    simpl in Hn.
    rewrite (Hstep fo _ (length pre) x ltac:(lia) Hfo Hx). cbn [bind].
    rewrite update_app_middle.
    set (v := G (length pre) x).
    specialize (IH (pre ++ [v]) (update i (pre ++ v :: suf) fo)).
    rewrite length_app in IH. cbn [length] in IH.
    replace (length pre + 1)%nat with (S (length pre)) in IH by lia.
    rewrite IH.
    + rewrite update_update, <- app_assoc. reflexivity.
    + lia.
    + rewrite <- app_assoc. cbn [app]. eapply nth_error_update; eauto.
Qed.

(** A loop over the rows [k] of an array that replaces each by [G k] of
    it. *)
Lemma foldM_rows {A : Type} (step : list A -> nat -> outcome (list A))
  (G : nat -> A -> A) (Good : A -> Prop) (n : nat) :
  (forall l k x,
      (k < n)%nat -> nth_error l k = Some x -> Good x ->
      step l k = Returns (update k (G k x) l)) ->
  forall (suf pre : list A),
    (length pre + length suf <= n)%nat ->
    Forall Good suf ->
    foldM step (seq (length pre) (length suf)) (pre ++ suf)
    = Returns (pre ++ imap_from (length pre) G suf).
Proof.
  intros Hstep. induction suf as [|x suf IH]; intros pre Hn Hgood.
  - reflexivity.
  - cbn [length seq foldM imap_from]. simpl in Hn.
    inversion Hgood as [|? ? Hx Hsuf]; subst.
    assert (Hnth : nth_error (pre ++ x :: suf) (length pre) = Some x).
    { rewrite nth_error_app2 by lia. now rewrite Nat.sub_diag. }
    rewrite (Hstep _ (length pre) x ltac:(lia) Hnth Hx). cbn [bind].
    rewrite update_app_middle.
    set (v := G (length pre) x).
    specialize (IH (pre ++ [v])).
    rewrite length_app, <- !app_assoc in IH. cbn [length app] in IH.
    replace (length pre + 1)%nat with (S (length pre)) in IH by lia.
    apply IH; [lia|assumption].
Qed.

Lemma imap_from_zip {A B : Type} (F : A -> B -> A) (d : B) (l : list A) :
  forall (src pre : list B),
    (length l <= length src)%nat ->
    imap_from (length pre) (fun k x => F x (nth k (pre ++ src) d)) l
    = map (fun p => F (fst p) (snd p)) (combine l src).
Proof.
  induction l as [|x l IH]; intros [|y src] pre Hlen; simpl in Hlen;
    try lia; try reflexivity.
  cbn [imap_from combine map fst snd].
  rewrite app_nth2 by lia. rewrite Nat.sub_diag. cbn [nth].
  specialize (IH src (pre ++ [y])).
  rewrite length_app, <- app_assoc in IH. cbn [length app] in IH.
  replace (length pre + 1)%nat with (S (length pre)) in IH by lia.
  rewrite IH by lia. reflexivity.
Qed.

Lemma imap_from_const {A : Type} (f : A -> A) (l : list A) (start : nat) :
  imap_from start (fun _ x => f x) l = map f l.
Proof.
  revert start; induction l as [|x l IH]; intros start; simpl; [reflexivity|].
  now rewrite IH.
Qed.

(** A loop whose every iteration returns. *)
Lemma foldM_pure {A St : Type} (step : St -> A -> outcome St) (F : St -> A -> St)
  (Inv : St -> Prop) (l : list A) :
  (forall s k, In k l -> Inv s -> step s k = Returns (F s k) /\ Inv (F s k)) ->
  forall s, Inv s ->
       foldM step l s = Returns (fold_left F l s) /\ Inv (fold_left F l s).
Proof.
  induction l as [|k l IH]; intros Hstep s Hs.
  - now split.
  - cbn [foldM fold_left].
    destruct (Hstep s k (or_introl eq_refl) Hs) as [-> Hs']. cbn [bind].
    apply IH; [|assumption]. intros s' k' Hin. apply Hstep. now right.
Qed.

Lemma fold_left_indices {A St : Type} (F : St -> A -> St) (d : A) (l : list A) :
  forall (pre : list A) (s : St),
    fold_left (fun a k => F a (nth k (pre ++ l) d)) (seq (length pre) (length l)) s
    = fold_left F l s.
Proof.
  induction l as [|x l IH]; intros pre s; [reflexivity|].
  cbn [length seq fold_left].
  rewrite app_nth2 by lia. rewrite Nat.sub_diag. cbn [nth].
  specialize (IH (pre ++ [x]) (F s x)).
  rewrite length_app, <- app_assoc in IH. cbn [length app] in IH.
  replace (length pre + 1)%nat with (S (length pre)) in IH by lia.
  exact IH.
Qed.

(* ------------------------------------------------------------------ *)
(** ** The two merge paths of [forward] *)

Lemma nth_error_nth_some {A : Type} (l : list A) (k : nat) (d : A) :
  (k < length l)%nat -> nth_error l k = Some (nth k l d).
Proof.
  intros H. destruct (nth_error l k) eqn:E.
  - now rewrite (nth_error_nth _ _ d E).
  - apply nth_error_None in E. lia.
Qed.

Lemma add_projected_cells (P : list matrix) (h k ed : nat) (Ph : matrix)
  (Phk row : list R) (fo : matrix) :
  nth_error P h = Some Ph -> nth_error Ph k = Some Phk -> length Phk = ed ->
  nth_error fo k = Some row -> length row = ed ->
  foldM (fun fo j => MHSA.add_projected P h k j fo) (seq 0 ed) fo
  = Returns (update k (vadd row Phk) fo).
Proof.
  intros HP HPh HPhk Hfo Hrow.
  pose proof (@foldM_row_cells
                (fun fo j => MHSA.add_projected P h k j fo)
                (fun j x => x + nth j ([] ++ Phk) 0) k ed) as L.
  assert (Hcell : forall fo row j x,
             (j < ed)%nat -> nth_error fo k = Some row -> nth_error row j = Some x ->
             MHSA.add_projected P h k j fo
             = Returns (update k (update j (x + nth j ([] ++ Phk) 0) row) fo)).
  { intros fo' row' j x Hj Hfo' Hx. unfold MHSA.add_projected.
    rewrite Hfo'. cbn [deref bind]. rewrite HP. cbn [deref bind].
    rewrite HPh. cbn [deref bind]. rewrite Hx. cbn [num bind app].
    rewrite (nth_error_nth_some Phk 0) by lia. reflexivity. }
  specialize (L Hcell row [] fo). cbn [length app] in L.
  rewrite Hrow in L. rewrite L; [|lia|assumption].
  pose proof (@imap_from_zip R R Rplus 0 row Phk []) as Z.
  cbn [length app] in Z. rewrite Z by lia. reflexivity.
Qed.

Lemma add_projected_head (P : list matrix) (h s ed : nat) (Ph fo : matrix) :
  nth_error P h = Some Ph -> shape s ed Ph -> shape s ed fo ->
  foldM (fun fo i =>
           foldM (fun fo j => MHSA.add_projected P h i j fo) (seq 0 ed) fo)
        (seq 0 s) fo
  = Returns (madd fo Ph).
Proof.
  intros HP HPh Hfo.
  pose proof (@foldM_rows (list R)
                (fun fo i => foldM (fun fo j => MHSA.add_projected P h i j fo)
                                   (seq 0 ed) fo)
                (fun k x => vadd x (nth k ([] ++ Ph) []))
                (fun row => length row = ed) s) as L.
  assert (Hstep : forall l k x,
             (k < s)%nat -> nth_error l k = Some x -> length x = ed ->
             foldM (fun fo j => MHSA.add_projected P h k j fo) (seq 0 ed) l
             = Returns (update k (vadd x (nth k ([] ++ Ph) [])) l)).
  { intros l k x Hk Hl Hx. cbn [app].
    assert (HPhk : nth_error Ph k = Some (nth k Ph [])).
    { apply nth_error_nth_some. destruct HPh. lia. }
    assert (Hlen' : length (nth k Ph []) = ed)
      by exact (@shape_nth_error s ed Ph k _ HPh HPhk).
    exact (@add_projected_cells P h k ed Ph (nth k Ph []) x l HP HPhk Hlen' Hl Hx). }
  specialize (L Hstep fo []). cbn [length app] in L.
  destruct Hfo as [Hlen Hrows]. rewrite Hlen in L.
  unfold matrix in *. rewrite L; [|lia|assumption].
  pose proof (@imap_from_zip (list R) (list R) vadd [] fo Ph []) as Z.
  cbn [length app] in Z. rewrite Z by (destruct HPh; lia). reflexivity.
Qed.

Lemma add_bo_rows (b : list R) (s ed : nat) (fo : matrix) :
  length b = ed -> shape s ed fo ->
  foldM (fun fo i => foldM (fun fo j => MHSA.add_bo b i j fo) (seq 0 ed) fo)
        (seq 0 s) fo
  = Returns (add_to_rows b fo).
Proof.
  intros Hb Hfo.
  pose proof (@foldM_rows (list R)
                (fun fo i => foldM (fun fo j => MHSA.add_bo b i j fo) (seq 0 ed) fo)
                (fun _ x => vadd x b)
                (fun row => length row = ed) s) as L.
  assert (Hstep : forall l k x,
             (k < s)%nat -> nth_error l k = Some x -> length x = ed ->
             foldM (fun fo j => MHSA.add_bo b k j fo) (seq 0 ed) l
             = Returns (update k (vadd x b) l)).
  { intros l k x Hk Hl Hx.
    pose proof (@foldM_row_cells
                  (fun fo j => MHSA.add_bo b k j fo)
                  (fun j x => x + nth j ([] ++ b) 0) k ed) as C.
    assert (Hcell : forall fo row j x,
               (j < ed)%nat -> nth_error fo k = Some row -> nth_error row j = Some x ->
               MHSA.add_bo b k j fo
               = Returns (update k (update j (x + nth j ([] ++ b) 0) row) fo)).
    { intros fo' row' j x' Hj Hfo' Hx'. unfold MHSA.add_bo.
      rewrite Hfo'. cbn [deref bind]. rewrite Hx'. cbn [num bind app].
      rewrite (nth_error_nth_some b 0) by lia. reflexivity. }
    specialize (C Hcell x [] l). cbn [length app] in C.
    rewrite Hx in C. rewrite C; [|lia|assumption].
    pose proof (@imap_from_zip R R Rplus 0 x b []) as Z.
    cbn [length app] in Z. rewrite Z by lia. reflexivity. }
  specialize (L Hstep fo []). cbn [length app] in L.
  destruct Hfo as [Hlen Hrows]. rewrite Hlen in L.
  unfold matrix in *. rewrite L; [|lia|assumption].
  now rewrite imap_from_const.
Qed.

(** The loop over the heads [1 .. numHeads - 1] of the project-then-sum
    path. *)
Lemma sum_projected (P0 : matrix) (rest : list matrix) (s ed : nat) :
  Forall (shape s ed) (P0 :: rest) ->
  foldM (fun fo h =>
           foldM (fun fo i =>
                    foldM (fun fo j => MHSA.add_projected (P0 :: rest) h i j fo)
                          (seq 0 ed) fo)
                 (seq 0 s) fo)
        (seq 1 (length rest)) P0
  = Returns (msum (P0 :: rest)) /\ shape s ed (msum (P0 :: rest)).
Proof.
  intros HP. inversion HP as [|? ? HP0 Hrest]; subst.
  pose proof (@foldM_pure nat matrix
                (fun fo h =>
                   foldM (fun fo i =>
                            foldM (fun fo j => MHSA.add_projected (P0 :: rest) h i j fo)
                                  (seq 0 ed) fo)
                         (seq 0 s) fo)
                (fun fo h => madd fo (nth h ([P0] ++ rest) []))
                (shape s ed) (seq 1 (length rest))) as L.
  assert (Hstep : forall fo h, In h (seq 1 (length rest)) -> shape s ed fo ->
             foldM (fun fo i =>
                      foldM (fun fo j => MHSA.add_projected (P0 :: rest) h i j fo)
                            (seq 0 ed) fo)
                   (seq 0 s) fo
             = Returns (madd fo (nth h ([P0] ++ rest) [])) /\
             shape s ed (madd fo (nth h ([P0] ++ rest) []))).
  { intros fo h Hh Hfo. apply in_seq in Hh. cbn [app].
    assert (Hnth : nth_error (P0 :: rest) h = Some (nth h (P0 :: rest) [])).
    { apply nth_error_nth_some. simpl. lia. }
    assert (HPh : shape s ed (nth h (P0 :: rest) [])).
    { rewrite Forall_forall in HP. apply HP. eapply nth_error_In; eauto. }
    split.
    - eapply add_projected_head; eauto.
    - now apply shape_madd. }
  destruct (L Hstep P0 HP0) as [E Sh].
  pose proof (@fold_left_indices matrix matrix madd [] rest [P0] P0) as I.
  cbn [length] in I. rewrite I in E, Sh.
  split; assumption.
Qed.

Lemma concat_row_returns (this : MHSA.t) (hos : list HeadOutput.t) (i : nat) :
  MHSA.numHeads this = length hos ->
  Forall (fun ho => (i < length (HeadOutput.output ho))%nat) hos ->
  MHSA.concat_row this hos i
  = Returns (concat (map (fun M => nth i M []) (map HeadOutput.output hos))).
Proof.
  intros Hn Hall. unfold MHSA.concat_row. rewrite Hn.
  pose proof (@foldM_indices HeadOutput.t (list R)
                (fun row ho =>
                   r <- deref (nth_error (HeadOutput.output ho) i) ;; Returns (row ++ r))
                hos 0 [] []) as I.
  cbn [app] in I. rewrite I by reflexivity. clear I Hn.
  enough (G : forall acc,
             foldM (fun row ho =>
                      r <- deref (nth_error (HeadOutput.output ho) i) ;;
                      Returns (row ++ r)) hos acc
             = Returns (acc ++ concat (map (fun M => nth i M [])
                                           (map HeadOutput.output hos)))).
  { apply (G []). }
  induction Hall as [|ho hos Hho Hall IH]; intros acc.
  - simpl. now rewrite app_nil_r.
  - cbn [foldM map concat].
    rewrite (nth_error_nth_some (HeadOutput.output ho) []) by assumption.
    cbn [deref bind]. rewrite IH.
    now rewrite app_assoc.
Qed.

Lemma concatenate_returns (this : MHSA.t) (hos : list HeadOutput.t) (s : nat) :
  MHSA.numHeads this = length hos ->
  Forall (fun ho => length (HeadOutput.output ho) = s) hos ->
  MHSA.concatenate this hos s = Returns (hconcat s (map HeadOutput.output hos)).
Proof.
  intros Hn Hall. unfold MHSA.concatenate, hconcat.
  apply mapM_pure. intros i Hi. apply in_seq in Hi.
  apply concat_row_returns; [assumption|].
  eapply Forall_impl; [|exact Hall]. simpl. intros ho Hho. lia.
Qed.

Lemma length_concat_rows (outs : list matrix) (i hd : nat) :
  Forall (fun M => length (nth i M []) = hd) outs ->
  length (concat (map (fun M => nth i M []) outs)) = (length outs * hd)%nat.
Proof.
  induction 1 as [|M outs HM _ IH]; simpl; [reflexivity|].
  rewrite length_app, IH, HM. reflexivity.
Qed.

Lemma shape_hconcat (s hd : nat) (outs : list matrix) :
  Forall (shape s hd) outs -> shape s (length outs * hd) (hconcat s outs).
Proof.
  intros Hall. unfold hconcat. split.
  - now rewrite length_map, length_seq.
  - apply Forall_map, Forall_forall. intros i Hi. apply in_seq in Hi.
    apply length_concat_rows.
    eapply Forall_impl; [|exact Hall]. simpl. intros M HM.
    eapply shape_nth_error; [exact HM|].
    apply nth_error_nth_some. destruct HM. lia.
Qed.

(* ------------------------------------------------------------------ *)
(** ** The loop over the heads *)

Lemma forward_heads_from (this : MHSA.t) (s : nat) (X : matrix) (hs : list Head.t) :
  shape s (MHSA.embedDim this) X ->
  (1 <= s)%nat -> (1 <= MHSA.embedDim this)%nat -> (1 <= MHSA.headDim this)%nat ->
  0 < MHSA.temperature this ->
  Forall (head_ok (MHSA.embedDim this) (MHSA.headDim this)) hs ->
  forall (a : list HeadOutput.t) (b c : list matrix),
    foldM (fun st head =>
             let '(headOutputs, headAttentions, headProjectedOutputs) := st in
             r <- MHSA.forward_head this X head ;;
             Returns (headOutputs ++ [fst r],
                      headAttentions ++ [HeadOutput.attentionWeights (fst r)],
                      MHSA.push_projected headProjectedOutputs (snd r)))
          hs (a, b, c)
    = Returns (a ++ map (head_result this X) hs,
               b ++ map HeadOutput.attentionWeights (map (head_result this X) hs),
               c ++ collect (map (head_projected this X) hs)).
Proof.
  intros HX Hs Hed Hhd HT. induction 1 as [|h hs Hh _ IH]; intros a b c.
  - simpl. now rewrite !app_nil_r.
  - cbn [foldM].
    rewrite (@forward_head_returns this s X h HX Hh Hs Hed Hhd HT). cbn [bind fst snd].
    rewrite IH. cbn [map collect]. rewrite <- !app_assoc. cbn [app].
    destruct (head_projected this X h); cbn [MHSA.push_projected collect];
      rewrite <- ?app_assoc; reflexivity.
Qed.

Lemma forward_heads_returns (this : MHSA.t) (s : nat) (X : matrix) :
  shape s (MHSA.embedDim this) X ->
  (1 <= s)%nat -> (1 <= MHSA.embedDim this)%nat -> (1 <= MHSA.headDim this)%nat ->
  0 < MHSA.temperature this ->
  MHSA.numHeads this = length (MHSA.heads this) ->
  Forall (head_ok (MHSA.embedDim this) (MHSA.headDim this)) (MHSA.heads this) ->
  MHSA.forward_heads this X
  = Returns (map (head_result this X) (MHSA.heads this),
             map HeadOutput.attentionWeights (map (head_result this X) (MHSA.heads this)),
             projected_outputs this X).
Proof.
  intros HX Hs Hed Hhd HT Hn Hheads. unfold MHSA.forward_heads. rewrite Hn.
  rewrite foldM_ext with
    (f' := fun st h =>
             head <- deref (nth_error ([] ++ MHSA.heads this) h) ;;
             (let '(headOutputs, headAttentions, headProjectedOutputs) := st in
              r <- MHSA.forward_head this X head ;;
              Returns (headOutputs ++ [fst r],
                       headAttentions ++ [HeadOutput.attentionWeights (fst r)],
                       MHSA.push_projected headProjectedOutputs (snd r)))).
  2:{ intros [[a b] c] h _. reflexivity. }
  rewrite (@foldM_indices Head.t _
             (fun st head =>
                let '(headOutputs, headAttentions, headProjectedOutputs) := st in
                r <- MHSA.forward_head this X head ;;
                Returns (headOutputs ++ [fst r],
                         headAttentions ++ [HeadOutput.attentionWeights (fst r)],
                         MHSA.push_projected headProjectedOutputs (snd r)))
             (MHSA.heads this) 0 [] ([], [], []) eq_refl).
  apply (@forward_heads_from this s X _ HX Hs Hed Hhd HT Hheads [] [] []).
Qed.

(* ------------------------------------------------------------------ *)
(** ** [forward] on an initialized engine *)

Lemma collect_all_present (this : MHSA.t) (X : matrix) (hs : list Head.t) :
  forallb (fun h => present (Head.Wo h)) hs = true ->
  collect (map (head_projected this X) hs)
  = map (fun p => mmul (fst p) (matrix_of (Head.Wo (snd p))))
        (combine (map (fun h => HeadOutput.output (head_result this X h)) hs) hs).
Proof.
  induction hs as [|h hs IH]; intros Hall; [reflexivity|].
  simpl in Hall. apply andb_true_iff in Hall as [Hh Hhs].
  cbn [map combine collect fst snd]. unfold head_projected at 1.
  destruct (Head.Wo h) as [wo|]; [|discriminate].
  cbn [collect matrix_of]. now rewrite IH.
Qed.

Lemma length_collect_le {A : Type} (l : list (option A)) :
  (length (collect l) <= length l)%nat.
Proof.
  induction l as [|[x|] l IH]; simpl; lia.
Qed.

Lemma length_collect_projected (this : MHSA.t) (X : matrix) (hs : list Head.t) :
  length (collect (map (head_projected this X) hs)) = length hs <->
  forallb (fun h => present (Head.Wo h)) hs = true.
Proof.
  induction hs as [|h hs IH]; [simpl; tauto|].
  cbn [map collect forallb]. unfold head_projected at 1.
  pose proof (length_collect_le (map (head_projected this X) hs)) as Hle.
  rewrite length_map in Hle.
  destruct (Head.Wo h) as [wo|]; cbn [present andb length].
  - rewrite <- IH. split; lia.
  - split; [lia|discriminate].
Qed.

Lemma shape_projected (this : MHSA.t) (s : nat) (X : matrix) (hs : list Head.t) :
  shape s (MHSA.embedDim this) X ->
  (1 <= s)%nat -> (1 <= MHSA.embedDim this)%nat -> (1 <= MHSA.headDim this)%nat ->
  Forall (head_ok (MHSA.embedDim this) (MHSA.headDim this)) hs ->
  Forall (shape s (MHSA.embedDim this)) (collect (map (head_projected this X) hs)).
Proof.
  intros HX Hs Hed Hhd. induction 1 as [|h hs Hh _ IH]; [constructor|].
  cbn [map collect]. unfold head_projected at 1.
  destruct (Head.Wo h) as [wo|] eqn:Ewo; [|assumption].
  constructor; [|assumption].
  eapply shape_mmul; [|destruct Hh as (_ & _ & _ & Hwo & _); exact (Hwo wo Ewo)|exact Hhd].
  exact (@shape_head_output this s X h HX Hh Hs Hed Hhd).
Qed.

Lemma shape_head_outputs (this : MHSA.t) (s : nat) (X : matrix) (hs : list Head.t) :
  shape s (MHSA.embedDim this) X ->
  (1 <= s)%nat -> (1 <= MHSA.embedDim this)%nat -> (1 <= MHSA.headDim this)%nat ->
  Forall (head_ok (MHSA.embedDim this) (MHSA.headDim this)) hs ->
  Forall (shape s (MHSA.headDim this))
         (map (fun h => HeadOutput.output (head_result this X h)) hs).
Proof.
  intros HX Hs Hed Hhd Hall. apply Forall_map.
  eapply Forall_impl; [|exact Hall]. intros h Hh.
  exact (@shape_head_output this s X h HX Hh Hs Hed Hhd).
Qed.

Lemma forward_returns (this : MHSA.t) (X : matrix) :
  initialized this ->
  shape (length X) (MHSA.embedDim this) X -> (1 <= length X)%nat ->
  MHSA.forward this X = Returns (forward_result this X).
Proof.
  intros (Hed & Hhd & Hnh & Hn & HT & Hheads & Hbo & Hwo) HX Hs.
  assert (HT' : 0 < MHSA.temperature this) by lra.
  pose proof (@shape_head_outputs this _ X _ HX Hs Hed Hhd Hheads) as Houts.
  pose proof (@shape_projected this _ X _ HX Hs Hed Hhd Hheads) as HP.
  assert (Hcat : MHSA.concatenate this (map (head_result this X) (MHSA.heads this))
                                  (length X)
                 = Returns (hconcat (length X) (head_outputs this X))).
  { rewrite concatenate_returns.
    - unfold head_outputs. now rewrite map_map.
    - now rewrite length_map.
    - apply Forall_map. rewrite Forall_map in Houts.
      eapply Forall_impl; [|exact Houts]. simpl. intros h Hh. apply Hh. }
  unfold MHSA.forward.
  rewrite (@forward_heads_returns this _ X HX Hs Hed Hhd HT' Hn Hheads).
  cbn [bind]. unfold forward_result, merge.
  fold (projected_outputs this X) in HP.
  pose proof (length_collect_projected this X (MHSA.heads this)) as Hlen.
  fold (projected_outputs this X) in Hlen. fold (every_head_has_Wo this) in Hlen.
  destruct (every_head_has_Wo this) eqn:Eall.
  - (* project-then-sum *)
    assert (HlenP : length (projected_outputs this X) = MHSA.numHeads this).
    { rewrite Hn. now apply Hlen. }
    rewrite HlenP, Nat.eqb_refl.
    assert (Hcontrib : projected_outputs this X
                       = map (fun p => mmul (fst p) (matrix_of (Head.Wo (snd p))))
                             (combine (head_outputs this X) (MHSA.heads this))).
    { apply collect_all_present. exact Eall. }
    unfold project_then_sum. rewrite <- Hcontrib.
    destruct (projected_outputs this X) as [|P0 rest] eqn:EP;
      [simpl in HlenP; lia|].
    cbn [nth_error deref bind].
    replace (MHSA.numHeads this - 1)%nat with (length rest)
      by (simpl in HlenP; lia).
    destruct (sum_projected HP) as [-> Hsum]. cbn [bind].
    destruct (MHSA.bo this) as [b|] eqn:Ebo.
    + specialize (Hbo b eq_refl).
      destruct b as [|y b]; [simpl in Hbo; lia|].
      rewrite (@add_bo_rows (y :: b) _ _ _ Hbo Hsum). cbn [bind].
      rewrite Hcat. reflexivity.
    + cbn [bind]. rewrite Hcat. reflexivity.
  - (* concatenate-then-project *)
    assert (HlenP : length (projected_outputs this X) <> MHSA.numHeads this).
    { rewrite Hn. intros E. apply Hlen in E. discriminate. }
    apply Nat.eqb_neq in HlenP. rewrite HlenP.
    rewrite Hcat. cbn [bind].
    destruct Hwo as [Hwo|(wo & Ewo & Swo)]; [discriminate|].
    rewrite Ewo. cbn [deref bind].
    pose proof (shape_hconcat Houts) as Hcs. rewrite length_map, <- Hn in Hcs.
    fold (head_outputs this X) in Hcs.
    rewrite (matmul_returns Hcs Swo Hs) by nia.
    unfold concat_then_project. rewrite Ewo. reflexivity.
Qed.

(* ------------------------------------------------------------------ *)
(** * The properties of the specification *)

(** ** Softmax *)

(** C7.  For every score matrix whose rows are non-empty and every
    temperature above zero, [softmax] returns the matrix obtained row by
    row by subtracting the row maximum, dividing by the temperature,
    exponentiating and normalising by the row sum; each of its rows sums
    to 1 and each of its entries lies between 0 and 1. *)
Theorem softmax_rows_are_distributions (S : matrix) (T : R) :
  0 < T ->
  Forall (fun row => row <> []) S ->
  MathUtils.softmax S T = Returns (softmaxRows S T) /\
  Forall (fun row => row_sum row = 1 /\ Forall (fun x => 0 <= x <= 1) row)
         (softmaxRows S T).
Proof.
  intros HT Hrows. split.
  - apply softmax_returns. lra.
  - unfold softmaxRows. apply Forall_map.
    eapply Forall_impl; [|exact Hrows].
    intros row Hrow. now apply softmax_row_spec_normalised.
Qed.

Lemma softmax_rows_are_distributions_witness :
  MathUtils.softmax [[0; 0]; [0]] 1 = Returns (softmaxRows [[0; 0]; [0]] 1) /\
  Forall (fun row => row_sum row = 1 /\ Forall (fun x => 0 <= x <= 1) row)
         (softmaxRows [[0; 0]; [0]] 1).
Proof.
  apply (@softmax_rows_are_distributions [[0; 0]; [0]] 1).
  - lra.
  - repeat constructor; discriminate.
Defined.

(** C9.  [softmax] is shift-invariant: for every score matrix, every
    temperature above zero, every row index and every constant, adding
    the constant to every element of that row gives the same output. *)
Theorem softmax_shift_invariant (S : matrix) (T c : R) (i : nat) :
  0 < T ->
  exists P,
    MathUtils.softmax S T = Returns P /\
    MathUtils.softmax (shift_row i c S) T = Returns P.
Proof.
  intros HT. exists (softmaxRows S T). split.
  - apply softmax_returns. lra.
  - rewrite softmax_returns by lra. now rewrite softmaxRows_shift_row.
Qed.

Lemma softmax_shift_invariant_witness :
  exists P,
    MathUtils.softmax [[1; 2]] 1 = Returns P /\
    MathUtils.softmax (shift_row 0 3 [[1; 2]]) 1 = Returns P.
Proof.
  apply (@softmax_shift_invariant [[1; 2]] 1 3 0). lra.
Defined.

(** [softmax] of the one-entry matrix [[0]] at temperature [-1]. *)
Lemma softmax_negative_temperature_example :
  MathUtils.softmax [[0]] (-1) = Returns [[1]].
Proof.
  pose proof MAX_VALUE_large as Hbig.
  assert (E : exp ((0 - 0) / -1) = 1).
  { replace ((0 - 0) / -1) with 0 by (field; lra). apply exp_0. }
  unfold MathUtils.softmax. cbn [mapM].
  rewrite softmax_row_returns_in_range.
  - cbn [bind]. unfold softmax_row_spec, row_max, row_sum. simpl.
    rewrite E. do 2 f_equal. f_equal. field.
  - lra.
  - unfold row_max. cbn [map hd tl fold_left]. rewrite E.
    constructor; [lra|constructor].
  - intros _. unfold row_max, row_sum. cbn [map hd tl fold_left]. rewrite E. lra.
Qed.

(** At temperature zero the division gives [NaN]. *)
Lemma softmax_at_zero (S : matrix) :
  Exists (fun row => row <> []) S -> MathUtils.softmax S 0 = NonNumber.
Proof.
  unfold MathUtils.softmax. induction 1 as [row S Hrow|row S _ IH]; cbn [mapM].
  - destruct row as [|s0 rest]; [congruence|].
    unfold MathUtils.softmax_row. cbn [mapM]. unfold div at 1.
    destruct (Req_dec_T 0 0); [reflexivity|congruence].
  - rewrite IH.
    destruct (MathUtils.softmax_row row 0) as [r|e|] eqn:E; try reflexivity.
    exfalso. exact (@softmax_row_never_throws row 0 e E).
Qed.

(** C6, as stated, fails: at temperature [-1] the call returns. *)
Lemma softmax_accepts_nonpositive_temperature :
  ~ (forall (S : matrix) (T : R),
        T <= 0 -> exists e, MathUtils.softmax S T = Throws e).
Proof.
  intros H. destruct (H [[0]] (-1) ltac:(lra)) as [e He].
  rewrite softmax_negative_temperature_example in He. discriminate.
Qed.

(** C6, amended.  [softmax] does not check the temperature and throws no
    error for it: for every score matrix and every temperature that is
    not above zero the call does not throw, and at temperature zero on
    a matrix with a row that is not empty the division gives [NaN]
    where the specification has an error. *)
Theorem softmax_never_rejects_temperature (S : matrix) (T : R) :
  T <= 0 ->
  (forall e, MathUtils.softmax S T <> Throws e) /\
  (T = 0 -> Exists (fun row => row <> []) S -> MathUtils.softmax S T = NonNumber).
Proof.
  intros _. split.
  - apply mapM_never_throws. intros row e. apply softmax_row_never_throws.
  - intros ->. apply softmax_at_zero.
Qed.

Lemma softmax_never_rejects_temperature_witness :
  (forall e, MathUtils.softmax [[0]] 0 <> Throws e) /\
  MathUtils.softmax [[0]] 0 = NonNumber.
Proof.
  destruct (@softmax_never_rejects_temperature [[0]] 0 ltac:(lra)) as [H1 H2].
  split; [exact H1|].
  apply H2; [reflexivity|]. constructor. discriminate.
Defined.

(** ** Before initialization *)

Lemma constructor_uninitialized (embedDim numHeads : nat) (T : R) (this : MHSA.t) :
  MHSA.constructor embedDim numHeads T = Returns this -> uninitialized this.
Proof.
  unfold MHSA.constructor. destruct numHeads; [discriminate|].
  intros [= <-]. now split.
Qed.

(** C4, as stated, fails: the error [forward] throws on the state the
    constructor leaves is not one the code raises, there is no check of
    the state and no error for it. *)
Lemma forward_raises_no_error_of_its_own :
  ~ (forall (this : MHSA.t) (X : matrix),
        uninitialized this ->
        exists e, MHSA.forward this X = Throws e /\ raised_by_the_code e).
Proof.
  intros H.
  destruct (H Example.fresh_engine Example.X) as (e & He & msg & Hmsg).
  - split; reflexivity.
  - subst e. unfold MHSA.forward, MHSA.forward_heads in He.
    cbn [Example.fresh_engine MHSA.numHeads MHSA.heads seq foldM nth_error
         deref bind] in He.
    discriminate.
Qed.

(** C4, amended.  [forward] on an engine in the state the constructor
    leaves (no heads, no combined [Wo]) throws, whatever the embeddings:
    not an error of its own, but the [TypeError] of reading a head that
    is not there. *)
Theorem forward_before_initialization_throws (this : MHSA.t) (X : matrix) :
  uninitialized this ->
  MHSA.forward this X = Throws TypeError.
Proof.
  intros [Hheads HWo]. unfold MHSA.forward, MHSA.forward_heads.
  rewrite Hheads. destruct (MHSA.numHeads this) as [|n].
  - reflexivity.
  - reflexivity.
Qed.

Lemma forward_before_initialization_throws_witness :
  MHSA.constructor 4 2 1
  = Returns (MHSA.mk 4 2 2 1 [] None None false None false) /\
  MHSA.forward (MHSA.mk 4 2 2 1 [] None None false None false) [[1; 0; 0; 0]]
  = Throws TypeError.
Proof.
  split; [reflexivity|].
  apply (@forward_before_initialization_throws
           (MHSA.mk 4 2 2 1 [] None None false None false) [[1; 0; 0; 0]]).
  split; reflexivity.
Defined.

(** ** The merge of the head outputs *)

Lemma shape_msum (s ed : nat) (P0 : matrix) (rest : list matrix) :
  Forall (shape s ed) (P0 :: rest) -> shape s ed (msum (P0 :: rest)).
Proof.
  intros H. inversion H as [|? ? HP0 Hrest]; subst. cbn [msum].
  clear H. revert P0 HP0. induction Hrest as [|M rest HM _ IH]; intros P0 HP0.
  - assumption.
  - cbn [fold_left]. apply IH. now apply shape_madd.
Qed.

Lemma projected_is_contributions (this : MHSA.t) (X : matrix) :
  every_head_has_Wo this = true ->
  projected_outputs this X
  = map (fun p => mmul (fst p) (matrix_of (Head.Wo (snd p))))
        (combine (head_outputs this X) (MHSA.heads this)).
Proof.
  intros H. now apply collect_all_present.
Qed.

Lemma shape_merge (this : MHSA.t) (X : matrix) :
  initialized this ->
  shape (length X) (MHSA.embedDim this) X -> (1 <= length X)%nat ->
  shape (length X) (MHSA.embedDim this) (merge this (length X) (head_outputs this X)).
Proof.
  intros (Hed & Hhd & Hnh & Hn & HT & Hheads & Hbo & Hwo) HX Hs.
  pose proof (@shape_head_outputs this _ X _ HX Hs Hed Hhd Hheads) as Houts.
  pose proof (@shape_projected this _ X _ HX Hs Hed Hhd Hheads) as HP.
  fold (projected_outputs this X) in HP. fold (head_outputs this X) in Houts.
  unfold merge. destruct (every_head_has_Wo this) eqn:Eall.
  - unfold project_then_sum. rewrite <- (projected_is_contributions this X Eall).
    assert (Hsum : shape (length X) (MHSA.embedDim this)
                         (msum (projected_outputs this X))).
    { pose proof (proj2 (length_collect_projected this X (MHSA.heads this)) Eall) as Hl.
      fold (projected_outputs this X) in Hl.
      destruct (projected_outputs this X) as [|P0 rest]; [simpl in Hl; lia|].
      now apply shape_msum. }
    destruct (MHSA.bo this) as [b|] eqn:Ebo; [|assumption].
    apply shape_add_to_rows; auto.
  - destruct Hwo as [Hwo|(wo & Ewo & Swo)]; [discriminate|].
    unfold concat_then_project. rewrite Ewo. cbn [matrix_of].
    pose proof (shape_hconcat Houts) as Hcs.
    unfold head_outputs in Hcs at 1. rewrite length_map, <- Hn in Hcs.
    eapply shape_mmul; [exact Hcs|exact Swo|nia].
Qed.

Ltac shape_tac := split; [reflexivity | repeat constructor].

Ltac split_all := repeat match goal with |- _ /\ _ => split end.

Ltac head_ok_tac :=
  unfold head_ok; cbn; split_all;
  first [ eexists; split; [reflexivity | shape_tac]
        | let H := fresh in
          intros ? H; inversion H; subst; first [shape_tac | reflexivity] ].

Lemma per_head_engine_initialized : initialized Example.per_head_engine.
Proof.
  unfold initialized, Example.per_head_engine; cbn.
  split_all; try lia; try lra.
  - apply Forall_cons; [head_ok_tac | apply Forall_cons; [head_ok_tac | apply Forall_nil]].
  - now intros b [= <-].
Defined.

Lemma combined_engine_initialized : initialized Example.combined_engine.
Proof.
  unfold initialized, Example.combined_engine; cbn.
  split_all; try lia; try lra.
  - apply Forall_cons; [head_ok_tac | apply Forall_cons; [head_ok_tac | apply Forall_nil]].
  - discriminate.
  - right. eexists; split; [reflexivity | shape_tac].
Defined.

Lemma example_X_shape : shape (length Example.X) 2 Example.X.
Proof. shape_tac. Defined.

(** C1.  On an initialized engine and embeddings of [embedDim] columns
    [forward] returns, its trace holds the attention result of every
    head and the head outputs side by side, and its output merges the
    head outputs by the structure of the weights: if every head has a
    [Wo], the elementwise sum over the heads of [headOutput . headWo],
    with [bo] added to every row when there is one; otherwise the head
    outputs side by side, times the combined [Wo]. *)
Theorem forward_merge_strategy (this : MHSA.t) (X : matrix) :
  initialized this ->
  shape (length X) (MHSA.embedDim this) X -> (1 <= length X)%nat ->
  exists res,
    MHSA.forward this X = Returns res /\
    Result.headOutputs res = map (head_result this X) (MHSA.heads this) /\
    let outs := map HeadOutput.output (Result.headOutputs res) in
    Result.concatenated res = hconcat (length X) outs /\
    (every_head_has_Wo this = true ->
     Result.output res = project_then_sum this outs) /\
    (every_head_has_Wo this = false ->
     Result.output res = concat_then_project this (length X) outs).
Proof.
  intros Hinit HX Hs. exists (forward_result this X).
  split; [now apply forward_returns|].
  split; [reflexivity|].
  cbn [forward_result Result.headOutputs Result.output Result.concatenated].
  rewrite map_map. fold (head_outputs this X). unfold merge.
  split; [reflexivity|].
  split; intros ->; reflexivity.
Qed.

Lemma forward_merge_strategy_witness :
  exists res,
    MHSA.forward Example.per_head_engine Example.X = Returns res /\
    Result.headOutputs res
    = map (head_result Example.per_head_engine Example.X)
          (MHSA.heads Example.per_head_engine) /\
    let outs := map HeadOutput.output (Result.headOutputs res) in
    Result.concatenated res = hconcat (length Example.X) outs /\
    (every_head_has_Wo Example.per_head_engine = true ->
     Result.output res = project_then_sum Example.per_head_engine outs) /\
    (every_head_has_Wo Example.per_head_engine = false ->
     Result.output res
     = concat_then_project Example.per_head_engine (length Example.X) outs).
Proof.
  apply (@forward_merge_strategy Example.per_head_engine Example.X).
  - exact per_head_engine_initialized.
  - exact example_X_shape.
  - cbn. lia.
Defined.

(** C8.  On an initialized engine and embeddings of [seqLen] rows and
    [embedDim] columns, the output of [forward] has [seqLen] rows of
    [embedDim] entries, on the project-then-sum path and on the
    concatenate-then-project path. *)
Theorem forward_output_shape (this : MHSA.t) (X : matrix) (seqLen : nat) :
  initialized this ->
  shape seqLen (MHSA.embedDim this) X -> (1 <= seqLen)%nat ->
  exists res,
    MHSA.forward this X = Returns res /\
    shape seqLen (MHSA.embedDim this) (Result.output res).
Proof.
  intros Hinit HX Hs.
  assert (Hlen : length X = seqLen) by apply HX. subst seqLen.
  exists (forward_result this X). split.
  - now apply forward_returns.
  - now apply shape_merge.
Qed.

Lemma forward_output_shape_witness :
  (exists res,
      MHSA.forward Example.per_head_engine Example.X = Returns res /\
      shape 3 2 (Result.output res)) /\
  (exists res,
      MHSA.forward Example.combined_engine Example.X = Returns res /\
      shape 3 2 (Result.output res)).
Proof.
  split.
  - apply (@forward_output_shape Example.per_head_engine Example.X 3).
    + exact per_head_engine_initialized.
    + exact example_X_shape.
    + lia.
  - apply (@forward_output_shape Example.combined_engine Example.X 3).
    + exact combined_engine_initialized.
    + exact example_X_shape.
    + lia.
Defined.

(** ** Engines loaded from a per-head weight file *)

Lemma copy_heads (hs : list Head.t) :
  map (fun head =>
         Head.mk (Head.Wq head) (Head.Wk head) (Head.Wv head) (Head.Wo head)
                 (Head.bq head) (Head.bk head) (Head.bv head)) hs
  = hs.
Proof.
  induction hs as [|[] hs IH]; simpl; [reflexivity|]. now rewrite IH.
Qed.

(** What a call of [loadPreExtractedWeights] that returns has done. *)
Lemma loadPreExtractedWeights_returns (weights : option Weights.t)
  (name : option string) (this0 this : MHSA.t) :
  MHSA.loadPreExtractedWeights weights name this0 = (Returns tt, this) ->
  exists w hs,
    weights = Some w /\ Weights.heads w = Some hs /\
    MHSA.heads this = hs /\
    MHSA.Wo this = None /\
    MHSA.bo this = Weights.bo w /\
    MHSA.temperature this = MHSA.temperature this0 /\
    MHSA.config_or (MHSA.config_field (Weights.config w) Weights.num_heads)
                   (Returns (length hs)) = Returns (MHSA.numHeads this) /\
    MHSA.config_or (MHSA.config_field (Weights.config w) Weights.head_dim)
                   (MHSA.first_Wq_cols hs) = Returns (MHSA.headDim this) /\
    MHSA.config_or (MHSA.config_field (Weights.config w) Weights.embed_dim)
                   (MHSA.first_Wq_rows hs) = Returns (MHSA.embedDim this).
Proof.
  unfold MHSA.loadPreExtractedWeights.
  destruct weights as [w|]; [|discriminate].
  destruct (Weights.heads w) as [hs|] eqn:Ehs; [|discriminate].
  unfold MHSA.mbind, MHSA.lift, MHSA.assign.
  destruct (MHSA.config_or (MHSA.config_field (Weights.config w) Weights.num_heads) _)
    as [nh| |] eqn:Enh; try discriminate.
  destruct (MHSA.config_or (MHSA.config_field (Weights.config w) Weights.head_dim) _)
    as [hd| |] eqn:Ehd; try discriminate.
  destruct (MHSA.config_or (MHSA.config_field (Weights.config w) Weights.embed_dim) _)
    as [ed| |] eqn:Eed; try discriminate.
  destruct (MHSA.first_has_bq hs) as [ub| |]; try discriminate.
  intros [= <-]. exists w, hs. cbn. rewrite copy_heads. repeat split; auto.
Qed.

(** Whether [forward_head] pushes on [headProjectedOutputs] is decided
    by the head's [Wo]. *)
Lemma forward_head_projected (this : MHSA.t) (X : matrix) (h : Head.t)
  (r : HeadOutput.t * option matrix) :
  MHSA.forward_head this X h = Returns r ->
  present (snd r) = present (Head.Wo h).
Proof.
  unfold MHSA.forward_head.
  destruct (MHSA.linearProjection X (Head.Wq h) (Head.bq h)); try discriminate.
  destruct (MHSA.linearProjection X (Head.Wk h) (Head.bk h)); try discriminate.
  destruct (MHSA.linearProjection X (Head.Wv h) (Head.bv h)); try discriminate.
  cbn [bind].
  destruct (MHSA.scaledDotProductAttention this _ _ _) as [[[o w] sc]| |];
    try discriminate.
  cbn [bind]. destruct (Head.Wo h) as [wo|].
  - destruct (MathUtils.matmul o wo); try discriminate. now intros [= <-].
  - now intros [= <-].
Qed.

Lemma forward_heads_projected_count (this : MHSA.t) (X : matrix) (l : list nat) :
  forall (a a' : list HeadOutput.t) (b b' c c' : list matrix),
    foldM (fun st h =>
             let '(headOutputs, headAttentions, headProjectedOutputs) := st in
             head <- deref (nth_error (MHSA.heads this) h) ;;
             r <- MHSA.forward_head this X head ;;
             Returns (headOutputs ++ [fst r],
                      headAttentions ++ [HeadOutput.attentionWeights (fst r)],
                      MHSA.push_projected headProjectedOutputs (snd r)))
          l (a, b, c)
    = Returns (a', b', c') ->
    (length c' <= length c + length l)%nat /\
    (length c' = length c + length l ->
     Forall (fun k => exists h, nth_error (MHSA.heads this) k = Some h /\
                                Head.Wo h <> None) l)%nat.
Proof.
  induction l as [|k l IH]; intros a a' b b' c c'.
  - cbn [foldM]. intros [= <- <- <-]. simpl. split; [lia|constructor].
  - cbn [foldM].
    destruct (nth_error (MHSA.heads this) k) as [h|] eqn:Ek; [|discriminate].
    cbn [deref bind].
    destruct (MHSA.forward_head this X h) as [r| |] eqn:Er; try discriminate.
    cbn [bind]. intros Hrest.
    apply IH in Hrest as [Hle Hall].
    pose proof (forward_head_projected _ _ _ Er) as Hp.
    assert (Hpush : length (MHSA.push_projected c (snd r))
                    = (length c + (if present (Head.Wo h) then 1 else 0))%nat).
    { rewrite <- Hp. destruct (snd r); simpl; [rewrite length_app; simpl|]; lia. }
    rewrite Hpush in Hle, Hall. cbn [length].
    destruct (Head.Wo h) as [wo|] eqn:Ewo; cbn [present] in *.
    + split; [lia|]. intros E. constructor.
      * exists h. split; [assumption|]. rewrite Ewo. discriminate.
      * apply Hall. lia.
    + split; lia.
Qed.

Lemma forward_returns_only_if_projected (this : MHSA.t) (X : matrix) (res : Result.t) :
  MHSA.Wo this = None ->
  MHSA.forward this X = Returns res ->
  forall k, (k < MHSA.numHeads this)%nat ->
       exists h, nth_error (MHSA.heads this) k = Some h /\ Head.Wo h <> None.
Proof.
  intros HWo. unfold MHSA.forward.
  destruct (MHSA.forward_heads this X) as [[[hos atts] P]| |] eqn:Eh; try discriminate.
  cbn [bind].
  destruct (Nat.eqb (length P) (MHSA.numHeads this)) eqn:Elen.
  - intros _ k Hk. apply Nat.eqb_eq in Elen.
    unfold MHSA.forward_heads in Eh.
    apply forward_heads_projected_count in Eh as [_ Hall].
    rewrite length_seq in Hall. specialize (Hall Elen).
    rewrite Forall_forall in Hall. apply Hall. apply in_seq. lia.
  - rewrite HWo.
    destruct (MHSA.concatenate this hos (length X)); discriminate.
Qed.

Lemma forward_without_any_usable_Wo (this : MHSA.t) (X : matrix) :
  heads_ready this ->
  shape (length X) (MHSA.embedDim this) X -> (1 <= length X)%nat ->
  MHSA.Wo this = None ->
  every_head_has_Wo this = false ->
  MHSA.forward this X = Throws TypeError.
Proof.
  intros (Hed & Hhd & Hnh & Hn & HT & Hheads) HX Hs HWo Hall.
  assert (HT' : 0 < MHSA.temperature this) by lra.
  pose proof (@shape_head_outputs this _ X _ HX Hs Hed Hhd Hheads) as Houts.
  unfold MHSA.forward.
  rewrite (@forward_heads_returns this _ X HX Hs Hed Hhd HT' Hn Hheads).
  cbn [bind].
  assert (HlenP : length (projected_outputs this X) <> MHSA.numHeads this).
  { rewrite Hn. intros E. apply length_collect_projected in E.
    unfold every_head_has_Wo in Hall. congruence. }
  apply Nat.eqb_neq in HlenP. rewrite HlenP.
  rewrite concatenate_returns.
  - cbn [bind]. rewrite HWo. reflexivity.
  - now rewrite length_map.
  - apply Forall_map. rewrite Forall_map in Houts.
    eapply Forall_impl; [|exact Houts]. simpl. intros h Hh. apply Hh.
Qed.

(** [forward] runs the first [numHeads] heads and reads no other. *)
Lemma nth_error_firstn_lt {A : Type} (n : nat) (l : list A) (k : nat) :
  (k < n)%nat -> nth_error (firstn n l) k = nth_error l k.
Proof.
  revert l k; induction n as [|n IH]; intros l k Hk; [lia|].
  destruct l as [|x l]; [reflexivity|].
  destruct k as [|k]; [reflexivity|]. cbn [firstn nth_error]. apply IH. lia.
Qed.

Lemma forward_runs_first_heads (this : MHSA.t) (X : matrix) :
  MHSA.forward
    (MHSA.set_heads (firstn (MHSA.numHeads this) (MHSA.heads this)) this) X
  = MHSA.forward this X.
Proof.
  assert (Hheads :
            MHSA.forward_heads
              (MHSA.set_heads (firstn (MHSA.numHeads this) (MHSA.heads this)) this) X
            = MHSA.forward_heads this X).
  { destruct this as [ed nh hd T hs wo bo real name ub].
    unfold MHSA.forward_heads.
    cbn [MHSA.set_heads MHSA.numHeads MHSA.heads MHSA.embedDim MHSA.headDim
         MHSA.temperature MHSA.Wo MHSA.bo MHSA.isRealModel MHSA.modelName
         MHSA.useBias].
    apply foldM_ext. intros [[a b] c] k Hk. apply in_seq in Hk.
    rewrite nth_error_firstn_lt by lia. reflexivity. }
  unfold MHSA.forward. rewrite Hheads.
  destruct this; reflexivity.
Qed.

Lemma one_of_two_runs :
  exists res, MHSA.forward Example.one_of_two_engine Example.X = Returns res.
Proof.
  rewrite <- forward_runs_first_heads.
  eexists. apply forward_returns.
  - unfold initialized, Example.one_of_two_engine; cbn.
    split_all; try lia; try lra.
    + apply Forall_cons; [head_ok_tac | apply Forall_nil].
    + discriminate.
  - exact example_X_shape.
  - cbn. lia.
Qed.

(** C10, as stated, fails: when [config.num_heads] is below the number
    of heads in the file, [forward] returns although a loaded head has
    no [Wo]. *)
Lemma forward_returns_with_a_loaded_head_without_Wo :
  ~ (forall (weights : option Weights.t) (name : option string)
            (this0 this : MHSA.t) (X : matrix) (res : Result.t),
        MHSA.loadPreExtractedWeights weights name this0 = (Returns tt, this) ->
        MHSA.forward this X = Returns res ->
        Forall (fun h => Head.Wo h <> None) (MHSA.heads this)).
Proof.
  intros H. destruct one_of_two_runs as [res Hres].
  assert (Hload : MHSA.loadPreExtractedWeights (Some Example.one_of_two_weights)
                    None Example.fresh_engine
                  = (Returns tt, Example.one_of_two_engine)) by reflexivity.
  specialize (H _ _ _ _ _ _ Hload Hres).
  inversion H as [|? ? _ Hrest]. inversion Hrest as [|? ? Hb _].
  apply Hb. reflexivity.
Qed.

(** C10, amended.  After [loadPreExtractedWeights] the combined [Wo] is
    null.  So [forward] on the loaded engine returns only if every head
    it runs has a [Wo] of its own, that is every loaded head when
    [numHeads] is their number; and on a file whose heads are well
    shaped and as many as [numHeads], but of which some head has no
    [Wo], [forward] reaches the concatenate-then-project branch and
    throws on the null [Wo]. *)
Theorem per_head_load_leaves_no_combined_Wo (weights : option Weights.t)
  (name : option string) (this0 this : MHSA.t) (X : matrix) :
  MHSA.loadPreExtractedWeights weights name this0 = (Returns tt, this) ->
  MHSA.Wo this = None /\
  (forall res, MHSA.forward this X = Returns res ->
     (forall k, (k < MHSA.numHeads this)%nat ->
           exists h, nth_error (MHSA.heads this) k = Some h /\ Head.Wo h <> None) /\
     (MHSA.numHeads this = length (MHSA.heads this) ->
      Forall (fun h => Head.Wo h <> None) (MHSA.heads this))) /\
  (heads_ready this ->
   shape (length X) (MHSA.embedDim this) X -> (1 <= length X)%nat ->
   (exists h, In h (MHSA.heads this) /\ Head.Wo h = None) ->
   MHSA.forward this X = Throws TypeError).
Proof.
  intros Hload.
  destruct (loadPreExtractedWeights_returns _ _ _ Hload)
    as (w & hs & _ & _ & _ & HWo & _).
  split; [assumption|]. split.
  - intros res Hres.
    pose proof (forward_returns_only_if_projected _ _ HWo Hres) as Hrun.
    split; [exact Hrun|].
    intros Hn. apply Forall_forall. intros h Hin.
    apply In_nth_error in Hin as [k Hk].
    assert (Hlt : (k < MHSA.numHeads this)%nat).
    { rewrite Hn. apply nth_error_Some. congruence. }
    destruct (Hrun k Hlt) as (h' & Hk' & Hwo). congruence.
  - intros Hready HX Hs (h & Hin & Hh).
    apply forward_without_any_usable_Wo; auto.
    unfold every_head_has_Wo.
    destruct (forallb _ (MHSA.heads this)) eqn:E; [|reflexivity].
    rewrite forallb_forall in E. specialize (E h Hin). rewrite Hh in E. discriminate.
Qed.

Lemma partial_per_head_engine_ready : heads_ready Example.partial_per_head_engine.
Proof.
  unfold heads_ready, Example.partial_per_head_engine; cbn.
  split_all; try lia; try lra.
  apply Forall_cons; [head_ok_tac | apply Forall_cons; [head_ok_tac | apply Forall_nil]].
Defined.

Lemma per_head_load_leaves_no_combined_Wo_witness :
  MHSA.loadPreExtractedWeights (Some Example.partial_per_head_weights) None
                               Example.fresh_engine
  = (Returns tt, Example.partial_per_head_engine) /\
  MHSA.Wo Example.partial_per_head_engine = None /\
  MHSA.forward Example.partial_per_head_engine Example.X = Throws TypeError.
Proof.
  assert (Hload : MHSA.loadPreExtractedWeights (Some Example.partial_per_head_weights)
                    None Example.fresh_engine
                  = (Returns tt, Example.partial_per_head_engine)) by reflexivity.
  destruct (@per_head_load_leaves_no_combined_Wo
              (Some Example.partial_per_head_weights) None
              Example.fresh_engine Example.partial_per_head_engine Example.X Hload)
    as (HWo & _ & Hthrows).
  split; [exact Hload|]. split; [exact HWo|].
  apply Hthrows.
  - exact partial_per_head_engine_ready.
  - exact example_X_shape.
  - cbn. lia.
  - exists (Example.head_b None). split; [cbn; auto|reflexivity].
Defined.

(** ** Loading malformed weight files *)

(** Both loaders return on a weight file whose only head has neither
    [Wk] nor [Wv], and the engine is loaded. *)
Lemma loaders_accept_head_without_projections :
  malformed (Some Example.lacking_per_head_weights) /\
  malformed (Some Example.lacking_legacy_weights) /\
  MHSA.loadPreExtractedWeights (Some Example.lacking_per_head_weights) None
                               Example.fresh_engine
  = (Returns tt,
     MHSA.mk 2 1 1 1 [Example.head_without_Wk_Wv] None None true
             (Some "Pre-extracted Model"%string) false) /\
  MHSA.loadRealWeights (Some Example.lacking_legacy_weights) None
                       Example.fresh_engine
  = (Returns tt,
     MHSA.mk 2 1 1 1 [Example.head_without_Wk_Wv] (Some [[1; 0]]) None true
             None false).
Proof.
  assert (Hlacks : Exists lacks_projection [Example.head_without_Wk_Wv]).
  { constructor. right. left. reflexivity. }
  split; [|split; [|split]].
  - right. right. eexists _, _. repeat split. exact Hlacks.
  - right. right. eexists _, _. repeat split. exact Hlacks.
  - reflexivity.
  - reflexivity.
Qed.

(** C5, as stated, fails: neither loader throws on every malformed
    weight file. *)
Lemma malformed_weights_not_always_rejected :
  ~ (forall weights name this,
        malformed weights ->
        exists e, fst (MHSA.loadPreExtractedWeights weights name this) = Throws e) /\
  ~ (forall weights name this,
        malformed weights ->
        exists e, fst (MHSA.loadRealWeights weights name this) = Throws e).
Proof.
  destruct loaders_accept_head_without_projections as (M1 & M2 & L1 & L2).
  split; intros H.
  - destruct (H _ None Example.fresh_engine M1) as [e He].
    rewrite L1 in He. discriminate.
  - destruct (H _ None Example.fresh_engine M2) as [e He].
    rewrite L2 in He. discriminate.
Qed.

Lemma absent_heads_rejected (weights : option Weights.t) (name : option string)
  (this : MHSA.t) :
  heads_absent weights ->
  MHSA.loadPreExtractedWeights weights name this
  = (Throws (Error "Invalid pre-extracted weight structure"), this) /\
  MHSA.loadRealWeights weights name this
  = (Throws (Error "Invalid weight structure"), this).
Proof.
  intros [->|(w & -> & Hw)].
  - split; reflexivity.
  - unfold MHSA.loadPreExtractedWeights, MHSA.loadRealWeights. rewrite Hw.
    split; reflexivity.
Qed.

Lemma empty_heads_fail_per_head (w : Weights.t) (name : option string) (this : MHSA.t) :
  Weights.heads w = Some [] ->
  fst (MHSA.loadPreExtractedWeights (Some w) name this) = Throws TypeError /\
  (uninitialized this ->
   uninitialized (snd (MHSA.loadPreExtractedWeights (Some w) name this))).
Proof.
  intros Hw. unfold MHSA.loadPreExtractedWeights. rewrite Hw.
  unfold uninitialized.
  destruct (Weights.config w) as [[[[|nh]|] [[|hd]|] [[|ed]|]]|];
    cbn; (split; [reflexivity|]); intros [H1 H2]; auto.
Qed.

Lemma empty_heads_fail_legacy (w : Weights.t) (name : option string) (this : MHSA.t) :
  Weights.heads w = Some [] ->
  (exists e, fst (MHSA.loadRealWeights (Some w) name this) = Throws e) /\
  (uninitialized this ->
   uninitialized (snd (MHSA.loadRealWeights (Some w) name this))).
Proof.
  intros Hw. unfold MHSA.loadRealWeights. rewrite Hw.
  unfold uninitialized.
  destruct (Weights.Wo w); cbn; (split; [eexists; reflexivity|]); auto.
Qed.

(** C5, amended.  When [heads] is absent (or the whole structure is),
    both loaders throw their invalid-structure error and leave every field
    of the engine as it was.  When [heads] is empty both loaders throw as
    well, and an engine without heads and combined [Wo] is left without
    them.  That a head has [Wq], [Wk] and [Wv] is not checked. *)
Theorem loaders_reject_absent_or_empty_heads (weights : option Weights.t)
  (name : option string) (this : MHSA.t) :
  (heads_absent weights ->
   MHSA.loadPreExtractedWeights weights name this
   = (Throws (Error "Invalid pre-extracted weight structure"), this) /\
   MHSA.loadRealWeights weights name this
   = (Throws (Error "Invalid weight structure"), this)) /\
  (heads_empty weights ->
   (exists e, fst (MHSA.loadPreExtractedWeights weights name this) = Throws e) /\
   (exists e, fst (MHSA.loadRealWeights weights name this) = Throws e) /\
   (uninitialized this ->
    uninitialized (snd (MHSA.loadPreExtractedWeights weights name this)) /\
    uninitialized (snd (MHSA.loadRealWeights weights name this)))).
Proof.
  split.
  - apply absent_heads_rejected.
  - intros (w & -> & Hw).
    destruct (empty_heads_fail_per_head w name this Hw) as [E1 U1].
    destruct (empty_heads_fail_legacy w name this Hw) as [E2 U2].
    split; [eexists; exact E1|]. split; [exact E2|]. auto.
Qed.

Lemma loaders_reject_absent_or_empty_heads_witness :
  (MHSA.loadPreExtractedWeights None None Example.fresh_engine
   = (Throws (Error "Invalid pre-extracted weight structure"), Example.fresh_engine) /\
   MHSA.loadRealWeights None None Example.fresh_engine
   = (Throws (Error "Invalid weight structure"), Example.fresh_engine)) /\
  (exists e,
      fst (MHSA.loadPreExtractedWeights
             (Some (Weights.mk (Some []) None None None None None)) None
             Example.fresh_engine) = Throws e).
Proof.
  pose proof (@loaders_reject_absent_or_empty_heads None None Example.fresh_engine)
    as [Habsent _].
  pose proof (@loaders_reject_absent_or_empty_heads
                (Some (Weights.mk (Some []) None None None None None)) None
                Example.fresh_engine) as [_ Hempty].
  split.
  - apply Habsent. left. reflexivity.
  - apply Hempty. eexists. split; reflexivity.
Defined.

(** ** Random initialization *)

Section RandomInit.
Variable random : nat -> R.

Lemma randomRow_spec (scale : R) (cols n : nat) :
  length (fst (MathUtils.randomRow random scale cols n)) = cols /\
  Forall (fun x => exists k, x = (random k - 0.5) * 2 * scale)
         (fst (MathUtils.randomRow random scale cols n)).
Proof.
  revert n; induction cols as [|c IH]; intros n; simpl.
  - split; [reflexivity|constructor].
  - specialize (IH (S n)).
    destruct (MathUtils.randomRow random scale c (S n)) as [r n']. simpl in *.
    destruct IH as [Hl Hall]. split; [now rewrite Hl|].
    constructor; [now exists n|assumption].
Qed.

Lemma randomRows_spec (scale : R) (rows cols n : nat) :
  shape rows cols (fst (MathUtils.randomRows random scale rows cols n)) /\
  Forall (Forall (fun x => exists k, x = (random k - 0.5) * 2 * scale))
         (fst (MathUtils.randomRows random scale rows cols n)).
Proof.
  revert n; induction rows as [|r IH]; intros n; simpl.
  - split; [split; [reflexivity|constructor]|constructor].
  - pose proof (randomRow_spec scale cols n) as [Hl Hx].
    destruct (MathUtils.randomRow random scale cols n) as [row n1]. simpl in *.
    specialize (IH n1).
    destruct (MathUtils.randomRows random scale r cols n1) as [m n2]. simpl in *.
    destruct IH as [[Hlen Hrows] Hall].
    split; [split; [simpl; now rewrite Hlen | now constructor] | now constructor].
Qed.

Lemma randomMatrix_spec (rows cols n : nat) :
  shape rows cols (fst (MathUtils.randomMatrix random rows cols n)) /\
  xavier random rows cols (fst (MathUtils.randomMatrix random rows cols n)).
Proof.
  unfold MathUtils.randomMatrix, xavier. apply randomRows_spec.
Qed.

Lemma randomHeads_spec (count ed hd n : nat) :
  length (fst (MHSA.randomHeads random count ed hd n)) = count /\
  Forall (random_head random ed hd) (fst (MHSA.randomHeads random count ed hd n)).
Proof.
  revert n; induction count as [|c IH]; intros n; simpl.
  - split; [reflexivity|constructor].
  - pose proof (randomMatrix_spec ed hd n) as [Sq Xq].
    destruct (MathUtils.randomMatrix random ed hd n) as [wq n1]. simpl in *.
    pose proof (randomMatrix_spec ed hd n1) as [Sk Xk].
    destruct (MathUtils.randomMatrix random ed hd n1) as [wk n2]. simpl in *.
    pose proof (randomMatrix_spec ed hd n2) as [Sv Xv].
    destruct (MathUtils.randomMatrix random ed hd n2) as [wv n3]. simpl in *.
    pose proof (randomMatrix_spec hd ed n3) as [So Xo].
    destruct (MathUtils.randomMatrix random hd ed n3) as [wo n4]. simpl in *.
    specialize (IH n4).
    destruct (MHSA.randomHeads random c ed hd n4) as [hs n5]. simpl in *.
    destruct IH as [Hl Hall]. split; [now rewrite Hl|].
    constructor; [|assumption].
    unfold random_head; cbn. split_all; eauto.
Qed.

Lemma random_head_ok (ed hd : nat) (h : Head.t) :
  random_head random ed hd h -> head_ok ed hd h /\ present (Head.Wo h) = true.
Proof.
  intros ((wq & Eq & Sq & _) & (wk & Ek & Sk & _) & (wv & Ev & Sv & _) &
          (wo & Eo & So & _) & Ebq & Ebk & Ebv).
  split.
  - unfold head_ok. rewrite Eq, Ek, Ev, Eo, Ebq, Ebk, Ebv. split_all; eauto;
      try discriminate. now intros ? [= <-].
  - now rewrite Eo.
Qed.

(** The engine [createRandomMHSA] returns. *)
Lemma createRandomMHSA_spec (ed nh : nat) (T : R) (n : nat) :
  (1 <= nh)%nat ->
  exists this n',
    MHSA.createRandomMHSA random ed nh T n = Returns (this, n') /\
    MHSA.embedDim this = ed /\ MHSA.numHeads this = nh /\
    MHSA.headDim this = Nat.div ed nh /\ MHSA.temperature this = T /\
    length (MHSA.heads this) = nh /\
    Forall (random_head random ed (Nat.div ed nh)) (MHSA.heads this) /\
    (exists wo, MHSA.Wo this = Some wo /\
                shape (nh * Nat.div ed nh) ed wo /\
                xavier random (nh * Nat.div ed nh) ed wo) /\
    MHSA.bo this = None.
Proof.
  intros Hnh. unfold MHSA.createRandomMHSA, MHSA.constructor.
  destruct nh as [|m]; [lia|]. cbn [bind].
  unfold MHSA.initializeRandomWeights.
  cbn [MHSA.embedDim MHSA.numHeads MHSA.headDim MHSA.temperature].
  set (hd := Nat.div ed (S m)).
  pose proof (randomHeads_spec (S m) ed hd n) as [Hl Hall].
  destruct (MHSA.randomHeads random (S m) ed hd n) as [hs n1]. simpl fst in *.
  pose proof (randomMatrix_spec (S m * hd) ed n1) as [So Xo].
  destruct (MathUtils.randomMatrix random (S m * hd) ed n1) as [wo n2]. simpl fst in *.
  eexists _, _. split; [reflexivity|]. cbn.
  split_all; auto. exists wo. auto.
Qed.
End RandomInit.

Lemma random_engine_initialized (random : nat -> R) (ed nh : nat) (T : R) (n : nat)
  (this : MHSA.t) (n' : nat) :
  (1 <= nh)%nat -> (nh <= ed)%nat -> 0 < T ->
  MHSA.createRandomMHSA random ed nh T n = Returns (this, n') ->
  initialized this /\ every_head_has_Wo this = true.
Proof.
  intros Hnh Hed HT Hcreate.
  destruct (createRandomMHSA_spec random ed T n Hnh)
    as (this' & n'' & E & Eed & Enh & Ehd & ET & Hl & Hall & _ & Ebo).
  rewrite E in Hcreate. injection Hcreate as <- <-.
  assert (Hhd : (1 <= Nat.div ed nh)%nat).
  { apply Nat.div_str_pos. lia. }
  assert (Hevery : every_head_has_Wo this' = true).
  { unfold every_head_has_Wo. apply forallb_forall. intros h Hh.
    rewrite Forall_forall in Hall. now apply (random_head_ok (Hall h Hh)). }
  split; [|assumption].
  unfold initialized. rewrite Eed, Enh, Ehd, ET, Ebo, Hl.
  split_all; try lia; try assumption; try discriminate.
  - eapply Forall_impl; [|exact Hall]. intros h Hh. now apply (random_head_ok Hh).
  - now left.
Qed.

(** In the earlier revision a randomly initialized head has no [Wo] of
    its own. *)
Lemma legacy_random_heads_have_no_Wo (random : nat -> R) (count ed hd n : nat) :
  Forall (fun h => Head.Wo h = None)
         (fst (Legacy.randomHeads random count ed hd n)).
Proof.
  revert n; induction count as [|c IH]; intros n; simpl; [constructor|].
  destruct (MathUtils.randomMatrix random ed hd n) as [wq n1].
  destruct (MathUtils.randomMatrix random ed hd n1) as [wk n2].
  destruct (MathUtils.randomMatrix random ed hd n2) as [wv n3].
  specialize (IH n3).
  destruct (Legacy.randomHeads random c ed hd n3) as [hs n4].
  constructor; [reflexivity|exact IH].
Qed.

(** C3, as stated, fails: the head of a randomly initialized engine
    carries a [Wo] of its own. *)
Lemma random_heads_carry_Wo :
  ~ (forall (random : nat -> R) (ed nh : nat) (T : R) (n : nat)
            (this : MHSA.t) (n' : nat),
        MHSA.createRandomMHSA random ed nh T n = Returns (this, n') ->
        Forall (fun h => Head.Wo h = None) (MHSA.heads this)).
Proof.
  intros H.
  specialize (H (fun _ => 0) 1%nat 1%nat 1 0%nat _ _ eq_refl).
  inversion H as [|h hs Hh _ E]. discriminate.
Qed.

(** C3, amended.  [createRandomMHSA] derives
    [headDim = floor(embedDim / numHeads)] and builds [numHeads] heads,
    each with Xavier-initialized [Wq], [Wk], [Wv] and a [Wo] of its own
    of shape [headDim x embedDim], without biases, plus one combined [Wo]
    of shape [numHeads * headDim x embedDim]; so [forward] on a randomly
    initialized engine merges by project-then-sum. *)
Theorem random_engine_projects_then_sums (random : nat -> R) (ed nh : nat)
  (T : R) (n : nat) :
  (1 <= nh)%nat ->
  exists this n',
    MHSA.createRandomMHSA random ed nh T n = Returns (this, n') /\
    MHSA.headDim this = Nat.div ed nh /\
    length (MHSA.heads this) = nh /\
    Forall (random_head random ed (Nat.div ed nh)) (MHSA.heads this) /\
    (exists wo, MHSA.Wo this = Some wo /\
                shape (nh * Nat.div ed nh) ed wo /\
                xavier random (nh * Nat.div ed nh) ed wo) /\
    MHSA.bo this = None /\
    ((nh <= ed)%nat -> 0 < T ->
     forall X, shape (length X) ed X -> (1 <= length X)%nat ->
          exists res,
            MHSA.forward this X = Returns res /\
            Result.output res = project_then_sum this (head_outputs this X) /\
            Result.headProjectedOutputs res = Some (projected_outputs this X)).
Proof.
  intros Hnh.
  destruct (createRandomMHSA_spec random ed T n Hnh)
    as (this & n' & E & Eed & Enh & Ehd & ET & Hl & Hall & HWo & Ebo).
  exists this, n'. split_all; auto.
  intros Hed HT X HX Hs.
  destruct (@random_engine_initialized random ed nh T n this n' Hnh Hed HT E)
    as [Hinit Hevery].
  rewrite <- Eed in HX.
  exists (forward_result this X). split; [now apply forward_returns|].
  unfold forward_result, merge. cbn [Result.output Result.headProjectedOutputs].
  rewrite Hevery. split; [reflexivity|].
  pose proof (proj2 (length_collect_projected this X (MHSA.heads this)) Hevery) as Hlen.
  fold (projected_outputs this X) in Hlen.
  destruct (projected_outputs this X); [simpl in Hlen; lia|reflexivity].
Qed.

Lemma random_engine_projects_then_sums_witness :
  exists this n',
    MHSA.createRandomMHSA (fun _ => 0.5) 2 2 1 0 = Returns (this, n') /\
    MHSA.headDim this = 1%nat /\
    length (MHSA.heads this) = 2%nat /\
    Forall (random_head (fun _ => 0.5) 2 1) (MHSA.heads this) /\
    (exists wo, MHSA.Wo this = Some wo /\
                shape 2 2 wo /\ xavier (fun _ => 0.5) 2 2 wo) /\
    MHSA.bo this = None /\
    ((2 <= 2)%nat -> 0 < 1 ->
     forall X, shape (length X) 2 X -> (1 <= length X)%nat ->
          exists res,
            MHSA.forward this X = Returns res /\
            Result.output res = project_then_sum this (head_outputs this X) /\
            Result.headProjectedOutputs res = Some (projected_outputs this X)).
Proof.
  apply (@random_engine_projects_then_sums (fun _ => 0.5) 2 2 1 0). lia.
Defined.

(* ------------------------------------------------------------------ *)
(** ** Concatenate-then-project against project-then-sum *)

Lemma dot_acc (l : list (R * R)) (acc : R) :
  fold_left (fun s p => s + fst p * snd p) l acc
  = acc + fold_left (fun s p => s + fst p * snd p) l 0.
Proof.
  revert acc; induction l as [|p l IH]; intros acc; simpl.
  - lra.
  - rewrite IH. rewrite (IH (0 + _)). lra.
Qed.

Lemma dot_cons (x y : R) (a b : list R) :
  dot (x :: a) (y :: b) = x * y + dot a b.
Proof.
  unfold dot. simpl. rewrite dot_acc. lra.
Qed.

Lemma dot_app (a1 a2 b1 b2 : list R) :
  length a1 = length b1 ->
  dot (a1 ++ a2) (b1 ++ b2) = dot a1 b1 + dot a2 b2.
Proof.
  revert b1; induction a1 as [|x a1 IH]; intros [|y b1] Hlen; simpl in Hlen;
    try discriminate.
  - unfold dot at 2. simpl. lra.
  - simpl app. rewrite !dot_cons, IH by lia. lra.
Qed.

Lemma column_app (B1 B2 : matrix) (j : nat) :
  column (B1 ++ B2) j = column B1 j ++ column B2 j.
Proof.
  unfold column. apply map_app.
Qed.

Lemma length_column (B : matrix) (j : nat) : length (column B j) = length B.
Proof.
  unfold column. apply length_map.
Qed.

Lemma map_nth_seq {A : Type} (l : list A) (d : A) :
  map (fun i => nth i l d) (seq 0 (length l)) = l.
Proof.
  induction l as [|x l IH]; simpl; [reflexivity|].
  rewrite <- seq_shift, map_map. simpl. now rewrite IH.
Qed.

Lemma combine_map_same {A B C : Type} (f : A -> B) (g : A -> C) (l : list A) :
  combine (map f l) (map g l) = map (fun x => (f x, g x)) l.
Proof.
  induction l as [|x l IH]; simpl; [reflexivity|]. now rewrite IH.
Qed.

Lemma vadd_assoc (a b c : list R) : vadd (vadd a b) c = vadd a (vadd b c).
Proof.
  revert b c; induction a as [|x a IH]; intros [|y b] [|z c]; try reflexivity.
  unfold vadd in *. simpl. rewrite IH. f_equal. lra.
Qed.

Lemma madd_assoc (A B C : matrix) : madd (madd A B) C = madd A (madd B C).
Proof.
  revert B C; induction A as [|x A IH]; intros [|y B] [|z C]; try reflexivity.
  unfold madd in *. simpl. rewrite IH. f_equal. apply vadd_assoc.
Qed.

Lemma msum_cons (c0 c1 : matrix) (cs : list matrix) :
  msum (c0 :: c1 :: cs) = madd c0 (msum (c1 :: cs)).
Proof.
  cbn [msum fold_left]. revert c1; induction cs as [|c cs IH]; intros c1.
  - reflexivity.
  - cbn [fold_left]. rewrite madd_assoc. apply IH.
Qed.

Lemma map_via_nth {A B : Type} (f : A -> B) (l : list A) (d : A) :
  map f l = map (fun i => f (nth i l d)) (seq 0 (length l)).
Proof.
  induction l as [|x l IH]; simpl; [reflexivity|].
  rewrite <- seq_shift, map_map. simpl. now rewrite IH.
Qed.

Lemma hconcat_single (s hd : nat) (o : matrix) :
  shape s hd o -> hconcat s [o] = o.
Proof.
  intros [Hl _]. unfold hconcat. cbn [map concat]. rewrite <- Hl.
  transitivity (map (fun i => nth i o []) (seq 0 (length o))).
  - apply map_ext. intros i. apply app_nil_r.
  - apply map_nth_seq.
Qed.

Lemma mmul_hconcat_cons (s hd ed : nat) (o w : matrix) (outs : list matrix)
  (W : matrix) :
  shape s hd o -> shape hd ed w -> (1 <= hd)%nat -> width W = ed ->
  mmul (hconcat s (o :: outs)) (w ++ W)
  = madd (mmul o w) (mmul (hconcat s outs) W).
Proof.
  intros Ho Hw Hhd HW.
  assert (Hwidth : width (w ++ W) = ed).
  { destruct w as [|row w]; [destruct Hw; simpl in *; lia|].
    simpl. eapply shape_row; [exact Hw|now left]. }
  assert (Hleft : mmul o w
                  = map (fun i => map (fun j => dot (nth i o []) (column w j))
                                      (seq 0 ed)) (seq 0 s)).
  { unfold mmul. rewrite (shape_width Hw Hhd).
    rewrite (map_via_nth _ o []). destruct Ho as [-> _]. reflexivity. }
  rewrite Hleft. unfold mmul, hconcat. rewrite Hwidth, HW, !map_map.
  unfold madd. rewrite combine_map_same, map_map.
  apply map_ext_in. intros i Hi. apply in_seq in Hi. cbn [fst snd map concat].
  unfold vadd. rewrite combine_map_same, map_map.
  apply map_ext. intros j. cbn [fst snd].
  rewrite column_app. apply dot_app.
  rewrite length_column.
  assert (Hrow : length (nth i o []) = hd).
  { destruct Ho as [Hlo Hrows]. rewrite Forall_forall in Hrows.
    apply Hrows. apply nth_In. lia. }
  destruct Hw as [Hlw _]. lia.
Qed.

Lemma concat_project_is_project_sum (s hd ed : nat) (ow : list (matrix * matrix)) :
  (1 <= hd)%nat ->
  forall p, Forall (fun p => shape s hd (fst p) /\ shape hd ed (snd p)) (p :: ow) ->
       mmul (hconcat s (map fst (p :: ow))) (vstack (map snd (p :: ow)))
       = msum (map (fun p => mmul (fst p) (snd p)) (p :: ow)).
Proof.
  intros Hhd. induction ow as [|p' ow IH]; intros p Hall.
  - inversion Hall as [|? ? [Ho Hw] _]; subst.
    cbn [map vstack concat msum fold_left].
    rewrite app_nil_r. now rewrite (hconcat_single Ho).
  - inversion Hall as [|? ? [Ho Hw] Hrest]; subst.
    specialize (IH p' Hrest).
    change (map fst (p :: p' :: ow)) with (fst p :: map fst (p' :: ow)).
    change (vstack (map snd (p :: p' :: ow)))
      with (snd p ++ vstack (map snd (p' :: ow))).
    change (map (fun p => mmul (fst p) (snd p)) (p :: p' :: ow))
      with (mmul (fst p) (snd p) :: map (fun p => mmul (fst p) (snd p)) (p' :: ow)).
    inversion Hrest as [|? ? [Ho' Hw'] _]; subst.
    rewrite (@mmul_hconcat_cons s hd ed (fst p) (snd p) _ _ Ho Hw Hhd).
    + rewrite IH. cbn [map]. now rewrite msum_cons.
    + cbn [map vstack concat].
      destruct (snd p') as [|row w'] eqn:E; [destruct Hw'; simpl in *; lia|].
      simpl. eapply shape_row; [exact Hw'|now left].
Qed.

Lemma shape_vstack (hd ed : nat) (Ws : list matrix) :
  Forall (shape hd ed) Ws -> shape (length Ws * hd) ed (vstack Ws).
Proof.
  unfold vstack. induction 1 as [|W Ws [Hl Hrows] _ [IHl IHrows]]; simpl.
  - split; [reflexivity|constructor].
  - split.
    + rewrite length_app. lia.
    + apply Forall_app. now split.
Qed.

Lemma legacy_head_ok (ed hd : nat) (m : head_matrices) :
  matrices_ok ed hd m ->
  head_ok ed hd (legacy_head m) /\ present (Head.Wo (legacy_head m)) = false.
Proof.
  destruct m as [[[q k] v] o]. intros (Hq & Hk & Hv & Ho).
  split; [|reflexivity].
  unfold head_ok; cbn. split_all; eauto; discriminate.
Qed.

Lemma per_head_head_ok (ed hd : nat) (m : head_matrices) :
  matrices_ok ed hd m ->
  head_ok ed hd (per_head_head m) /\ present (Head.Wo (per_head_head m)) = true.
Proof.
  destruct m as [[[q k] v] o]. intros (Hq & Hk & Hv & Ho).
  split; [|reflexivity].
  unfold head_ok; cbn. split_all; eauto; try discriminate. now intros ? [= <-].
Qed.

(** The dimensions both loaders read off the first head. *)
Lemma first_Wq_dimensions (ed hd : nat) (ms : list head_matrices)
  (f : head_matrices -> Head.t) :
  (forall m, Head.Wq (f m) = Some (fst (fst (fst m)))) ->
  ms <> [] -> (1 <= ed)%nat -> Forall (matrices_ok ed hd) ms ->
  MHSA.first_Wq_cols (map f ms) = Returns hd /\
  MHSA.first_Wq_rows (map f ms) = Returns ed.
Proof.
  intros Hf Hne Hed Hall. destruct ms as [|m ms]; [congruence|].
  inversion Hall as [|? ? Hm _]; subst.
  unfold MHSA.first_Wq_cols, MHSA.first_Wq_rows. cbn [map nth_error deref bind].
  rewrite Hf. destruct m as [[[q k] v] o]. cbn [fst deref bind].
  destruct Hm as (Hq & _).
  destruct q as [|row q']; [destruct Hq; simpl in *; lia|].
  cbn [nth_error deref bind]. split.
  - f_equal. eapply shape_row; [exact Hq|now left].
  - f_equal. apply Hq.
Qed.

Lemma first_has_bq_none (ms : list head_matrices) (f : head_matrices -> Head.t) :
  (forall m, Head.bq (f m) = None) -> ms <> [] ->
  MHSA.first_has_bq (map f ms) = Returns false.
Proof.
  intros Hf Hne. destruct ms as [|m ms]; [congruence|].
  unfold MHSA.first_has_bq. cbn [map nth_error deref bind]. now rewrite Hf.
Qed.

Lemma loadRealWeights_legacy (ed hd : nat) (ms : list head_matrices)
  (name : option string) (this : MHSA.t) :
  ms <> [] -> (1 <= ed)%nat -> Forall (matrices_ok ed hd) ms ->
  MHSA.loadRealWeights (Some (legacy_weights ms)) name this
  = (Returns tt,
     MHSA.mk ed (length ms) hd (MHSA.temperature this) (map legacy_head ms)
             (Some (vstack (map snd ms))) None true name false).
Proof.
  intros Hne Hed Hall.
  destruct (@first_Wq_dimensions ed hd ms legacy_head) as [Hc Hr]; auto.
  { now intros [[[q k] v] o]. }
  unfold MHSA.loadRealWeights, legacy_weights.
  cbn [Weights.heads Weights.Wo Weights.bo].
  unfold MHSA.mbind, MHSA.lift, MHSA.assign.
  rewrite Hc, Hr, first_has_bq_none; auto.
  2:{ now intros [[[q k] v] o]. }
  rewrite copy_heads, length_map. reflexivity.
Qed.

Lemma loadPreExtractedWeights_per_head (ed hd : nat) (ms : list head_matrices)
  (name : option string) (this : MHSA.t) :
  ms <> [] -> (1 <= ed)%nat -> Forall (matrices_ok ed hd) ms ->
  MHSA.loadPreExtractedWeights (Some (per_head_weights ms)) name this
  = (Returns tt,
     MHSA.mk ed (length ms) hd (MHSA.temperature this) (map per_head_head ms)
             None None true
             (if truthy_string name then name
              else Some "Pre-extracted Model"%string) false).
Proof.
  intros Hne Hed Hall.
  destruct (@first_Wq_dimensions ed hd ms per_head_head) as [Hc Hr]; auto.
  { now intros [[[q k] v] o]. }
  unfold MHSA.loadPreExtractedWeights, per_head_weights.
  cbn [Weights.heads Weights.Wo Weights.bo Weights.config Weights.modelConfig
       Weights.model_name MHSA.config_field MHSA.config_or truthy_string].
  unfold MHSA.mbind, MHSA.lift, MHSA.assign.
  rewrite Hc, Hr, first_has_bq_none; auto.
  2:{ now intros [[[q k] v] o]. }
  rewrite copy_heads, length_map. reflexivity.
Qed.

Lemma legacy_engine_initialized (ed hd : nat) (ms : list head_matrices) (T : R)
  (name : option string) :
  ms <> [] -> (1 <= ed)%nat -> (1 <= hd)%nat -> 0 < T ->
  Forall (matrices_ok ed hd) ms ->
  let e := MHSA.mk ed (length ms) hd T (map legacy_head ms)
                   (Some (vstack (map snd ms))) None true name false in
  initialized e /\ every_head_has_Wo e = false.
Proof.
  intros Hne Hed Hhd HT Hall e.
  assert (Hlen : (1 <= length ms)%nat) by (destruct ms; [congruence|simpl; lia]).
  split.
  - unfold initialized, e;
      cbn [MHSA.embedDim MHSA.headDim MHSA.numHeads MHSA.heads MHSA.temperature
           MHSA.bo MHSA.Wo].
    rewrite length_map. split_all; auto.
    + apply Forall_map. eapply Forall_impl; [|exact Hall].
      intros m Hm. now apply legacy_head_ok.
    + discriminate.
    + right. eexists. split; [reflexivity|].
      replace (length ms) with (length (map snd ms)) by apply length_map.
      apply shape_vstack.
      apply Forall_map. eapply Forall_impl; [|exact Hall].
      intros [[[q k] v] o] Hm. apply Hm.
  - unfold every_head_has_Wo, e; cbn. destruct ms as [|m ms]; [congruence|].
    inversion Hall as [|? ? Hm _]; subst. cbn.
    now rewrite (proj2 (@legacy_head_ok ed hd m Hm)).
Qed.

Lemma per_head_engine_initialized' (ed hd : nat) (ms : list head_matrices) (T : R)
  (name : option string) :
  ms <> [] -> (1 <= ed)%nat -> (1 <= hd)%nat -> 0 < T ->
  Forall (matrices_ok ed hd) ms ->
  let e := MHSA.mk ed (length ms) hd T (map per_head_head ms)
                   None None true name false in
  initialized e /\ every_head_has_Wo e = true.
Proof.
  intros Hne Hed Hhd HT Hall e.
  assert (Hlen : (1 <= length ms)%nat) by (destruct ms; [congruence|simpl; lia]).
  assert (Hevery : every_head_has_Wo e = true).
  { unfold every_head_has_Wo, e; cbn. apply forallb_forall. intros h Hh.
    apply in_map_iff in Hh as (m & <- & Hm).
    rewrite Forall_forall in Hall. now apply (@per_head_head_ok ed hd m (Hall m Hm)). }
  split; [|assumption].
  unfold initialized. rewrite Hevery. unfold e;
    cbn [MHSA.embedDim MHSA.headDim MHSA.numHeads MHSA.heads MHSA.temperature
         MHSA.bo MHSA.Wo].
  rewrite length_map. split_all; auto.
  - apply Forall_map. eapply Forall_impl; [|exact Hall].
    intros m Hm. now apply per_head_head_ok.
  - discriminate.
Qed.

(** The output of a head does not depend on where its output projection
    is kept. *)
Lemma head_output_same (e1 e2 : MHSA.t) (X : matrix) (m : head_matrices) :
  MHSA.headDim e1 = MHSA.headDim e2 ->
  MHSA.temperature e1 = MHSA.temperature e2 ->
  HeadOutput.output (head_result e1 X (legacy_head m))
  = HeadOutput.output (head_result e2 X (per_head_head m)).
Proof.
  intros Hhd HT. destruct m as [[[q k] v] o].
  unfold head_result, head_scores. cbn. now rewrite Hhd, HT.
Qed.

(** *** The earlier revision *)

Lemma legacy_forward_head_returns (this : Legacy.t) (s : nat) (X : matrix) (h : Head.t) :
  let cur := Legacy.as_current this in
  shape s (MHSA.embedDim cur) X ->
  head_ok (MHSA.embedDim cur) (MHSA.headDim cur) h -> no_bias h ->
  (1 <= s)%nat -> (1 <= MHSA.embedDim cur)%nat -> (1 <= MHSA.headDim cur)%nat ->
  0 < MHSA.temperature cur ->
  Legacy.forward_head this X h = Returns (legacy_head_result cur X h).
Proof.
  intros cur HX Hok (Ebq & Ebk & Ebv) Hs Hed Hhd HT.
  destruct Hok as (Hq & Hk & Hv & _).
  destruct Hq as (wq & Eq & Sq), Hk as (wk & Ek & Sk), Hv as (wv & Ev & Sv).
  unfold Legacy.forward_head, legacy_head_result, head_result.
  rewrite Eq, Ek, Ev, Ebq, Ebk, Ebv. cbn [deref bind project matrix_of].
  rewrite (matmul_returns HX Sq Hs Hed). cbn [bind].
  rewrite (matmul_returns HX Sk Hs Hed). cbn [bind].
  rewrite (matmul_returns HX Sv Hs Hed). cbn [bind].
  pose proof (shape_mmul HX Sq Hed) as SQ.
  pose proof (shape_mmul HX Sk Hed) as SK.
  pose proof (shape_mmul HX Sv Hed) as SV.
  fold cur.
  destruct (scaledDotProductAttention_returns cur SQ SK SV Hs Hhd HT) as [-> _].
  reflexivity.
Qed.

Lemma legacy_forward_heads_from (this : Legacy.t) (s : nat) (X : matrix)
  (hs : list Head.t) :
  let cur := Legacy.as_current this in
  shape s (MHSA.embedDim cur) X ->
  (1 <= s)%nat -> (1 <= MHSA.embedDim cur)%nat -> (1 <= MHSA.headDim cur)%nat ->
  0 < MHSA.temperature cur ->
  Forall (fun h => head_ok (MHSA.embedDim cur) (MHSA.headDim cur) h /\ no_bias h) hs ->
  forall (a : list HeadOutput.t) (b : list matrix),
    foldM (fun st head =>
             let '(headOutputs, headAttentions) := st in
             ho <- Legacy.forward_head this X head ;;
             Returns (headOutputs ++ [ho],
                      headAttentions ++ [HeadOutput.attentionWeights ho]))
          hs (a, b)
    = Returns (a ++ map (legacy_head_result cur X) hs,
               b ++ map HeadOutput.attentionWeights
                        (map (legacy_head_result cur X) hs)).
Proof.
  intros cur HX Hs Hed Hhd HT. induction 1 as [|h hs [Hh Hb] _ IH]; intros a b.
  - simpl. now rewrite !app_nil_r.
  - cbn [foldM].
    rewrite (@legacy_forward_head_returns this s X h HX Hh Hb Hs Hed Hhd HT).
    cbn [bind]. rewrite IH. cbn [map]. rewrite <- !app_assoc. reflexivity.
Qed.

(** [forward] of the earlier revision concatenates and projects. *)
Lemma legacy_forward_returns (this : Legacy.t) (X : matrix) (wo : matrix) :
  let cur := Legacy.as_current this in
  heads_ready cur -> Forall no_bias (Legacy.heads this) ->
  Legacy.Wo this = Some wo ->
  shape (MHSA.numHeads cur * MHSA.headDim cur) (MHSA.embedDim cur) wo ->
  shape (length X) (MHSA.embedDim cur) X -> (1 <= length X)%nat ->
  exists res,
    Legacy.forward this X = Returns res /\
    Result.output res = concat_then_project cur (length X) (head_outputs cur X).
Proof.
  intros cur (Hed & Hhd & Hnh & Hn & HT & Hheads) Hnb HWo Swo HX Hs.
  assert (HT' : 0 < MHSA.temperature cur) by lra.
  pose proof (@shape_head_outputs cur _ X _ HX Hs Hed Hhd Hheads) as Houts.
  unfold Legacy.forward, Legacy.forward_heads.
  change (Legacy.numHeads this) with (MHSA.numHeads cur). rewrite Hn.
  change (MHSA.heads cur) with (Legacy.heads this) in *.
  rewrite foldM_ext with
    (f' := fun st h =>
             head <- deref (nth_error ([] ++ Legacy.heads this) h) ;;
             (let '(headOutputs, headAttentions) := st in
              ho <- Legacy.forward_head this X head ;;
              Returns (headOutputs ++ [ho],
                       headAttentions ++ [HeadOutput.attentionWeights ho]))).
  2:{ intros [a b] h _. reflexivity. }
  rewrite (@foldM_indices Head.t _
             (fun st head =>
                let '(headOutputs, headAttentions) := st in
                ho <- Legacy.forward_head this X head ;;
                Returns (headOutputs ++ [ho],
                         headAttentions ++ [HeadOutput.attentionWeights ho]))
             (Legacy.heads this) 0 [] ([], []) eq_refl).
  rewrite (@legacy_forward_heads_from this (length X) X (Legacy.heads this)
             HX Hs Hed Hhd HT').
  2:{ apply Forall_forall. intros h Hh. rewrite Forall_forall in Hheads, Hnb. auto. }
  cbn [app bind]. fold cur.
  assert (Hmap : map HeadOutput.output (map (legacy_head_result cur X) (Legacy.heads this))
                 = head_outputs cur X).
  { unfold head_outputs. rewrite map_map. reflexivity. }
  rewrite concatenate_returns.
  - cbn [bind]. rewrite HWo. cbn [deref bind]. rewrite Hmap.
    pose proof (shape_hconcat Houts) as Hcs. rewrite length_map in Hcs.
    change (map (fun h => HeadOutput.output (head_result cur X h)) (Legacy.heads this))
      with (head_outputs cur X) in Hcs.
    rewrite <- Hn in Hcs.
    rewrite (matmul_returns Hcs Swo Hs) by nia.
    eexists. split; [reflexivity|].
    cbn [Result.output]. unfold concat_then_project.
    change (MHSA.Wo cur) with (Legacy.Wo this). now rewrite HWo.
  - now rewrite !length_map.
  - apply Forall_map. rewrite Forall_map in Houts.
    eapply Forall_impl; [|exact Houts]. simpl. intros h Hh. apply Hh.
Qed.

Lemma legacy_loadRealWeights_legacy (ed hd : nat) (ms : list head_matrices)
  (name : option string) (this : Legacy.t) :
  ms <> [] -> (1 <= ed)%nat -> Forall (matrices_ok ed hd) ms ->
  Legacy.loadRealWeights (Some (legacy_weights ms)) name this
  = (Returns tt,
     Legacy.mk ed (length ms) hd (Legacy.temperature this) (map legacy_head ms)
               (Some (vstack (map snd ms))) true name).
Proof.
  intros Hne Hed Hall.
  destruct (@first_Wq_dimensions ed hd ms legacy_head) as [Hc Hr]; auto.
  { now intros [[[q k] v] o]. }
  unfold Legacy.loadRealWeights, legacy_weights.
  cbn [Weights.heads Weights.Wo]. rewrite Hc, Hr, length_map.
  do 2 f_equal. rewrite map_map. apply map_ext. now intros [[[q k] v] o].
Qed.

Lemma initialized_heads_ready (this : MHSA.t) : initialized this -> heads_ready this.
Proof.
  intros (Hed & Hhd & Hnh & Hn & HT & Hheads & _). unfold heads_ready.
  split_all; assumption.
Qed.

Lemma legacy_heads_no_bias (ms : list head_matrices) :
  Forall no_bias (map legacy_head ms).
Proof.
  apply Forall_map, Forall_forall. intros [[[q k] v] o] _. now split.
Qed.

(** C2.  Take heads given by their [Wq], [Wk], [Wv] and output
    projection, without biases.  The engine loaded by [loadRealWeights]
    from the legacy file, whose combined [Wo] is the output projections
    stacked vertically, and the engine loaded by
    [loadPreExtractedWeights] from the per-head file give, at the same
    temperature and on the same embeddings, equal [forward] outputs: the
    first by concatenate-then-project, the second by project-then-sum.
    The earlier revision of the class, loaded from the legacy file, gives
    that output too. *)
Theorem legacy_and_per_head_weights_agree (ms : list head_matrices) (ed hd : nat)
  (name0 name1 name2 : option string) (this0 : Legacy.t) (this1 this2 : MHSA.t)
  (X : matrix) :
  ms <> [] -> (1 <= ed)%nat -> (1 <= hd)%nat ->
  Forall (matrices_ok ed hd) ms ->
  Legacy.temperature this0 = MHSA.temperature this1 ->
  MHSA.temperature this1 = MHSA.temperature this2 ->
  0 < MHSA.temperature this1 ->
  shape (length X) ed X -> (1 <= length X)%nat ->
  exists e0 e1 e2 r0 r1 r2,
    Legacy.loadRealWeights (Some (legacy_weights ms)) name0 this0 = (Returns tt, e0) /\
    MHSA.loadRealWeights (Some (legacy_weights ms)) name1 this1 = (Returns tt, e1) /\
    MHSA.loadPreExtractedWeights (Some (per_head_weights ms)) name2 this2
    = (Returns tt, e2) /\
    Legacy.forward e0 X = Returns r0 /\
    MHSA.forward e1 X = Returns r1 /\
    MHSA.forward e2 X = Returns r2 /\
    Result.output r1 = concat_then_project e1 (length X) (head_outputs e1 X) /\
    Result.output r2 = project_then_sum e2 (head_outputs e2 X) /\
    Result.output r0 = Result.output r1 /\
    Result.output r1 = Result.output r2.
Proof.
  intros Hne Hed Hhd Hall HT01 HT12 HT HX Hs.
  pose proof (@legacy_loadRealWeights_legacy ed hd ms name0 this0 Hne Hed Hall) as L0.
  pose proof (@loadRealWeights_legacy ed hd ms name1 this1 Hne Hed Hall) as L1.
  pose proof (@loadPreExtractedWeights_per_head ed hd ms name2 this2 Hne Hed Hall) as L2.
  rewrite <- HT12 in L2. rewrite HT01 in L0.
  set (T := MHSA.temperature this1) in *.
  set (e0 := Legacy.mk ed (length ms) hd T (map legacy_head ms)
                       (Some (vstack (map snd ms))) true name0) in *.
  set (e1 := MHSA.mk ed (length ms) hd T (map legacy_head ms)
                     (Some (vstack (map snd ms))) None true name1 false) in *.
  set (e2 := MHSA.mk ed (length ms) hd T (map per_head_head ms) None None true
                     (if truthy_string name2 then name2
                      else Some "Pre-extracted Model"%string) false) in *.
  destruct (@legacy_engine_initialized ed hd ms T name0 Hne Hed Hhd HT Hall)
    as [I0 _]. change (initialized (Legacy.as_current e0)) in I0.
  destruct (@legacy_engine_initialized ed hd ms T name1 Hne Hed Hhd HT Hall)
    as [I1 E1]. fold e1 in I1, E1.
  destruct (@per_head_engine_initialized' ed hd ms T
              (if truthy_string name2 then name2
               else Some "Pre-extracted Model"%string) Hne Hed Hhd HT Hall)
    as [I2 E2]. fold e2 in I2, E2.
  assert (Swo : shape (length ms * hd) ed (vstack (map snd ms))).
  { destruct I1 as (_ & _ & _ & _ & _ & _ & _ & [Hf|(wo & [= <-] & Swo)]);
      [congruence|exact Swo]. }
  destruct (@legacy_forward_returns e0 X (vstack (map snd ms))
              (initialized_heads_ready I0) (legacy_heads_no_bias ms) eq_refl
              Swo HX Hs) as (r0 & F0 & O0).
  exists e0, e1, e2, r0, (forward_result e1 X), (forward_result e2 X).
  split; [exact L0|]. split; [exact L1|]. split; [exact L2|].
  split; [exact F0|].
  split; [now apply forward_returns|]. split; [now apply forward_returns|].
  unfold forward_result, merge. cbn [Result.output]. rewrite E1, E2.
  split; [reflexivity|]. split; [reflexivity|]. split; [exact O0|].
  (* the two merges, on the same head outputs *)
  set (out := fun m : head_matrices =>
                HeadOutput.output (head_result e1 X (legacy_head m))).
  assert (Houts1 : head_outputs e1 X = map out ms).
  { unfold head_outputs, e1; cbn. now rewrite map_map. }
  assert (Houts2 : head_outputs e2 X = map out ms).
  { unfold head_outputs, e2; cbn. rewrite map_map. apply map_ext.
    intros m. symmetry. now apply head_output_same. }
  rewrite Houts1, Houts2.
  unfold concat_then_project, project_then_sum.
  change (MHSA.Wo e1) with (Some (vstack (map snd ms))).
  change (MHSA.bo e2) with (@None (list R)).
  change (MHSA.heads e2) with (map per_head_head ms).
  cbn [matrix_of].
  rewrite combine_map_same, map_map.
  set (ow := map (fun m : head_matrices => (out m, snd m)) ms).
  assert (Hfst : map out ms = map fst ow) by (unfold ow; now rewrite map_map).
  assert (Hsnd : map snd ms = map snd ow) by (unfold ow; now rewrite map_map).
  assert (Hmm : map (fun x : head_matrices =>
                       mmul (fst (out x, per_head_head x))
                            (matrix_of (Head.Wo (snd (out x, per_head_head x))))) ms
                = map (fun p => mmul (fst p) (snd p)) ow).
  { unfold ow. rewrite map_map. apply map_ext. now intros [[[q k] v] o]. }
  rewrite Hfst, Hsnd, Hmm.
  assert (Hsh : Forall (fun p => shape (length X) hd (fst p) /\ shape hd ed (snd p)) ow).
  { unfold ow. apply Forall_map. eapply Forall_impl; [|exact Hall].
    intros m Hm. cbn [fst snd]. split.
    - unfold out.
      apply (@shape_head_output e1 (length X) X (legacy_head m)); auto.
      now apply legacy_head_ok.
    - destruct m as [[[q k] v] o]. apply Hm. }
  destruct ow as [|p ow'] eqn:Eow.
  { destruct ms; [congruence|discriminate]. }
  now apply (@concat_project_is_project_sum (length X) hd ed ow' Hhd p).
Qed.

Lemma two_heads_ok : Forall (matrices_ok 2 1) Example.two_heads.
Proof.
  unfold Example.two_heads.
  apply Forall_cons; [|apply Forall_cons; [|apply Forall_nil]];
    cbn; split_all; shape_tac.
Defined.

Lemma legacy_and_per_head_weights_agree_witness :
  exists e0 e1 e2 r0 r1 r2,
    Legacy.loadRealWeights (Some (legacy_weights Example.two_heads)) None
                           Example.fresh_legacy_engine = (Returns tt, e0) /\
    MHSA.loadRealWeights (Some (legacy_weights Example.two_heads)) None
                         Example.fresh_engine = (Returns tt, e1) /\
    MHSA.loadPreExtractedWeights (Some (per_head_weights Example.two_heads)) None
                                 Example.fresh_engine = (Returns tt, e2) /\
    Legacy.forward e0 Example.X = Returns r0 /\
    MHSA.forward e1 Example.X = Returns r1 /\
    MHSA.forward e2 Example.X = Returns r2 /\
    Result.output r1
    = concat_then_project e1 (length Example.X) (head_outputs e1 Example.X) /\
    Result.output r2 = project_then_sum e2 (head_outputs e2 Example.X) /\
    Result.output r0 = Result.output r1 /\
    Result.output r1 = Result.output r2.
Proof.
  apply (@legacy_and_per_head_weights_agree Example.two_heads 2 1 None None None
           Example.fresh_legacy_engine Example.fresh_engine Example.fresh_engine
           Example.X).
  - discriminate.
  - lia.
  - lia.
  - exact two_heads_ok.
  - reflexivity.
  - reflexivity.
  - cbn. lra.
  - exact example_X_shape.
  - cbn. lia.
Defined.

(* ------------------------------------------------------------------ *)
(** * Further properties of [js/math.js] *)

(** ** Inner products and columns *)

Lemma foldM_app {A St : Type} (f : St -> A -> outcome St) (l1 l2 : list A) (s : St) :
  foldM f (l1 ++ l2) s = (s' <- foldM f l1 s ;; foldM f l2 s').
Proof.
  revert s; induction l1 as [|x r IH]; intros s; simpl.
  - reflexivity.
  - destruct (f s x); simpl; auto.
Qed.

Lemma dot_nil_l (b : list R) : Linalg.dot [] b = 0.
Proof. reflexivity. Qed.

Lemma dot_nil_r (a : list R) : Linalg.dot a [] = 0.
Proof. destruct a; reflexivity. Qed.

Lemma dot_comm (a b : list R) : Linalg.dot a b = Linalg.dot b a.
Proof.
  revert b; induction a as [|x a IH]; intros [|y b]; try reflexivity.
  rewrite !dot_cons, IH. lra.
Qed.

Lemma nth_map_seq (f : nat -> R) (n j : nat) :
  (j < n)%nat -> nth j (map f (seq 0 n)) 0 = f j.
Proof.
  intros Hj. rewrite (nth_indep _ 0 (f 0%nat)) by (rewrite length_map, length_seq; lia).
  rewrite map_nth, seq_nth by lia. reflexivity.
Qed.

Lemma column_nth (A : matrix) (i j : nat) :
  nth i (column A j) 0 = nth j (nth i A []) 0.
Proof.
  unfold column.
  transitivity (nth i (map (fun r : list R => nth j r 0) A)
                    ((fun r : list R => nth j r 0) [])).
  - f_equal. destruct j; reflexivity.
  - exact (map_nth (fun r : list R => nth j r 0) A [] i).
Qed.

(** Column [i] of the transpose is row [i]. *)
Lemma column_mtranspose (r c : nat) (A : matrix) (i : nat) :
  shape r c A -> (i < r)%nat -> column (mtranspose A) i = nth i A [].
Proof.
  intros HA Hi. assert (Hr : (1 <= r)%nat) by lia.
  unfold mtranspose. rewrite (shape_width HA Hr).
  unfold column at 1. rewrite map_map.
  assert (Hrow : length (nth i A []) = c).
  { eapply shape_nth_error; [exact HA|]. apply nth_error_nth_some. destruct HA. lia. }
  transitivity (map (fun j => nth j (nth i A []) 0) (seq 0 (length (nth i A [])))).
  - rewrite Hrow. apply map_ext. intros j. apply column_nth.
  - apply map_nth_seq.
Qed.

Lemma mtranspose_involutive (r c : nat) (A : matrix) :
  shape r c A -> (1 <= r)%nat -> (1 <= c)%nat -> mtranspose (mtranspose A) = A.
Proof.
  intros HA Hr Hc. pose proof (shape_mtranspose HA Hr) as HT.
  unfold mtranspose at 1. rewrite (shape_width HT Hc).
  transitivity (map (fun i => nth i A []) (seq 0 (length A))).
  - destruct HA as [Hl Hrows]. rewrite Hl.
    apply map_ext_in. intros i Hi. apply in_seq in Hi.
    apply (@column_mtranspose r c A i); [now split|lia].
  - apply map_nth_seq.
Qed.

(** X1.  Transposing twice gives the matrix back: for a matrix of at
    least one row and one column both calls of [transpose] return, the
    second one the matrix itself. *)
Theorem transpose_round_trip (r c : nat) (A : matrix) :
  shape r c A -> (1 <= r)%nat -> (1 <= c)%nat ->
  exists T,
    MathUtils.transpose A = Returns T /\ shape c r T /\
    MathUtils.transpose T = Returns A.
Proof.
  intros HA Hr Hc. exists (mtranspose A).
  pose proof (shape_mtranspose HA Hr) as HT.
  split; [now apply (transpose_returns HA)|]. split; [exact HT|].
  rewrite (transpose_returns HT Hc). f_equal.
  now apply (mtranspose_involutive HA).
Qed.

Lemma transpose_round_trip_witness :
  exists T,
    MathUtils.transpose Example.X = Returns T /\ shape 2 3 T /\
    MathUtils.transpose T = Returns Example.X.
Proof.
  apply (@transpose_round_trip 3 2 Example.X).
  - exact example_X_shape.
  - lia.
  - lia.
Defined.

Lemma column_mmul (k c : nat) (A B : matrix) (j : nat) :
  shape k c B -> (1 <= k)%nat -> (j < c)%nat ->
  column (mmul A B) j = map (fun a => Linalg.dot a (column B j)) A.
Proof.
  intros HB Hk Hj. unfold mmul, column at 1. rewrite map_map, (shape_width HB Hk).
  apply map_ext. intros a. now rewrite (nth_map_seq (fun j => Linalg.dot a (column B j))).
Qed.

Lemma mtranspose_mmul (r k c : nat) (A B : matrix) :
  shape r k A -> shape k c B -> (1 <= r)%nat -> (1 <= k)%nat ->
  mtranspose (mmul A B) = mmul (mtranspose B) (mtranspose A).
Proof.
  intros HA HB Hr Hk.
  pose proof (shape_mmul HA HB Hk) as HAB.
  pose proof (shape_mtranspose HA Hr) as HAT.
  assert (E1 : mtranspose (mmul A B) = map (column (mmul A B)) (seq 0 c)).
  { unfold mtranspose. now rewrite (shape_width HAB Hr). }
  assert (E2 : mmul (mtranspose B) (mtranspose A)
               = map (fun j => map (fun i => Linalg.dot (column B j)
                                                       (column (mtranspose A) i))
                                   (seq 0 r)) (seq 0 c)).
  { unfold mmul. rewrite (shape_width HAT Hk).
    replace (mtranspose B) with (map (column B) (seq 0 c))
      by (unfold mtranspose; now rewrite (shape_width HB Hk)).
    now rewrite map_map. }
  rewrite E1, E2.
  apply map_ext_in. intros j Hj. apply in_seq in Hj.
  rewrite (@column_mmul k c A B j HB Hk) by lia.
  rewrite (map_via_nth _ A []). destruct HA as [Hl Hrows]. rewrite Hl.
  apply map_ext_in. intros i Hi. apply in_seq in Hi.
  rewrite (@column_mtranspose r k A i); [|now split|lia].
  apply dot_comm.
Qed.

(** X2.  The transpose of a product is the product of the transposes in
    the other order: for [A] of shape [r x k] and [B] of shape [k x c]
    with positive dimensions, [transpose(matmul(A, B))] and
    [matmul(transpose(B), transpose(A))] return the same matrix. *)
Theorem transpose_of_product (r k c : nat) (A B : matrix) :
  shape r k A -> shape k c B ->
  (1 <= r)%nat -> (1 <= k)%nat -> (1 <= c)%nat ->
  exists P,
    (AB <- MathUtils.matmul A B ;; MathUtils.transpose AB) = Returns P /\
    (BT <- MathUtils.transpose B ;; AT <- MathUtils.transpose A ;;
     MathUtils.matmul BT AT) = Returns P /\
    shape c r P.
Proof.
  intros HA HB Hr Hk Hc.
  pose proof (shape_mmul HA HB Hk) as HAB.
  pose proof (shape_mtranspose HA Hr) as HAT.
  pose proof (shape_mtranspose HB Hk) as HBT.
  exists (mtranspose (mmul A B)). split; [|split].
  - rewrite (matmul_returns HA HB Hr Hk). cbn [bind].
    apply (transpose_returns HAB Hr).
  - rewrite (transpose_returns HB Hk). cbn [bind].
    rewrite (transpose_returns HA Hr). cbn [bind].
    rewrite (matmul_returns HBT HAT Hc Hk). f_equal. symmetry.
    now apply (mtranspose_mmul HA HB).
  - now apply shape_mtranspose.
Qed.

Lemma transpose_of_product_witness :
  exists P,
    (AB <- MathUtils.matmul Example.X [[1; 0]; [0; 1]] ;; MathUtils.transpose AB)
    = Returns P /\
    (BT <- MathUtils.transpose [[1; 0]; [0; 1]] ;;
     AT <- MathUtils.transpose Example.X ;;
     MathUtils.matmul BT AT) = Returns P /\
    shape 2 3 P.
Proof.
  apply (@transpose_of_product 3 2 2 Example.X [[1; 0]; [0; 1]]).
  - exact example_X_shape.
  - shape_tac.
  - lia.
  - lia.
  - lia.
Defined.

(** ** Products of three matrices *)

Lemma dot_map_linear (f g : nat -> R) (x : R) (idx : list nat) :
  forall v, Linalg.dot (map (fun l => x * f l + g l) idx) v
            = x * Linalg.dot (map f idx) v + Linalg.dot (map g idx) v.
Proof.
  induction idx as [|l idx IH]; intros [|y v]; cbn [map].
  - unfold Linalg.dot; simpl; lra.
  - unfold Linalg.dot; simpl; lra.
  - rewrite !dot_nil_r. lra.
  - rewrite !dot_cons, IH. lra.
Qed.

Lemma dot_map_zero (idx : list nat) (v : list R) :
  Linalg.dot (map (fun _ => 0) idx) v = 0.
Proof.
  revert v; induction idx as [|l idx IH]; intros [|y v]; cbn [map];
    try reflexivity.
  rewrite dot_cons, IH. lra.
Qed.

Lemma column_cons (b : list R) (B : matrix) (l : nat) :
  column (b :: B) l = nth l b 0 :: column B l.
Proof. reflexivity. Qed.

(** The bilinear form [a . B . v], computed from either side. *)
Lemma dot_row_matrix_vector (m : nat) (v : list R) (a : list R) :
  forall B, length a = length B -> Forall (fun b => length b = m) B ->
       Linalg.dot (map (fun l => Linalg.dot a (column B l)) (seq 0 m)) v
       = Linalg.dot a (map (fun b => Linalg.dot b v) B).
Proof.
  induction a as [|x a IH]; intros [|b B] Hlen HB; simpl in Hlen; try discriminate.
  - cbn [map]. rewrite dot_nil_l.
    rewrite (map_ext _ (fun _ => 0)) by (intros l; apply dot_nil_l).
    apply dot_map_zero.
  - inversion HB as [|? ? Hb HB']; subst. cbn [map]. rewrite dot_cons.
    rewrite (map_ext _ (fun l => x * nth l b 0 + Linalg.dot a (column B l)))
      by (intros l; rewrite column_cons; apply dot_cons).
    rewrite dot_map_linear, IH by (auto; lia).
    now rewrite map_nth_seq.
Qed.

Lemma mmul_assoc (r k m c : nat) (A B C : matrix) :
  shape r k A -> shape k m B -> shape m c C -> (1 <= k)%nat -> (1 <= m)%nat ->
  mmul (mmul A B) C = mmul A (mmul B C).
Proof.
  intros HA HB HC Hk Hm.
  pose proof (shape_mmul HB HC Hm) as HBC.
  unfold mmul at 1 3. rewrite (shape_width HC Hm), (shape_width HBC Hk).
  unfold mmul at 1. rewrite map_map, (shape_width HB Hk).
  apply map_ext_in. intros a Ha.
  apply map_ext_in. intros j Hj. apply in_seq in Hj.
  rewrite (@column_mmul m c B C j HC Hm) by lia.
  apply dot_row_matrix_vector.
  - rewrite (@shape_row r k A a HA Ha). symmetry. apply HB.
  - apply HB.
Qed.

(** X3.  [matmul] is associative: for shapes [r x k], [k x m] and
    [m x c] with positive [r], [k], [m], multiplying from the left first
    and from the right first return the same matrix. *)
Theorem matmul_associative (r k m c : nat) (A B C : matrix) :
  shape r k A -> shape k m B -> shape m c C ->
  (1 <= r)%nat -> (1 <= k)%nat -> (1 <= m)%nat ->
  exists P,
    (AB <- MathUtils.matmul A B ;; MathUtils.matmul AB C) = Returns P /\
    (BC <- MathUtils.matmul B C ;; MathUtils.matmul A BC) = Returns P /\
    shape r c P.
Proof.
  intros HA HB HC Hr Hk Hm.
  pose proof (shape_mmul HA HB Hk) as HAB.
  pose proof (shape_mmul HB HC Hm) as HBC.
  exists (mmul (mmul A B) C). split; [|split].
  - rewrite (matmul_returns HA HB Hr Hk). cbn [bind].
    apply (matmul_returns HAB HC Hr Hm).
  - rewrite (matmul_returns HB HC Hk Hm). cbn [bind].
    rewrite (matmul_returns HA HBC Hr Hk). f_equal. symmetry.
    now apply (mmul_assoc HA HB HC).
  - now apply (shape_mmul HAB HC).
Qed.

Lemma matmul_associative_witness :
  exists P,
    (AB <- MathUtils.matmul Example.X [[1; 0]; [0; 1]] ;;
     MathUtils.matmul AB [[1]; [1]]) = Returns P /\
    (BC <- MathUtils.matmul [[1; 0]; [0; 1]] [[1]; [1]] ;;
     MathUtils.matmul Example.X BC) = Returns P /\
    shape 3 1 P.
Proof.
  apply (@matmul_associative 3 2 2 1 Example.X [[1; 0]; [0; 1]] [[1]; [1]]).
  - exact example_X_shape.
  - shape_tac.
  - shape_tac.
  - lia.
  - lia.
  - lia.
Defined.

(** ** [matmul] on shapes that do not fit *)

Lemma matmul_cell_from_le (j : nat) (As : list R) :
  forall (Bs : matrix) (preA : list R) (preB : matrix) (acc : R),
    length preA = length preB ->
    (length As <= length Bs)%nat ->
    Forall (fun r => (j < length r)%nat) Bs ->
    foldM (fun sum k =>
             Bk <- deref (nth_error (preB ++ Bs) k) ;;
             a <- num (nth_error (preA ++ As) k) ;;
             b <- num (nth_error Bk j) ;;
             Returns (sum + a * b))
          (seq (length preA) (length As)) acc
    = Returns (fold_left (fun s p => s + fst p * snd p) (combine As (column Bs j)) acc).
Proof.
  induction As as [|a As IH]; intros Bs preA preB acc Hpre Hlen HB.
  - reflexivity.
  - destruct Bs as [|b Bs]; [simpl in Hlen; lia|]. simpl in Hlen.
    cbn [length seq foldM].
    rewrite Hpre at 1. rewrite !nth_error_app2 by lia.
    rewrite Hpre, Nat.sub_diag. cbn [nth_error deref num bind].
    inversion HB as [|? ? Hb HBs]; subst.
    rewrite (nth_error_nth_some b 0 Hb). cbn [num bind].
    specialize (IH Bs (preA ++ [a]) (preB ++ [b]) (acc + a * nth j b 0)).
    rewrite <- !app_assoc in IH. cbn [app] in IH.
    rewrite !length_app in IH. cbn [length] in IH.
    replace (length preA + 1)%nat with (S (length preA)) in IH by lia.
    rewrite <- Hpre. rewrite IH; [|lia|lia|assumption].
    reflexivity.
Qed.

Lemma dot_firstn (a b : list R) :
  Linalg.dot a (firstn (length a) b) = Linalg.dot a b.
Proof.
  unfold Linalg.dot. f_equal.
  revert b; induction a as [|x a IH]; intros [|y b]; simpl; try reflexivity.
  now rewrite IH.
Qed.

(** X4.  [matmul] does not compare the shapes: when [B] has more rows
    than [A] has columns, the rows beyond are ignored and the call
    returns what it returns on the first [k] rows of [B]. *)
Theorem matmul_ignores_surplus_rows (r k c : nat) (A B : matrix) :
  shape r k A -> (1 <= r)%nat -> (1 <= k)%nat ->
  (k <= length B)%nat -> Forall (fun row => length row = c) B ->
  MathUtils.matmul A B = Returns (mmul A (firstn k B)) /\
  MathUtils.matmul A (firstn k B) = Returns (mmul A (firstn k B)) /\
  shape r c (mmul A (firstn k B)).
Proof.
  intros HA Hr Hk HlB HB.
  assert (HBk : shape k c (firstn k B)).
  { split; [rewrite length_firstn; lia|].
    apply Forall_forall. intros row Hrow. rewrite Forall_forall in HB.
    apply HB. rewrite <- (firstn_skipn k B). apply in_or_app. now left. }
  split; [|split].
  - destruct A as [|A0 A']; [destruct HA; simpl in *; lia|].
    destruct B as [|B0 B']; [simpl in HlB; lia|].
    assert (HA0 : length A0 = k) by (eapply shape_row; [exact HA|now left]).
    assert (HB0 : length B0 = c) by (inversion HB; assumption).
    unfold MathUtils.matmul, mmul.
    rewrite (shape_width HBk Hk), HA0, HB0.
    apply mapM_pure. intros Ai HAi.
    assert (HlAi : length Ai = k) by (eapply shape_row; eauto).
    apply mapM_pure. intros j Hj. apply in_seq in Hj.
    unfold MathUtils.matmul_cell. rewrite <- HlAi.
    etransitivity.
    { apply (@matmul_cell_from_le j Ai (B0 :: B') [] [] 0); auto.
      - lia.
      - eapply Forall_impl; [|exact HB]. simpl. lia. }
    f_equal. fold (Linalg.dot Ai (column (B0 :: B') j)).
    rewrite <- dot_firstn. f_equal.
    unfold column. rewrite firstn_map. now rewrite HlAi.
  - apply (matmul_returns HA HBk Hr Hk).
  - apply (shape_mmul HA HBk Hk).
Qed.

Lemma matmul_ignores_surplus_rows_witness :
  MathUtils.matmul [[1; 2]] [[1]; [1]; [5]] = Returns (mmul [[1; 2]] [[1]; [1]]) /\
  MathUtils.matmul [[1; 2]] (firstn 2 [[1]; [1]; [5]])
  = Returns (mmul [[1; 2]] [[1]; [1]]) /\
  shape 1 1 (mmul [[1; 2]] [[1]; [1]]).
Proof.
  apply (@matmul_ignores_surplus_rows 1 2 1 [[1; 2]] [[1]; [1]; [5]]).
  - shape_tac.
  - lia.
  - lia.
  - cbn. lia.
  - repeat constructor.
Defined.

Lemma mapM_throws_first {A B : Type} (f : A -> outcome B) (x : A) (l : list A)
  (e : js_error) :
  f x = Throws e -> mapM f (x :: l) = Throws e.
Proof.
  intros H. cbn [mapM]. now rewrite H.
Qed.

(** X5.  When [B] has fewer rows than [A] has columns (and at least one
    row and one column), [matmul] throws the [TypeError] of reading the
    missing row. *)
Theorem matmul_throws_on_missing_rows (r k m c : nat) (A B : matrix) :
  shape r k A -> shape m c B ->
  (1 <= r)%nat -> (1 <= m)%nat -> (m < k)%nat -> (1 <= c)%nat ->
  MathUtils.matmul A B = Throws TypeError.
Proof.
  intros HA HB Hr Hm Hmk Hc.
  destruct A as [|A0 A']; [destruct HA; simpl in *; lia|].
  destruct B as [|B0 B']; [destruct HB; simpl in *; lia|].
  assert (HA0 : length A0 = k) by (eapply shape_row; [exact HA|now left]).
  assert (HB0 : length B0 = c) by (eapply shape_row; [exact HB|now left]).
  unfold MathUtils.matmul. rewrite HA0, HB0.
  apply mapM_throws_first.
  destruct c as [|c']; [lia|]. cbn [seq]. apply mapM_throws_first.
  unfold MathUtils.matmul_cell.
  replace k with (m + (k - m))%nat by lia. rewrite seq_app, foldM_app.
  set (B := B0 :: B') in *.
  assert (HlB : length B = m) by apply HB.
  rewrite foldM_ext with
    (f' := fun sum k0 =>
             Bk <- deref (nth_error ([] ++ B) k0) ;;
             a <- num (nth_error ([] ++ firstn m A0) k0) ;;
             b <- num (nth_error Bk 0) ;;
             Returns (sum + a * b)).
  2:{ intros s k0 Hk0. apply in_seq in Hk0. cbn [app].
      now rewrite nth_error_firstn, (proj2 (Nat.ltb_lt k0 m)) by lia. }
  pose proof (@matmul_cell_from 0%nat (firstn m A0) B [] [] 0) as Hcell.
  rewrite length_firstn, HA0 in Hcell.
  replace (Nat.min m k) with m in Hcell by lia.
  cbn [length] in Hcell. rewrite Hcell.
  - cbn [bind]. destruct (k - m)%nat as [|d] eqn:Ed; [lia|].
    cbn [seq foldM Nat.add].
    replace (nth_error B m) with (@None (list R)); [reflexivity|].
    symmetry. apply nth_error_None. rewrite HlB. lia.
  - reflexivity.
  - lia.
  - destruct HB as [_ HB]. eapply Forall_impl; [|exact HB]. simpl. lia.
Qed.

Lemma matmul_throws_on_missing_rows_witness :
  MathUtils.matmul [[1; 2; 3]] [[1]; [1]] = Throws TypeError.
Proof.
  apply (@matmul_throws_on_missing_rows 1 3 2 1 [[1; 2; 3]] [[1]; [1]]).
  - shape_tac.
  - shape_tac.
  - lia.
  - lia.
  - lia.
  - lia.
Defined.

(** ** [add], [zeros] and [scale] *)

Lemma vadd_via_nth (c : nat) (a b : list R) :
  length a = c -> length b = c ->
  map (fun j => nth j a 0 + nth j b 0) (seq 0 c) = vadd a b.
Proof.
  revert a b; induction c as [|c IH]; intros [|x a] [|y b] Ha Hb;
    simpl in Ha, Hb; try discriminate; [reflexivity|].
  cbn [seq map]. rewrite <- seq_shift, map_map. cbn [nth].
  unfold vadd in *. cbn [combine map fst snd]. f_equal.
  apply IH; lia.
Qed.

Lemma add_rows_from (c : nat) (As : matrix) :
  forall (Bs preB : matrix),
    length As = length Bs ->
    Forall (fun row => length row = c) As ->
    Forall (fun row => length row = c) Bs ->
    mapM (fun iAi =>
            mapM (fun j =>
                    Bi <- deref (nth_error (preB ++ Bs) (fst iAi)) ;;
                    a <- num (nth_error (snd iAi) j) ;;
                    b <- num (nth_error Bi j) ;;
                    Returns (a + b))
                 (seq 0 c))
         (combine (seq (length preB) (length As)) As)
    = Returns (madd As Bs).
Proof.
  induction As as [|Ai As IH]; intros [|Bi Bs] preB Hlen HA HB;
    simpl in Hlen; try discriminate; [reflexivity|].
  inversion HA as [|? ? HAi HAs]; subst. inversion HB as [|? ? HBi HBs]; subst.
  cbn [length seq combine mapM fst snd].
  rewrite (mapM_pure _ (fun j => nth j Ai 0 + nth j Bi 0)).
  2:{ intros j Hj. apply in_seq in Hj.
      rewrite nth_error_app2 by lia. rewrite Nat.sub_diag. cbn [nth_error deref bind].
      rewrite (nth_error_nth_some Ai 0) by lia. cbn [num bind].
      rewrite (nth_error_nth_some Bi 0) by lia. reflexivity. }
  cbn [bind].
  specialize (IH Bs (preB ++ [Bi])).
  rewrite <- app_assoc, length_app in IH. cbn [app length] in IH.
  replace (length preB + 1)%nat with (S (length preB)) in IH by lia.
  rewrite IH by (auto; lia). cbn [bind].
  unfold madd. cbn [combine map fst snd]. now rewrite vadd_via_nth.
Qed.

Lemma add_returns (r c : nat) (A B : matrix) :
  shape r c A -> shape r c B -> MathUtils.add A B = Returns (madd A B).
Proof.
  intros [HlA HA] [HlB HB]. unfold MathUtils.add.
  destruct A as [|A0 A']; [destruct B; [reflexivity|simpl in *; lia]|].
  assert (HA0 : length A0 = c) by (inversion HA; assumption).
  rewrite HA0. apply (@add_rows_from c (A0 :: A') B []); auto. lia.
Qed.

Lemma vadd_comm (a b : list R) : vadd a b = vadd b a.
Proof.
  revert b; induction a as [|x a IH]; intros [|y b]; try reflexivity.
  unfold vadd in *. cbn [combine map fst snd]. rewrite IH. f_equal. lra.
Qed.

Lemma madd_comm (A B : matrix) : madd A B = madd B A.
Proof.
  revert B; induction A as [|x A IH]; intros [|y B]; try reflexivity.
  unfold madd in *. cbn [combine map fst snd]. rewrite IH. f_equal. apply vadd_comm.
Qed.

(** X6.  On two matrices of the same shape [add] returns their
    elementwise sum, of that shape, and the order of the arguments does
    not matter. *)
Theorem add_commutes (r c : nat) (A B : matrix) :
  shape r c A -> shape r c B ->
  MathUtils.add A B = Returns (madd A B) /\
  MathUtils.add B A = Returns (madd A B) /\
  shape r c (madd A B).
Proof.
  intros HA HB. split; [|split].
  - now apply (add_returns HA HB).
  - rewrite (add_returns HB HA). f_equal. apply madd_comm.
  - now apply shape_madd.
Qed.

Lemma add_commutes_witness :
  MathUtils.add [[1; 2]] [[3; 4]] = Returns (madd [[1; 2]] [[3; 4]]) /\
  MathUtils.add [[3; 4]] [[1; 2]] = Returns (madd [[1; 2]] [[3; 4]]) /\
  shape 1 2 (madd [[1; 2]] [[3; 4]]).
Proof.
  apply (@add_commutes 1 2 [[1; 2]] [[3; 4]]); shape_tac.
Defined.

Lemma shape_zeros (r c : nat) : shape r c (MathUtils.zeros r c).
Proof.
  unfold MathUtils.zeros. split.
  - now rewrite length_map, length_seq.
  - apply Forall_map, Forall_forall. intros i _. apply repeat_length.
Qed.

Lemma vadd_zeros (row : list R) : vadd row (repeat 0 (length row)) = row.
Proof.
  induction row as [|x row IH]; [reflexivity|].
  unfold vadd in *. cbn [length repeat combine map fst snd]. rewrite IH. f_equal. lra.
Qed.

Lemma madd_zero_rows (c : nat) (A : matrix) :
  Forall (fun row => length row = c) A ->
  forall s, madd A (map (fun _ => repeat 0 c) (seq s (length A))) = A.
Proof.
  induction 1 as [|row A Hrow _ IH]; intros s; [reflexivity|].
  cbn [length seq map]. unfold madd in *. cbn [combine map fst snd].
  rewrite IH. f_equal. rewrite <- Hrow. apply vadd_zeros.
Qed.

Lemma madd_zeros (r c : nat) (A : matrix) :
  shape r c A -> madd A (MathUtils.zeros r c) = A.
Proof.
  intros [Hl Hrows]. subst r. unfold MathUtils.zeros. now apply madd_zero_rows.
Qed.

(** X7.  [zeros(r, c)] is the neutral element of [add] on matrices of
    shape [r x c]: added on either side it gives the matrix back. *)
Theorem zeros_neutral_for_add (r c : nat) (A : matrix) :
  shape r c A ->
  MathUtils.add A (MathUtils.zeros r c) = Returns A /\
  MathUtils.add (MathUtils.zeros r c) A = Returns A.
Proof.
  intros HA. pose proof (shape_zeros r c) as HZ. split.
  - rewrite (add_returns HA HZ). f_equal. now apply madd_zeros.
  - rewrite (add_returns HZ HA). f_equal. rewrite madd_comm. now apply madd_zeros.
Qed.

Lemma zeros_neutral_for_add_witness :
  MathUtils.add Example.X (MathUtils.zeros 3 2) = Returns Example.X /\
  MathUtils.add (MathUtils.zeros 3 2) Example.X = Returns Example.X.
Proof.
  apply (@zeros_neutral_for_add 3 2 Example.X). exact example_X_shape.
Defined.

Lemma shape_scale (r c : nat) (A : matrix) (s : R) :
  shape r c A -> shape r c (MathUtils.scale A s).
Proof.
  intros HA. unfold MathUtils.scale. eapply shape_map_rows; [exact HA|].
  intros row Hrow. now rewrite length_map.
Qed.

Lemma madd_scale (A B : matrix) (s : R) :
  madd (MathUtils.scale A s) (MathUtils.scale B s) = MathUtils.scale (madd A B) s.
Proof.
  revert B; induction A as [|a A IH]; intros [|b B]; try reflexivity.
  unfold madd, MathUtils.scale in *. cbn [combine map fst snd]. rewrite IH. f_equal.
  clear IH. revert b; induction a as [|x a IHa]; intros [|y b]; try reflexivity.
  unfold vadd in *. cbn [combine map fst snd]. rewrite IHa. f_equal. lra.
Qed.

(** X8.  Scaling twice is scaling by the product, and scaling commutes
    with [add]: for matrices of the same shape,
    [add(scale(A, s), scale(B, s))] returns [scale] of what [add(A, B)]
    returns. *)
Theorem scale_composes (r c : nat) (A B : matrix) (s t : R) :
  shape r c A -> shape r c B ->
  MathUtils.scale (MathUtils.scale A s) t = MathUtils.scale A (s * t) /\
  exists S,
    MathUtils.add A B = Returns S /\
    MathUtils.add (MathUtils.scale A s) (MathUtils.scale B s)
    = Returns (MathUtils.scale S s).
Proof.
  intros HA HB. split.
  - unfold MathUtils.scale. rewrite map_map. apply map_ext. intros row.
    rewrite map_map. apply map_ext. intros x. lra.
  - exists (madd A B). split; [now apply (add_returns HA HB)|].
    rewrite (add_returns (shape_scale s HA) (shape_scale s HB)).
    f_equal. apply madd_scale.
Qed.

Lemma scale_composes_witness :
  MathUtils.scale (MathUtils.scale [[1; 2]] 2) 3 = MathUtils.scale [[1; 2]] (2 * 3) /\
  exists S,
    MathUtils.add [[1; 2]] [[3; 4]] = Returns S /\
    MathUtils.add (MathUtils.scale [[1; 2]] 2) (MathUtils.scale [[3; 4]] 2)
    = Returns (MathUtils.scale S 2).
Proof.
  apply (@scale_composes 1 2 [[1; 2]] [[3; 4]] 2 3); shape_tac.
Defined.

(** ** [dot], [norm], [normalize] and [cosineSimilarity] *)

Lemma dot_loop_from (a : list R) :
  forall (b pre : list R) (acc : R),
    (length a <= length b)%nat ->
    foldM (fun sum ia =>
             bi <- num (nth_error (pre ++ b) (fst ia)) ;;
             Returns (sum + snd ia * bi))
          (combine (seq (length pre) (length a)) a) acc
    = Returns (fold_left (fun s p => s + fst p * snd p) (combine a b) acc).
Proof.
  induction a as [|x a IH]; intros [|y b] pre acc Hlen; simpl in Hlen;
    try lia; try reflexivity.
  cbn [length seq combine foldM fst snd].
  rewrite nth_error_app2 by lia. rewrite Nat.sub_diag. cbn [nth_error num bind].
  specialize (IH b (pre ++ [y]) (acc + x * y)).
  rewrite <- app_assoc, length_app in IH. cbn [app length] in IH.
  replace (length pre + 1)%nat with (S (length pre)) in IH by lia.
  rewrite IH by lia. reflexivity.
Qed.

Lemma dot_returns (a b : list R) :
  (length a <= length b)%nat -> MathUtils.dot a b = Returns (Linalg.dot a b).
Proof.
  intros H. unfold MathUtils.dot, Linalg.dot. now apply (@dot_loop_from a b [] 0).
Qed.

Lemma dot_loop_short (b : list R) :
  forall (a pre : list R) (acc : R),
    (length a < length b)%nat ->
    foldM (fun sum ib =>
             ai <- num (nth_error (pre ++ a) (fst ib)) ;;
             Returns (sum + snd ib * ai))
          (combine (seq (length pre) (length b)) b) acc
    = NonNumber.
Proof.
  induction b as [|y b IH]; intros a pre acc Hlen; simpl in Hlen; [lia|].
  cbn [length seq combine foldM fst snd].
  rewrite nth_error_app2 by lia. rewrite Nat.sub_diag.
  destruct a as [|x a]; [reflexivity|]. cbn [nth_error num bind].
  specialize (IH a (pre ++ [x]) (acc + y * x)).
  rewrite <- app_assoc, length_app in IH. cbn [app length] in IH.
  replace (length pre + 1)%nat with (S (length pre)) in IH by lia.
  apply IH. simpl in Hlen. lia.
Qed.

(** X9.  On vectors of the same length [dot] returns the inner product
    and is symmetric. *)
Theorem dot_symmetric (a b : list R) :
  length a = length b ->
  MathUtils.dot a b = Returns (Linalg.dot a b) /\
  MathUtils.dot b a = Returns (Linalg.dot a b).
Proof.
  intros H. split.
  - apply dot_returns. lia.
  - rewrite dot_returns by lia. f_equal. apply dot_comm.
Qed.

Lemma dot_symmetric_witness :
  MathUtils.dot [1; 2] [3; 4] = Returns (Linalg.dot [1; 2] [3; 4]) /\
  MathUtils.dot [3; 4] [1; 2] = Returns (Linalg.dot [1; 2] [3; 4]).
Proof.
  apply (@dot_symmetric [1; 2] [3; 4]). reflexivity.
Defined.

(** X10.  On vectors of different lengths [dot] is not symmetric: the
    loop runs over the first argument, so with the shorter vector first
    the surplus of the second is ignored and a number is returned, and
    with the longer vector first the sum takes in [undefined] and is
    [NaN]. *)
Theorem dot_unequal_lengths (a b : list R) :
  (length a < length b)%nat ->
  MathUtils.dot a b = Returns (Linalg.dot a (firstn (length a) b)) /\
  MathUtils.dot b a = NonNumber.
Proof.
  intros H. split.
  - rewrite dot_returns by lia. now rewrite dot_firstn.
  - unfold MathUtils.dot. now apply (@dot_loop_short b a [] 0).
Qed.

Lemma dot_unequal_lengths_witness :
  MathUtils.dot [1] [1; 2] = Returns (Linalg.dot [1] (firstn 1 [1; 2])) /\
  MathUtils.dot [1; 2] [1] = NonNumber.
Proof.
  apply (@dot_unequal_lengths [1] [1; 2]). cbn. lia.
Defined.

Lemma sumsq_acc (v : list R) (acc : R) :
  fold_left (fun sum val => sum + val * val) v acc
  = acc + fold_left (fun sum val => sum + val * val) v 0.
Proof.
  revert acc; induction v as [|x v IH]; intros acc; simpl.
  - lra.
  - rewrite IH. rewrite (IH (0 + _)). lra.
Qed.

Lemma sumsq_cons (x : R) (v : list R) :
  fold_left (fun sum val => sum + val * val) (x :: v) 0
  = x * x + fold_left (fun sum val => sum + val * val) v 0.
Proof.
  simpl. rewrite sumsq_acc. lra.
Qed.

Lemma sumsq_nonneg (v : list R) :
  0 <= fold_left (fun sum val => sum + val * val) v 0.
Proof.
  induction v as [|x v IH]; [simpl; lra|]. rewrite sumsq_cons. nra.
Qed.

Lemma sumsq_is_dot (v : list R) :
  fold_left (fun sum val => sum + val * val) v 0 = Linalg.dot v v.
Proof.
  induction v as [|x v IH]; [reflexivity|]. now rewrite sumsq_cons, dot_cons, IH.
Qed.

Lemma sumsq_zero (v : list R) :
  fold_left (fun sum val => sum + val * val) v 0 = 0 <-> Forall (fun x => x = 0) v.
Proof.
  induction v as [|x v IH]; [split; [constructor|reflexivity]|].
  rewrite sumsq_cons. pose proof (sumsq_nonneg v) as Hv. split.
  - intros H. assert (x = 0) by nra. constructor; [assumption|].
    apply IH. nra.
  - intros H. inversion H as [|? ? Hx Hv0]; subst. apply IH in Hv0. nra.
Qed.

Lemma norm_square (v : list R) :
  MathUtils.norm v * MathUtils.norm v = Linalg.dot v v.
Proof.
  unfold MathUtils.norm. rewrite sqrt_sqrt by apply sumsq_nonneg. apply sumsq_is_dot.
Qed.

(** X11.  [norm] is the square root of [dot(v, v)]: it is never
    negative, [dot(v, v)] returns its square, and it is zero exactly on
    the vectors whose entries are all zero. *)
Theorem norm_is_root_of_dot (v : list R) :
  0 <= MathUtils.norm v /\
  MathUtils.dot v v = Returns (MathUtils.norm v * MathUtils.norm v) /\
  (MathUtils.norm v = 0 <-> Forall (fun x => x = 0) v).
Proof.
  split; [apply sqrt_pos|]. split.
  - rewrite dot_returns by lia. now rewrite norm_square.
  - rewrite <- sumsq_zero. unfold MathUtils.norm. split.
    + intros H. apply sqrt_eq_0; [apply sumsq_nonneg|assumption].
    + intros ->. apply sqrt_0.
Qed.

Lemma sumsq_map_div (v : list R) (n : R) :
  n <> 0 ->
  fold_left (fun sum val => sum + val * val) (map (fun val => val / n) v) 0
  = fold_left (fun sum val => sum + val * val) v 0 / (n * n).
Proof.
  intros Hn. induction v as [|x v IH]; [simpl; field; assumption|].
  cbn [map]. rewrite !sumsq_cons, IH. field. assumption.
Qed.

Lemma norm_normalize (v : list R) :
  0 < MathUtils.norm v -> MathUtils.norm (MathUtils.normalize v) = 1.
Proof.
  intros Hn. unfold MathUtils.normalize.
  destruct (Rlt_dec 0 (MathUtils.norm v)); [|contradiction].
  unfold MathUtils.norm at 1. rewrite sumsq_map_div by lra.
  rewrite norm_square, <- sumsq_is_dot.
  assert (Hpos : 0 < fold_left (fun sum val => sum + val * val) v 0).
  { rewrite sumsq_is_dot, <- norm_square. nra. }
  replace (_ / _) with 1 by (field; lra). apply sqrt_1.
Qed.

(** X12.  [normalize] gives a vector of norm 1 when the norm of its
    argument is positive, returns a vector of norm zero unchanged, and
    normalizing twice is normalizing once. *)
Theorem normalize_properties (v : list R) :
  (0 < MathUtils.norm v -> MathUtils.norm (MathUtils.normalize v) = 1) /\
  (MathUtils.norm v = 0 -> MathUtils.normalize v = v) /\
  MathUtils.normalize (MathUtils.normalize v) = MathUtils.normalize v.
Proof.
  split; [apply norm_normalize|]. split.
  - intros H0. unfold MathUtils.normalize.
    destruct (Rlt_dec 0 (MathUtils.norm v)); [lra|reflexivity].
  - destruct (Rlt_dec 0 (MathUtils.norm v)) as [Hpos|Hnot].
    + pose proof (norm_normalize v Hpos) as H1.
      unfold MathUtils.normalize at 1. rewrite H1.
      destruct (Rlt_dec 0 1); [|lra].
      rewrite <- (map_id (MathUtils.normalize v)) at 2.
      apply map_ext. intros x. field.
    + assert (E : MathUtils.normalize v = v).
      { unfold MathUtils.normalize.
        destruct (Rlt_dec 0 (MathUtils.norm v)); [contradiction|reflexivity]. }
      now rewrite !E.
Qed.

Lemma normalize_properties_witness :
  MathUtils.norm (MathUtils.normalize [3; 4]) = 1.
Proof.
  apply (proj1 (normalize_properties [3; 4])).
  unfold MathUtils.norm. cbn [fold_left]. apply sqrt_lt_R0. lra.
Defined.


(** The inequality of Cauchy and Schwarz. *)
Lemma dot_square_le (a : list R) :
  forall b, Linalg.dot a b * Linalg.dot a b <= Linalg.dot a a * Linalg.dot b b.
Proof.
  induction a as [|x a IH]; intros [|y b].
  - unfold Linalg.dot; simpl; lra.
  - rewrite !dot_nil_l. lra.
  - rewrite !dot_nil_r. lra.
  - rewrite !dot_cons. specialize (IH b).
    pose proof (sumsq_nonneg a) as HA. rewrite sumsq_is_dot in HA.
    pose proof (sumsq_nonneg b) as HB. rewrite sumsq_is_dot in HB.
    set (D := Linalg.dot a b) in *. set (A := Linalg.dot a a) in *.
    set (B := Linalg.dot b b) in *.
    assert (Hsq : (2 * (x * y) * D) * (2 * (x * y) * D)
                  <= (x * x * B + y * y * A) * (x * x * B + y * y * A)).
    { assert (H1 : (x * y) * (x * y) * (D * D) <= (x * y) * (x * y) * (A * B))
        by (apply Rmult_le_compat_l; [nra|assumption]).
      pose proof (Rle_0_sqr (x * x * B - y * y * A)) as H2. unfold Rsqr in H2.
      nra. }
    assert (Ht : 0 <= x * x * B + y * y * A) by nra.
    assert (Hle : 2 * (x * y) * D <= x * x * B + y * y * A) by nra.
    nra.
Qed.

Lemma cosine_in_range (a b : list R) :
  0 < MathUtils.norm a -> 0 < MathUtils.norm b ->
  -1 <= Linalg.dot a b / (MathUtils.norm a * MathUtils.norm b) <= 1.
Proof.
  intros Ha Hb.
  pose proof (dot_square_le a b) as Hcs.
  rewrite <- (norm_square a), <- (norm_square b) in Hcs.
  set (na := MathUtils.norm a) in *. set (nb := MathUtils.norm b) in *.
  set (d := Linalg.dot a b) in *.
  assert (Hp : 0 < na * nb) by nra.
  assert (Habs : - (na * nb) <= d <= na * nb) by nra.
  split.
  - apply Rmult_le_reg_r with (na * nb); [assumption|].
    replace (d / (na * nb) * (na * nb)) with d by (field; nra). lra.
  - apply Rmult_le_reg_r with (na * nb); [assumption|].
    replace (d / (na * nb) * (na * nb)) with d by (field; nra). lra.
Qed.

(** X13.  On vectors of the same length [cosineSimilarity] returns a
    number between -1 and 1, the same in either order of the
    arguments. *)
Theorem cosineSimilarity_bounded_symmetric (a b : list R) :
  length a = length b ->
  exists c,
    MathUtils.cosineSimilarity a b = Returns c /\
    MathUtils.cosineSimilarity b a = Returns c /\
    -1 <= c <= 1.
Proof.
  intros Hlen. unfold MathUtils.cosineSimilarity.
  rewrite !dot_returns by lia. cbn [bind]. rewrite (dot_comm b a).
  destruct (Rlt_dec 0 (MathUtils.norm a)) as [Ha|Ha];
    destruct (Rlt_dec 0 (MathUtils.norm b)) as [Hb|Hb].
  - eexists. split; [reflexivity|]. split.
    + now rewrite (Rmult_comm (MathUtils.norm b)).
    + now apply cosine_in_range.
  - exists 0. repeat split; lra.
  - exists 0. repeat split; lra.
  - exists 0. repeat split; lra.
Qed.

Lemma cosineSimilarity_bounded_symmetric_witness :
  exists c,
    MathUtils.cosineSimilarity [1; 0] [0; 1] = Returns c /\
    MathUtils.cosineSimilarity [0; 1] [1; 0] = Returns c /\
    -1 <= c <= 1.
Proof.
  apply (@cosineSimilarity_bounded_symmetric [1; 0] [0; 1]). reflexivity.
Defined.

(** X14.  A vector of positive norm has cosine similarity 1 with itself,
    and a vector of norm zero has cosine similarity 0 with every vector
    that is not longer. *)
Theorem cosineSimilarity_self_and_zero (a b : list R) :
  (0 < MathUtils.norm a -> MathUtils.cosineSimilarity a a = Returns 1) /\
  (MathUtils.norm a = 0 -> (length b <= length a)%nat ->
   MathUtils.cosineSimilarity b a = Returns 0).
Proof.
  split.
  - intros Ha. unfold MathUtils.cosineSimilarity.
    rewrite dot_returns by lia. cbn [bind].
    destruct (Rlt_dec 0 (MathUtils.norm a)); [|contradiction].
    rewrite <- norm_square. f_equal. field. lra.
  - intros Ha Hlen. unfold MathUtils.cosineSimilarity.
    rewrite dot_returns by lia. cbn [bind].
    destruct (Rlt_dec 0 (MathUtils.norm b)); [|reflexivity].
    destruct (Rlt_dec 0 (MathUtils.norm a)); [lra|reflexivity].
Qed.

Lemma cosineSimilarity_self_and_zero_witness :
  MathUtils.cosineSimilarity [3; 4] [3; 4] = Returns 1.
Proof.
  apply (proj1 (cosineSimilarity_self_and_zero [3; 4] [])).
  unfold MathUtils.norm. cbn [fold_left]. apply sqrt_lt_R0. lra.
Defined.


(** ** [averageAttentions] *)

Lemma entry_sum_acc (i j : nat) (Ms : list matrix) (acc : R) :
  fold_left (fun sum M => sum + nth j (nth i M []) 0) Ms acc = acc + entry_sum i j Ms.
Proof.
  unfold entry_sum. revert acc; induction Ms as [|M Ms IH]; intros acc; simpl.
  - lra.
  - rewrite IH. rewrite (IH (0 + _)). lra.
Qed.

Lemma entry_sum_cons (i j : nat) (M : matrix) (Ms : list matrix) :
  entry_sum i j (M :: Ms) = nth j (nth i M []) 0 + entry_sum i j Ms.
Proof.
  unfold entry_sum at 1. simpl. rewrite entry_sum_acc. lra.
Qed.

Lemma entry_loop_returns (n i j : nat) (Ms : list matrix) :
  Forall (shape n n) Ms -> (i < n)%nat -> (j < n)%nat ->
  forall acc,
    foldM (fun sum Ah =>
             row <- deref (nth_error Ah i) ;;
             x <- num (nth_error row j) ;;
             Returns (sum + x))
          Ms acc
    = Returns (fold_left (fun sum M => sum + nth j (nth i M []) 0) Ms acc).
Proof.
  intros Hall Hi Hj. induction Hall as [|M Ms HM _ IH]; intros acc; [reflexivity|].
  cbn [foldM fold_left].
  assert (Hrow : nth_error M i = Some (nth i M [])).
  { apply nth_error_nth_some. destruct HM. lia. }
  rewrite Hrow. cbn [deref bind].
  rewrite (nth_error_nth_some (nth i M []) 0).
  2:{ rewrite (@shape_nth_error _ _ _ _ _ HM Hrow). lia. }
  cbn [num bind]. apply IH.
Qed.

Lemma averageAttentions_returns (n : nat) (Ms : list matrix) :
  Ms <> [] -> Forall (shape n n) Ms ->
  MathUtils.averageAttentions Ms = Returns (mean_matrix n Ms).
Proof.
  intros Hne Hall. destruct Ms as [|M0 Ms']; [congruence|].
  assert (HM0 : length M0 = n) by (inversion Hall as [|? ? [H _] _]; exact H).
  unfold MathUtils.averageAttentions, mean_matrix. rewrite HM0.
  apply mapM_pure. intros i Hi. apply in_seq in Hi.
  apply mapM_pure. intros j Hj. apply in_seq in Hj.
  rewrite (@entry_loop_returns n i j (M0 :: Ms') Hall) by lia.
  reflexivity.
Qed.

Lemma row_sum_map_add (f g : nat -> R) (idx : list nat) :
  row_sum (map (fun j => f j + g j) idx) = row_sum (map f idx) + row_sum (map g idx).
Proof.
  induction idx as [|j idx IH]; cbn [map].
  - unfold row_sum; simpl; lra.
  - rewrite !row_sum_cons, IH. lra.
Qed.

Lemma row_sum_entry_sums (n i : nat) (Ms : list matrix) :
  Forall (fun M => shape n n M /\ stochastic M) Ms -> (i < n)%nat ->
  row_sum (map (fun j => entry_sum i j Ms) (seq 0 n)) = INR (length Ms).
Proof.
  intros Hall Hi. induction Hall as [|M Ms [HM HS] _ IH].
  - cbn [length INR]. induction (seq 0 n) as [|j idx IHi]; [reflexivity|].
    cbn [map]. rewrite row_sum_cons, IHi. unfold entry_sum. simpl. lra.
  - rewrite (map_ext _ (fun j => nth j (nth i M []) 0 + entry_sum i j Ms))
      by (intros j; apply entry_sum_cons).
    rewrite row_sum_map_add, IH.
    assert (Hrow : nth_error M i = Some (nth i M [])).
    { apply nth_error_nth_some. destruct HM. lia. }
    rewrite <- (@shape_nth_error _ _ _ _ _ HM Hrow) at 1. rewrite map_nth_seq.
    unfold stochastic in HS. rewrite Forall_forall in HS.
    destruct (HS _ (nth_error_In _ _ Hrow)) as [-> _].
    change (length (M :: Ms)) with (S (length Ms)). rewrite S_INR. lra.
Qed.

Lemma entry_sum_bounds (n i j : nat) (Ms : list matrix) :
  Forall (fun M => shape n n M /\ stochastic M) Ms -> (i < n)%nat -> (j < n)%nat ->
  0 <= entry_sum i j Ms <= INR (length Ms).
Proof.
  intros Hall Hi Hj. induction Hall as [|M Ms [HM HS] _ IH].
  - unfold entry_sum. simpl. lra.
  - rewrite entry_sum_cons. change (length (M :: Ms)) with (S (length Ms)).
    rewrite S_INR.
    assert (Hrow : nth_error M i = Some (nth i M [])).
    { apply nth_error_nth_some. destruct HM. lia. }
    unfold stochastic in HS. rewrite Forall_forall in HS.
    destruct (HS _ (nth_error_In _ _ Hrow)) as [_ Hent].
    rewrite Forall_forall in Hent.
    assert (Hx : 0 <= nth j (nth i M []) 0 <= 1).
    { apply Hent. apply nth_In. rewrite (@shape_nth_error _ _ _ _ _ HM Hrow). lia. }
    lra.
Qed.

Lemma average_of_stochastic (n : nat) (Ms : list matrix) :
  Ms <> [] -> Forall (fun M => shape n n M /\ stochastic M) Ms ->
  exists avg,
    MathUtils.averageAttentions Ms = Returns avg /\
    shape n n avg /\ stochastic avg.
Proof.
  intros Hne Hall.
  assert (Hshapes : Forall (shape n n) Ms).
  { eapply Forall_impl; [|exact Hall]. now intros M [H _]. }
  assert (Hlen : 0 < INR (length Ms)).
  { apply lt_0_INR. destruct Ms; [congruence|simpl; lia]. }
  exists (mean_matrix n Ms). split; [now apply averageAttentions_returns|].
  unfold mean_matrix. split.
  - split; [now rewrite length_map, length_seq|].
    apply Forall_map, Forall_forall. intros i _. now rewrite length_map, length_seq.
  - unfold stochastic. apply Forall_map, Forall_forall. intros i Hi.
    apply in_seq in Hi. split.
    + rewrite <- (map_map (fun j => entry_sum i j Ms) (fun x => x / INR (length Ms))).
      rewrite row_sum_map_div, (@row_sum_entry_sums n i Ms Hall) by lia. field. lra.
    + apply Forall_map, Forall_forall. intros j Hj. apply in_seq in Hj.
      pose proof (@entry_sum_bounds n i j Ms Hall ltac:(lia) ltac:(lia)) as Hb.
      split.
      * apply Rmult_le_reg_r with (INR (length Ms)); [assumption|].
        replace (entry_sum i j Ms / INR (length Ms) * INR (length Ms))
          with (entry_sum i j Ms) by (field; lra). lra.
      * apply Rmult_le_reg_r with (INR (length Ms)); [assumption|].
        replace (entry_sum i j Ms / INR (length Ms) * INR (length Ms))
          with (entry_sum i j Ms) by (field; lra). lra.
Qed.


(** X15.  The average of attention matrices is an attention matrix: on
    a non-empty list of [n x n] matrices whose rows sum to 1 with
    entries between 0 and 1, [averageAttentions] returns an [n x n]
    matrix with the same property. *)
Theorem averageAttentions_stochastic (n : nat) (Ms : list matrix) :
  Ms <> [] -> Forall (fun M => shape n n M /\ stochastic M) Ms ->
  exists avg,
    MathUtils.averageAttentions Ms = Returns avg /\
    shape n n avg /\ stochastic avg.
Proof.
  exact (@average_of_stochastic n Ms).
Qed.

Lemma averageAttentions_stochastic_witness :
  exists avg,
    MathUtils.averageAttentions [[[1; 0]; [0; 1]]; [[0; 1]; [1; 0]]] = Returns avg /\
    shape 2 2 avg /\ stochastic avg.
Proof.
  apply (@averageAttentions_stochastic 2 [[[1; 0]; [0; 1]]; [[0; 1]; [1; 0]]]).
  - discriminate.
  - repeat constructor; unfold row_sum; simpl; lra.
Defined.

(** ** The attention weights of a forward pass *)

Lemma stochastic_softmaxRows (r c : nat) (S : matrix) (T : R) :
  shape r c S -> (1 <= c)%nat -> stochastic (softmaxRows S T).
Proof.
  intros HS Hc. unfold stochastic, softmaxRows.
  apply Forall_map, Forall_forall. intros row Hrow.
  apply softmax_row_spec_normalised.
  pose proof (@shape_row r c S row HS Hrow) as Hlen.
  destruct row; [simpl in Hlen; lia|discriminate].
Qed.

Lemma head_attention_stochastic (this : MHSA.t) (s : nat) (X : matrix) (h : Head.t) :
  shape s (MHSA.embedDim this) X ->
  head_ok (MHSA.embedDim this) (MHSA.headDim this) h ->
  (1 <= s)%nat -> (1 <= MHSA.embedDim this)%nat -> (1 <= MHSA.headDim this)%nat ->
  shape s s (HeadOutput.attentionWeights (head_result this X h)) /\
  stochastic (HeadOutput.attentionWeights (head_result this X h)).
Proof.
  intros HX (Hq & Hk & Hv & _ & Hbq & Hbk & Hbv) Hs Hed Hhd.
  destruct Hq as (wq & Eq & Sq), Hk as (wk & Ek & Sk).
  unfold head_result. cbn [HeadOutput.attentionWeights]. rewrite Eq, Ek.
  destruct (linearProjection_returns HX Sq Hs Hed Hhd Hbq) as [_ SQ].
  destruct (linearProjection_returns HX Sk Hs Hed Hhd Hbk) as [_ SK].
  pose proof (@shape_head_scores this s _ _ SQ SK Hs Hhd) as Hsc.
  split.
  - now apply shape_softmaxRows.
  - now apply stochastic_softmaxRows with (r := s) (c := s).
Qed.

Lemma forward_result_attentions (this : MHSA.t) (X : matrix) :
  initialized this ->
  shape (length X) (MHSA.embedDim this) X -> (1 <= length X)%nat ->
  let r := forward_result this X in
  exists avg,
    length (Result.headAttentions r) = MHSA.numHeads this /\
    Forall (fun A => shape (length X) (length X) A /\ stochastic A)
           (Result.headAttentions r) /\
    MathUtils.averageAttentions (Result.headAttentions r) = Returns avg /\
    shape (length X) (length X) avg /\ stochastic avg.
Proof.
  intros (Hed & Hhd & Hnh & Hn & HT & Hheads & _) HX Hs r.
  assert (Hlen : length (Result.headAttentions r) = MHSA.numHeads this).
  { unfold r, forward_result. cbn [Result.headAttentions].
    now rewrite !length_map. }
  assert (Hall : Forall (fun A => shape (length X) (length X) A /\ stochastic A)
                        (Result.headAttentions r)).
  { unfold r, forward_result. cbn [Result.headAttentions].
    rewrite map_map. apply Forall_map.
    eapply Forall_impl; [|exact Hheads]. intros h Hh.
    exact (@head_attention_stochastic this _ X h HX Hh Hs Hed Hhd). }
  assert (Hne : Result.headAttentions r <> []).
  { intros E. rewrite E in Hlen. simpl in Hlen. lia. }
  destruct (average_of_stochastic Hne Hall) as (avg & Ha & Hsh & Hst).
  exists avg. split_all; assumption.
Qed.

(** X16.  On an initialized engine and a non-empty sequence of
    embeddings of the engine's width, [forward] returns one attention
    matrix per head, each [seqLen x seqLen] with rows that sum to 1 and
    entries between 0 and 1, and [averageAttentions] of them returns a
    matrix of the same kind. *)
Theorem forward_attentions_average (this : MHSA.t) (X : matrix) :
  initialized this ->
  shape (length X) (MHSA.embedDim this) X -> (1 <= length X)%nat ->
  exists r avg,
    MHSA.forward this X = Returns r /\
    length (Result.headAttentions r) = MHSA.numHeads this /\
    Forall (fun A => shape (length X) (length X) A /\ stochastic A)
           (Result.headAttentions r) /\
    MathUtils.averageAttentions (Result.headAttentions r) = Returns avg /\
    shape (length X) (length X) avg /\ stochastic avg.
Proof.
  intros Hinit HX Hs.
  destruct (forward_result_attentions Hinit HX Hs) as (avg & H).
  exists (forward_result this X), avg. split; [|exact H].
  now apply forward_returns.
Qed.

Lemma forward_attentions_average_witness :
  exists r avg,
    MHSA.forward Example.per_head_engine Example.X = Returns r /\
    length (Result.headAttentions r) = 2%nat /\
    Forall (fun A => shape 3 3 A /\ stochastic A) (Result.headAttentions r) /\
    MathUtils.averageAttentions (Result.headAttentions r) = Returns avg /\
    shape 3 3 avg /\ stochastic avg.
Proof.
  apply (@forward_attentions_average Example.per_head_engine Example.X).
  - exact per_head_engine_initialized.
  - exact example_X_shape.
  - simpl. lia.
Defined.

(** ** Which fields [forward] consults *)

(** X17.  On an empty sequence of embeddings [forward] throws a
    [TypeError], whatever the state of the engine: with no head to run
    the missing first projected output is read, and otherwise the first
    projection reads row 0 of the embeddings. *)
Theorem forward_empty_sequence_throws (this : MHSA.t) :
  MHSA.forward this [] = Throws TypeError.
Proof.
  unfold MHSA.forward, MHSA.forward_heads.
  destruct (MHSA.numHeads this) as [|n]; [reflexivity|].
  cbn [seq foldM].
  destruct (nth_error (MHSA.heads this) 0) as [h|]; [|reflexivity].
  cbn [deref bind]. unfold MHSA.forward_head, MHSA.linearProjection.
  destruct (Head.Wq h); reflexivity.
Qed.

Lemma forward_heads_count (this : MHSA.t) (X : matrix) (l : list nat) :
  forall (a a' : list HeadOutput.t) (b b' c c' : list matrix),
    foldM (fun st h =>
             let '(headOutputs, headAttentions, headProjectedOutputs) := st in
             head <- deref (nth_error (MHSA.heads this) h) ;;
             r <- MHSA.forward_head this X head ;;
             Returns (headOutputs ++ [fst r],
                      headAttentions ++ [HeadOutput.attentionWeights (fst r)],
                      MHSA.push_projected headProjectedOutputs (snd r)))
          l (a, b, c)
    = Returns (a', b', c') ->
    length c' = (length c + length (filter (has_Wo_at this) l))%nat.
Proof.
  induction l as [|k l IH]; intros a a' b b' c c' H.
  - cbn [foldM] in H. injection H as _ _ <-. simpl. lia.
  - cbn [foldM] in H. cbn [filter]. unfold has_Wo_at at 1.
    destruct (nth_error (MHSA.heads this) k) as [h|]; [|discriminate].
    cbn [deref bind] in H.
    destruct (MHSA.forward_head this X h) as [r| |] eqn:Er; try discriminate.
    cbn [bind] in H. apply IH in H. rewrite H.
    rewrite <- (forward_head_projected _ _ _ Er).
    destruct (snd r); cbn [MHSA.push_projected present length].
    + rewrite length_app. simpl. lia.
    + lia.
Qed.

Lemma forward_heads_returns_count (this : MHSA.t) (X : matrix)
  (hos : list HeadOutput.t) (atts P : list matrix) :
  MHSA.forward_heads this X = Returns (hos, atts, P) ->
  length P = projecting_heads this.
Proof.
  intros H. unfold MHSA.forward_heads in H.
  apply forward_heads_count in H. exact H.
Qed.

Lemma filter_all {A : Type} (f : A -> bool) (l : list A) :
  (forall x, In x l -> f x = true) -> filter f l = l.
Proof.
  induction l as [|x l IH]; intros H; [reflexivity|].
  cbn [filter]. rewrite (H x (or_introl eq_refl)). f_equal.
  apply IH. intros y Hy. apply H. now right.
Qed.

Lemma filter_length_lt {A : Type} (f : A -> bool) (l : list A) (x : A) :
  In x l -> f x = false -> (length (filter f l) < length l)%nat.
Proof.
  induction l as [|y l IH]; intros Hin Hf; [destruct Hin|].
  pose proof (filter_length_le f l) as Hle.
  cbn [filter]. destruct Hin as [->|Hin].
  - rewrite Hf. simpl. lia.
  - specialize (IH Hin Hf). destruct (f y); simpl; lia.
Qed.

Lemma projecting_heads_all (this : MHSA.t) :
  MHSA.numHeads this = length (MHSA.heads this) ->
  every_head_has_Wo this = true ->
  projecting_heads this = MHSA.numHeads this.
Proof.
  intros Hn Hall. unfold projecting_heads.
  rewrite filter_all; [apply length_seq|].
  intros k Hk. apply in_seq in Hk. unfold has_Wo_at.
  destruct (nth_error (MHSA.heads this) k) as [h|] eqn:E.
  - unfold every_head_has_Wo in Hall. rewrite forallb_forall in Hall.
    apply Hall. eapply nth_error_In; eassumption.
  - apply nth_error_None in E. lia.
Qed.

Lemma projecting_heads_some_missing (this : MHSA.t) :
  MHSA.numHeads this = length (MHSA.heads this) ->
  every_head_has_Wo this = false ->
  projecting_heads this <> MHSA.numHeads this.
Proof.
  intros Hn Hall. unfold projecting_heads, every_head_has_Wo in *.
  assert (Hex : exists h, In h (MHSA.heads this) /\ present (Head.Wo h) = false).
  { clear Hn. induction (MHSA.heads this) as [|h hs IH]; [discriminate|].
    cbn [forallb] in Hall. destruct (present (Head.Wo h)) eqn:E.
    - destruct (IH Hall) as (h' & Hin & Hp). exists h'. split; [now right|exact Hp].
    - exists h. split; [now left|exact E]. }
  destruct Hex as (h & Hin & Hp).
  apply In_nth_error in Hin as [k Hk].
  assert (Hlt : (k < MHSA.numHeads this)%nat).
  { rewrite Hn. apply nth_error_Some. congruence. }
  pose proof (@filter_length_lt nat (has_Wo_at this) (seq 0 (MHSA.numHeads this)) k) as Hf.
  rewrite length_seq in Hf.
  assert (Hk' : has_Wo_at this k = false) by (unfold has_Wo_at; now rewrite Hk).
  specialize (Hf ltac:(apply in_seq; lia) Hk'). lia.
Qed.

Lemma forward_heads_ignores_Wo (w : option matrix) (this : MHSA.t) (X : matrix) :
  MHSA.forward_heads (MHSA.set_Wo w this) X = MHSA.forward_heads this X.
Proof. destruct this. reflexivity. Qed.

Lemma forward_heads_ignores_bo (b : option (list R)) (this : MHSA.t) (X : matrix) :
  MHSA.forward_heads (MHSA.set_bo b this) X = MHSA.forward_heads this X.
Proof. destruct this. reflexivity. Qed.

(** X18.  [forward] consults exactly one of the combined [this.Wo] and
    the output bias [this.bo].  When every head the loop runs has a
    [Wo] of its own, any other value of [this.Wo], or none, gives the
    same outcome; when some head has none, the concatenate-and-project
    path is taken and any other value of [this.bo] gives the same
    outcome. *)
Theorem forward_consults_Wo_or_bo (this : MHSA.t) (X : matrix)
  (w : option matrix) (b : option (list R)) :
  (projecting_heads this = MHSA.numHeads this ->
   MHSA.forward (MHSA.set_Wo w this) X = MHSA.forward this X) /\
  (projecting_heads this <> MHSA.numHeads this ->
   MHSA.forward (MHSA.set_bo b this) X = MHSA.forward this X).
Proof.
  split; intros Hcount; unfold MHSA.forward.
  - rewrite forward_heads_ignores_Wo.
    destruct (MHSA.forward_heads this X) as [[[hos atts] P]| |] eqn:Eh; try reflexivity.
    cbn [bind]. apply forward_heads_returns_count in Eh.
    replace (MHSA.numHeads (MHSA.set_Wo w this)) with (MHSA.numHeads this)
      by (destruct this; reflexivity).
    replace (Nat.eqb (length P) (MHSA.numHeads this)) with true
      by (symmetry; apply Nat.eqb_eq; lia).
    destruct this; reflexivity.
  - rewrite forward_heads_ignores_bo.
    destruct (MHSA.forward_heads this X) as [[[hos atts] P]| |] eqn:Eh; try reflexivity.
    cbn [bind]. apply forward_heads_returns_count in Eh.
    replace (MHSA.numHeads (MHSA.set_bo b this)) with (MHSA.numHeads this)
      by (destruct this; reflexivity).
    replace (Nat.eqb (length P) (MHSA.numHeads this)) with false
      by (symmetry; apply Nat.eqb_neq; lia).
    destruct this; reflexivity.
Qed.

Lemma forward_consults_Wo_or_bo_witness :
  MHSA.forward (MHSA.set_Wo (Some [[5]]) Example.per_head_engine) Example.X
  = MHSA.forward Example.per_head_engine Example.X /\
  MHSA.forward (MHSA.set_bo (Some [7; 7]) Example.combined_engine) Example.X
  = MHSA.forward Example.combined_engine Example.X.
Proof.
  split.
  - apply (proj1 (forward_consults_Wo_or_bo Example.per_head_engine Example.X
                    (Some [[5]]) None)).
    reflexivity.
  - apply (proj2 (forward_consults_Wo_or_bo Example.combined_engine Example.X
                    None (Some [7; 7]))).
    vm_compute. lia.
Defined.

(** ** [calculateParams] *)

Lemma entries_shape (r c : nat) (M : matrix) :
  shape r c M -> entries M = (r * c)%nat.
Proof.
  intros [Hlen Hrows]. subst r. induction Hrows as [|row M Hrow _ IH].
  - reflexivity.
  - cbn [entries fold_right length]. fold (entries M). rewrite IH, Hrow. lia.
Qed.

Lemma head_entries_ok (ed hd : nat) (h : Head.t) :
  head_ok ed hd h -> head_entries h = (3 * ed * hd)%nat.
Proof.
  intros ((wq & Eq & Sq) & (wk & Ek & Sk) & (wv & Ev & Sv) & _).
  unfold head_entries. rewrite Eq, Ek, Ev. cbn [matrix_of].
  rewrite (entries_shape Sq), (entries_shape Sk), (entries_shape Sv). lia.
Qed.

Lemma heads_entries_ok (ed hd : nat) (hs : list Head.t) :
  Forall (head_ok ed hd) hs ->
  fold_right (fun h n => head_entries h + n)%nat 0%nat hs
  = (length hs * (3 * ed * hd))%nat.
Proof.
  induction 1 as [|h hs Hh _ IH]; [reflexivity|].
  cbn [fold_right length]. rewrite IH, (head_entries_ok Hh). lia.
Qed.

Lemma heads_Wo_entries_ok (ed hd : nat) (hs : list Head.t) :
  Forall (head_ok ed hd) hs ->
  forallb (fun h => present (Head.Wo h)) hs = true ->
  fold_right (fun h n => entries (matrix_of (Head.Wo h)) + n)%nat 0%nat hs
  = (length hs * hd * ed)%nat.
Proof.
  induction 1 as [|h hs Hh _ IH]; intros Hall; [reflexivity|].
  cbn [forallb] in Hall. apply andb_prop in Hall as [Hp Hall].
  cbn [fold_right length]. rewrite (IH Hall).
  destruct Hh as (_ & _ & _ & Hwo & _).
  destruct (Head.Wo h) as [wo|]; [|discriminate]. cbn [matrix_of].
  rewrite (entries_shape (Hwo wo eq_refl)). lia.
Qed.

(** X19.  On an initialized engine [calculateParams] is the number of
    entries of the weight matrices [forward] multiplies by: the [Wq],
    [Wk] and [Wv] of every head, and the output projection of the path
    [forward] takes (every head's own [Wo], or the combined one).
    Biases are not counted. *)
Theorem calculateParams_counts_forward_weights (this : MHSA.t) :
  initialized this ->
  MHSA.calculateParams this = forward_weights this.
Proof.
  intros (Hed & Hhd & Hnh & Hn & HT & Hheads & Hbo & Hwo).
  unfold MHSA.calculateParams, forward_weights.
  rewrite (heads_entries_ok Hheads), <- Hn.
  destruct (every_head_has_Wo this) eqn:Eall.
  - unfold every_head_has_Wo in Eall.
    rewrite (heads_Wo_entries_ok Hheads Eall), <- Hn. lia.
  - destruct Hwo as [Hwo|(wo & Ewo & Swo)]; [discriminate|].
    rewrite Ewo. cbn [matrix_of]. rewrite (entries_shape Swo). lia.
Qed.

Lemma calculateParams_counts_forward_weights_witness :
  MHSA.calculateParams Example.combined_engine
  = forward_weights Example.combined_engine.
Proof.
  apply (@calculateParams_counts_forward_weights Example.combined_engine).
  exact combined_engine_initialized.
Defined.

(** ** [randomMatrix] and the draws of [createRandomMHSA] *)

Section RandomDraws.
Variable random : nat -> R.

Lemma randomRow_draws (scale : R) (cols n : nat) :
  snd (MathUtils.randomRow random scale cols n) = (n + cols)%nat /\
  forall j, (j < cols)%nat ->
       nth j (fst (MathUtils.randomRow random scale cols n)) 0
       = (random (n + j)%nat - 0.5) * 2 * scale.
Proof.
  revert n; induction cols as [|c IH]; intros n; cbn [MathUtils.randomRow].
  - split; [simpl; lia|intros j Hj; lia].
  - specialize (IH (S n)).
    destruct (MathUtils.randomRow random scale c (S n)) as [r n'].
    cbn [fst snd] in *. destruct IH as [Hn Hnth]. split; [lia|].
    intros [|j] Hj; cbn [nth].
    + now rewrite Nat.add_0_r.
    + rewrite Hnth by lia. do 4 f_equal. lia.
Qed.

Lemma randomRows_draws (scale : R) (rows cols n : nat) :
  snd (MathUtils.randomRows random scale rows cols n) = (n + rows * cols)%nat /\
  forall i j, (i < rows)%nat -> (j < cols)%nat ->
         nth j (nth i (fst (MathUtils.randomRows random scale rows cols n)) []) 0
         = (random (n + i * cols + j)%nat - 0.5) * 2 * scale.
Proof.
  revert n; induction rows as [|r IH]; intros n; cbn [MathUtils.randomRows].
  - split; [simpl; lia|intros i j Hi; lia].
  - pose proof (randomRow_draws scale cols n) as [Hn1 Hrow].
    destruct (MathUtils.randomRow random scale cols n) as [row n1].
    cbn [fst snd] in *. specialize (IH n1).
    destruct (MathUtils.randomRows random scale r cols n1) as [m n2].
    cbn [fst snd] in *. destruct IH as [Hn2 Hnth]. split; [lia|].
    intros [|i] j Hi Hj; cbn [nth].
    + rewrite Hrow by lia. do 4 f_equal. lia.
    + rewrite Hnth by lia. do 4 f_equal. lia.
Qed.

Lemma randomMatrix_draws (rows cols n : nat) :
  snd (MathUtils.randomMatrix random rows cols n) = (n + rows * cols)%nat.
Proof. unfold MathUtils.randomMatrix. apply randomRows_draws. Qed.

Lemma randomHeads_draws (count ed hd n : nat) :
  snd (MHSA.randomHeads random count ed hd n) = (n + count * (4 * ed * hd))%nat.
Proof.
  revert n; induction count as [|c IH]; intros n; cbn [MHSA.randomHeads].
  - simpl. lia.
  - pose proof (randomMatrix_draws ed hd n) as H1.
    destruct (MathUtils.randomMatrix random ed hd n) as [wq n1].
    pose proof (randomMatrix_draws ed hd n1) as H2.
    destruct (MathUtils.randomMatrix random ed hd n1) as [wk n2].
    pose proof (randomMatrix_draws ed hd n2) as H3.
    destruct (MathUtils.randomMatrix random ed hd n2) as [wv n3].
    pose proof (randomMatrix_draws hd ed n3) as H4.
    destruct (MathUtils.randomMatrix random hd ed n3) as [wo n4].
    specialize (IH n4).
    destruct (MHSA.randomHeads random c ed hd n4) as [hs n5].
    cbn [fst snd] in *. lia.
Qed.

(** X20.  [randomMatrix(rows, cols)] makes [rows * cols] calls of
    [Math.random], row by row, and when every draw lies in [[0, 1)] the
    entry at [(i, j)] lies in [[-s, s)] for the Xavier scale
    [s = sqrt(2 / (rows + cols))]. *)
Theorem randomMatrix_draws_and_range (rows cols n : nat) :
  (forall k, 0 <= random k < 1) ->
  snd (MathUtils.randomMatrix random rows cols n) = (n + rows * cols)%nat /\
  shape rows cols (fst (MathUtils.randomMatrix random rows cols n)) /\
  forall i j, (i < rows)%nat -> (j < cols)%nat ->
    let x := nth j (nth i (fst (MathUtils.randomMatrix random rows cols n)) []) 0 in
    let s := sqrt (2 / INR (rows + cols)) in
    x = (random (n + i * cols + j)%nat - 0.5) * 2 * s /\ - s <= x < s.
Proof.
  intros Hrange. split; [apply randomMatrix_draws|].
  split; [apply randomMatrix_spec|].
  intros i j Hi Hj x s. subst x.
  unfold MathUtils.randomMatrix. fold s.
  destruct (randomRows_draws s rows cols n) as [_ Hnth].
  rewrite (Hnth i j Hi Hj). split; [reflexivity|].
  assert (Hs : 0 < s).
  { unfold s. apply sqrt_lt_R0. apply Rdiv_lt_0_compat; [lra|].
    apply lt_0_INR. lia. }
  specialize (Hrange (n + i * cols + j)%nat). nra.
Qed.

(** X21.  [createRandomMHSA] draws more numbers than [calculateParams]
    reports parameters: four matrices per head and the combined [Wo],
    which is [numHeads * headDim * embedDim] above the count. *)
Theorem createRandomMHSA_draws (ed nh : nat) (T : R) (n : nat)
  (this : MHSA.t) (n' : nat) :
  MHSA.createRandomMHSA random ed nh T n = Returns (this, n') ->
  n' = (n + MHSA.calculateParams this
        + MHSA.numHeads this * MHSA.headDim this * MHSA.embedDim this)%nat.
Proof.
  unfold MHSA.createRandomMHSA, MHSA.constructor.
  destruct nh as [|m]; [discriminate|]. cbn [bind].
  unfold MHSA.initializeRandomWeights.
  cbn [MHSA.embedDim MHSA.numHeads MHSA.headDim MHSA.temperature].
  set (hd := Nat.div ed (S m)).
  pose proof (randomHeads_draws (S m) ed hd n) as H1.
  destruct (MHSA.randomHeads random (S m) ed hd n) as [hs n1].
  pose proof (randomMatrix_draws (S m * hd) ed n1) as H2.
  destruct (MathUtils.randomMatrix random (S m * hd) ed n1) as [wo n2].
  cbn [fst snd] in *. intros [= <- <-].
  unfold MHSA.calculateParams.
  cbn [MHSA.embedDim MHSA.numHeads MHSA.headDim]. fold hd. lia.
Qed.
End RandomDraws.

Lemma randomMatrix_draws_and_range_witness :
  snd (MathUtils.randomMatrix (fun _ => 0.5) 2 3 0) = (0 + 2 * 3)%nat /\
  shape 2 3 (fst (MathUtils.randomMatrix (fun _ => 0.5) 2 3 0)) /\
  forall i j, (i < 2)%nat -> (j < 3)%nat ->
    let x := nth j (nth i (fst (MathUtils.randomMatrix (fun _ => 0.5) 2 3 0)) []) 0 in
    let s := sqrt (2 / INR (2 + 3)) in
    x = (0.5 - 0.5) * 2 * s /\ - s <= x < s.
Proof.
  apply (@randomMatrix_draws_and_range (fun _ => 0.5) 2 3 0). intros _. lra.
Defined.

Lemma createRandomMHSA_draws_witness :
  snd (MHSA.initializeRandomWeights (fun _ => 0.5%R)
         (MHSA.mk 2 2 1 1 [] None None false None false) 0)
  = (0 + MHSA.calculateParams
           (fst (MHSA.initializeRandomWeights (fun _ => 0.5%R)
                   (MHSA.mk 2 2 1 1 [] None None false None false) 0))
     + MHSA.numHeads
         (fst (MHSA.initializeRandomWeights (fun _ => 0.5%R)
                 (MHSA.mk 2 2 1 1 [] None None false None false) 0))
       * MHSA.headDim
           (fst (MHSA.initializeRandomWeights (fun _ => 0.5%R)
                   (MHSA.mk 2 2 1 1 [] None None false None false) 0))
       * MHSA.embedDim
           (fst (MHSA.initializeRandomWeights (fun _ => 0.5%R)
                   (MHSA.mk 2 2 1 1 [] None None false None false) 0)))%nat.
Proof.
  apply (@createRandomMHSA_draws (fun _ => 0.5%R) 2 2 1 0). reflexivity.
Defined.

(** ** [createMHSAFromWeights] *)

(** X22.  On a per-head weight file without [config],
    [createMHSAFromWeights] returns an initialized engine whose
    dimensions are read off the matrices: [headDim] is the width of
    [Wq], not the [floor(embedDim / numHeads)] the constructor set. *)
Theorem createMHSAFromWeights_per_head (ed hd : nat) (ms : list head_matrices) (T : R) :
  ms <> [] -> (1 <= ed)%nat -> (1 <= hd)%nat -> 0 < T ->
  Forall (matrices_ok ed hd) ms ->
  exists this,
    MHSA.createMHSAFromWeights (per_head_weights ms) T = Returns this /\
    MHSA.embedDim this = ed /\ MHSA.numHeads this = length ms /\
    MHSA.headDim this = hd /\ MHSA.temperature this = T /\
    MHSA.modelName this = Some "Pre-extracted Model"%string /\
    initialized this /\ every_head_has_Wo this = true.
Proof.
  intros Hne Hed Hhd HT Hall.
  destruct (@first_Wq_dimensions ed hd ms per_head_head) as [Hc Hr]; auto.
  { now intros [[[q k] v] o]. }
  unfold MHSA.createMHSAFromWeights.
  cbn [per_head_weights Weights.config Weights.heads Weights.model_name
       MHSA.config_field MHSA.config_or deref bind truthy_string].
  rewrite Hr. cbn [bind]. rewrite length_map.
  unfold MHSA.constructor.
  destruct (length ms) as [|m] eqn:Elen; [destruct ms; [congruence|discriminate]|].
  cbn [bind]. fold (per_head_weights ms).
  rewrite (@loadPreExtractedWeights_per_head ed hd ms _ _ Hne Hed Hall).
  cbn [MHSA.temperature truthy_string].
  eexists. split; [reflexivity|].
  cbn [MHSA.embedDim MHSA.numHeads MHSA.headDim MHSA.temperature MHSA.modelName].
  rewrite Elen. split_all; try reflexivity.
  - rewrite <- Elen.
    now apply (@per_head_engine_initialized' ed hd ms T _ Hne Hed Hhd HT Hall).
  - rewrite <- Elen.
    now apply (@per_head_engine_initialized' ed hd ms T _ Hne Hed Hhd HT Hall).
Qed.

Lemma createMHSAFromWeights_per_head_witness :
  exists this,
    MHSA.createMHSAFromWeights (per_head_weights Example.two_heads) 1 = Returns this /\
    MHSA.embedDim this = 2%nat /\ MHSA.numHeads this = length Example.two_heads /\
    MHSA.headDim this = 1%nat /\ MHSA.temperature this = 1 /\
    MHSA.modelName this = Some "Pre-extracted Model"%string /\
    initialized this /\ every_head_has_Wo this = true.
Proof.
  apply (@createMHSAFromWeights_per_head 2 1 Example.two_heads 1).
  - discriminate.
  - lia.
  - lia.
  - lra.
  - exact two_heads_ok.
Defined.

(** X23.  On a weight object without [heads] the factory
    [createMHSAFromWeights] reaches the loader's invalid-structure
    error only when [config] supplies both [embed_dim] and [num_heads];
    otherwise reading [weights.heads] for a dimension throws a
    [TypeError] before the loader runs. *)
Theorem createMHSAFromWeights_without_heads (w : Weights.t) (T : R) :
  Weights.heads w = None ->
  MHSA.createMHSAFromWeights w T
  = match MHSA.config_field (Weights.config w) Weights.embed_dim,
          MHSA.config_field (Weights.config w) Weights.num_heads with
    | Some (S _), Some (S _) =>
        Throws (Error "Invalid pre-extracted weight structure")
    | _, _ => Throws TypeError
    end.
Proof.
  intros Hw. unfold MHSA.createMHSAFromWeights, MHSA.loadPreExtractedWeights.
  rewrite Hw.
  destruct (MHSA.config_field (Weights.config w) Weights.embed_dim) as [[|ed]|];
    try reflexivity.
  destruct (MHSA.config_field (Weights.config w) Weights.num_heads) as [[|nh]|];
    reflexivity.
Qed.

Lemma createMHSAFromWeights_without_heads_witness :
  MHSA.createMHSAFromWeights
    (Weights.mk None None None (Some (Weights.mkConfig (Some 2%nat) None (Some 4%nat)))
                None None) 1
  = Throws (Error "Invalid pre-extracted weight structure").
Proof.
  apply (@createMHSAFromWeights_without_heads
           (Weights.mk None None None
                       (Some (Weights.mkConfig (Some 2%nat) None (Some 4%nat)))
                       None None) 1).
  reflexivity.
Defined.

(** ** [concatenateHorizontal], [sliceCols] and [sliceRows] *)

Lemma concat_rows_loop (i : nat) (Ms : list matrix) :
  Forall (fun M => (i < length M)%nat) Ms ->
  forall acc,
    foldM (fun row M => r <- deref (nth_error M i) ;; Returns (row ++ r)) Ms acc
    = Returns (acc ++ concat (map (fun M => nth i M []) Ms)).
Proof.
  induction 1 as [|M Ms HM _ IH]; intros acc.
  - simpl. now rewrite app_nil_r.
  - cbn [foldM map concat].
    rewrite (nth_error_nth_some M []) by assumption.
    cbn [deref bind]. rewrite IH. now rewrite app_assoc.
Qed.

Lemma concatenateHorizontal_returns (r : nat) (Ms : list matrix) :
  Ms <> [] -> Forall (fun M => length M = r) Ms ->
  MathUtils.concatenateHorizontal Ms = Returns (hconcat r Ms).
Proof.
  intros Hne Hall. destruct Ms as [|M0 Ms']; [congruence|].
  assert (HM0 : length M0 = r) by (now inversion Hall).
  unfold MathUtils.concatenateHorizontal, hconcat. rewrite HM0.
  apply mapM_pure. intros i Hi. apply in_seq in Hi.
  rewrite concat_rows_loop; [reflexivity|].
  eapply Forall_impl; [|exact Hall]. simpl. intros M HM. lia.
Qed.

Lemma slice_within {A : Type} (l : list A) (a b : nat) :
  (a <= b)%nat -> (b <= length l)%nat ->
  MathUtils.slice l (Z.of_nat a) (Z.of_nat b) = firstn (b - a) (skipn a l).
Proof.
  intros Hab Hb. unfold MathUtils.slice.
  destruct (Z.ltb_spec (Z.of_nat a) 0) as [H|_]; [lia|].
  destruct (Z.ltb_spec (Z.of_nat b) 0) as [H|_]; [lia|].
  rewrite !Z.min_l by lia. rewrite Z.max_l by lia.
  replace (Z.to_nat (Z.of_nat a)) with a by lia. f_equal. lia.
Qed.

Lemma block_of_concat {A : Type} (c : nat) (rows : list (list A)) :
  Forall (fun row => length row = c) rows ->
  forall h, (h < length rows)%nat ->
       firstn c (skipn (h * c) (concat rows)) = nth h rows [].
Proof.
  induction 1 as [|row rows Hrow _ IH]; intros h Hh; [simpl in Hh; lia|].
  cbn [concat]. destruct h as [|h].
  - cbn [Nat.mul skipn nth]. rewrite firstn_app, <- Hrow, Nat.sub_diag.
    rewrite firstn_all. cbn [firstn]. now rewrite app_nil_r.
  - cbn [nth]. replace (S h * c)%nat with (length row + h * c)%nat by (simpl; lia).
    rewrite skipn_app. rewrite skipn_all2 by lia.
    replace (length row + h * c - length row)%nat with (h * c)%nat by lia.
    cbn [app]. apply IH. simpl in Hh. lia.
Qed.

Lemma length_concat_blocks {A : Type} (c : nat) (rows : list (list A)) :
  Forall (fun row => length row = c) rows ->
  length (concat rows) = (length rows * c)%nat.
Proof.
  induction 1 as [|row rows Hrow _ IH]; [reflexivity|].
  cbn [concat length]. rewrite length_app, IH, Hrow. simpl. lia.
Qed.

Lemma sliceCols_hconcat (r c : nat) (Ms : list matrix) (h : nat) :
  Forall (shape r c) Ms -> (h < length Ms)%nat ->
  MathUtils.sliceCols (hconcat r Ms) (Z.of_nat (h * c)) (Z.of_nat ((h + 1) * c))
  = nth h Ms [].
Proof.
  intros Hall Hh. unfold MathUtils.sliceCols, hconcat. rewrite map_map.
  assert (Hnth : shape r c (nth h Ms [])).
  { rewrite Forall_forall in Hall. apply Hall. now apply nth_In. }
  transitivity (map (fun i => nth i (nth h Ms []) []) (seq 0 r)).
  2:{ destruct Hnth as [<- _]. apply map_nth_seq. }
  apply map_ext_in. intros i Hi. apply in_seq in Hi.
  assert (Hrows : Forall (fun row : list R => length row = c)
                         (map (fun M : matrix => nth i M []) Ms)).
  { apply Forall_map. eapply Forall_impl; [|exact Hall]. simpl. intros M HM.
    eapply shape_nth_error; [exact HM|].
    apply nth_error_nth_some. destruct HM. lia. }
  rewrite slice_within.
  - replace ((h + 1) * c - h * c)%nat with c by lia.
    rewrite (block_of_concat Hrows) by (now rewrite length_map).
    transitivity (nth h (map (fun M : matrix => nth i M []) Ms)
                      ((fun M : matrix => nth i M []) [])).
    + f_equal. destruct i; reflexivity.
    + exact (map_nth (fun M : matrix => nth i M []) Ms [] h).
  - lia.
  - pose proof (length_concat_blocks Hrows) as HL. rewrite length_map in HL.
    unfold matrix in *. rewrite HL. nia.
Qed.

(** X24.  [sliceCols] undoes [concatenateHorizontal]: on a non-empty
    list of [r x c] matrices the concatenation returns, and its columns
    from [h * c] up to [(h + 1) * c] are the matrix at position [h]. *)
Theorem sliceCols_of_concatenateHorizontal (r c : nat) (Ms : list matrix) (h : nat) :
  Forall (shape r c) Ms -> (h < length Ms)%nat ->
  exists C,
    MathUtils.concatenateHorizontal Ms = Returns C /\
    shape r (length Ms * c) C /\
    MathUtils.sliceCols C (Z.of_nat (h * c)) (Z.of_nat ((h + 1) * c)) = nth h Ms [].
Proof.
  intros Hall Hh. exists (hconcat r Ms). split_all.
  - apply concatenateHorizontal_returns.
    + intros E. rewrite E in Hh. simpl in Hh. lia.
    + eapply Forall_impl; [|exact Hall]. now intros M [HM _].
  - now apply shape_hconcat.
  - now apply sliceCols_hconcat.
Qed.

Lemma sliceCols_of_concatenateHorizontal_witness :
  exists C,
    MathUtils.concatenateHorizontal [[[1; 2]; [3; 4]]; [[5; 6]; [7; 8]]] = Returns C /\
    shape 2 (2 * 2) C /\
    MathUtils.sliceCols C (Z.of_nat (1 * 2)) (Z.of_nat ((1 + 1) * 2))
    = [[5; 6]; [7; 8]].
Proof.
  apply (@sliceCols_of_concatenateHorizontal 2 2
           [[[1; 2]; [3; 4]]; [[5; 6]; [7; 8]]] 1).
  - repeat constructor.
  - simpl. lia.
Defined.

(** X25.  The [concatenated] field of a forward pass is what
    [concatenateHorizontal] returns on the head outputs, and the
    output of head [h] sits in its columns from [h * headDim] up to
    [(h + 1) * headDim]. *)
Theorem forward_concatenated (this : MHSA.t) (X : matrix) (h : nat) :
  initialized this ->
  shape (length X) (MHSA.embedDim this) X -> (1 <= length X)%nat ->
  (h < MHSA.numHeads this)%nat ->
  exists res ho,
    MHSA.forward this X = Returns res /\
    MathUtils.concatenateHorizontal (map HeadOutput.output (Result.headOutputs res))
    = Returns (Result.concatenated res) /\
    nth_error (Result.headOutputs res) h = Some ho /\
    MathUtils.sliceCols (Result.concatenated res)
                        (Z.of_nat (h * MHSA.headDim this))
                        (Z.of_nat ((h + 1) * MHSA.headDim this))
    = HeadOutput.output ho.
Proof.
  intros Hinit HX Hs Hh.
  pose proof (forward_returns Hinit HX Hs) as Hfw.
  destruct Hinit as (Hed & Hhd & Hnh & Hn & HT & Hheads & _).
  pose proof (@shape_head_outputs this _ X _ HX Hs Hed Hhd Hheads) as Houts.
  fold (head_outputs this X) in Houts.
  assert (Hlen : length (head_outputs this X) = MHSA.numHeads this).
  { unfold head_outputs. now rewrite length_map. }
  assert (Hmap : map HeadOutput.output (map (head_result this X) (MHSA.heads this))
                 = head_outputs this X).
  { unfold head_outputs. now rewrite map_map. }
  exists (forward_result this X).
  destruct (nth_error (map (head_result this X) (MHSA.heads this)) h) as [ho|] eqn:Eho.
  2:{ apply nth_error_None in Eho. rewrite length_map in Eho. lia. }
  exists ho. unfold forward_result.
  cbn [Result.headOutputs Result.concatenated]. rewrite Hmap.
  split_all.
  - exact Hfw.
  - apply concatenateHorizontal_returns.
    + intros E. rewrite E in Hlen. simpl in Hlen. lia.
    + eapply Forall_impl; [|exact Houts]. now intros M [HM _].
  - exact Eho.
  - rewrite (@sliceCols_hconcat _ _ _ h Houts) by lia.
    rewrite <- Hmap.
    apply (map_nth_error HeadOutput.output) in Eho.
    now apply nth_error_nth.
Qed.

Lemma forward_concatenated_witness :
  exists res ho,
    MHSA.forward Example.per_head_engine Example.X = Returns res /\
    MathUtils.concatenateHorizontal (map HeadOutput.output (Result.headOutputs res))
    = Returns (Result.concatenated res) /\
    nth_error (Result.headOutputs res) 1 = Some ho /\
    MathUtils.sliceCols (Result.concatenated res)
                        (Z.of_nat (1 * 1)) (Z.of_nat ((1 + 1) * 1))
    = HeadOutput.output ho.
Proof.
  apply (@forward_concatenated Example.per_head_engine Example.X 1).
  - exact per_head_engine_initialized.
  - exact example_X_shape.
  - simpl. lia.
  - simpl. lia.
Defined.

(** X26.  Cutting a matrix at any row index and joining the two
    [sliceRows] gives the matrix back, also for an index that is
    negative or past the end; a negative index [-k] leaves the last
    [k] rows in the second part. *)
Theorem sliceRows_split (m : matrix) (k : Z) :
  MathUtils.sliceRows m 0 k ++ MathUtils.sliceRows m k (Z.of_nat (length m)) = m /\
  ((k < 0)%Z ->
   length (MathUtils.sliceRows m k (Z.of_nat (length m)))
   = Nat.min (Z.to_nat (- k)) (length m)).
Proof.
  unfold MathUtils.sliceRows, MathUtils.slice.
  set (len := Z.of_nat (length m)).
  set (e := if Z.ltb k 0 then Z.max (len + k) 0 else Z.min k len).
  assert (He : (0 <= e <= len)%Z).
  { unfold e, len. destruct (Z.ltb_spec k 0); lia. }
  change (Z.ltb 0 0) with false. cbv iota.
  destruct (Z.ltb_spec len 0) as [H|_]; [unfold len in H; lia|].
  rewrite (Z.min_l 0 len) by lia. rewrite (Z.min_l len len) by lia.
  rewrite Z.sub_0_r. cbn [Z.to_nat skipn].
  rewrite (Z.max_l e 0) by lia. rewrite (Z.max_l (len - e) 0) by lia.
  assert (Hfull : firstn (Z.to_nat (len - e)) (skipn (Z.to_nat e) m)
                  = skipn (Z.to_nat e) m).
  { apply firstn_all2. rewrite length_skipn. unfold len. lia. }
  rewrite Hfull. split; [apply firstn_skipn|].
  intros Hk. rewrite length_skipn. unfold e.
  destruct (Z.ltb_spec k 0) as [_|H]; [|lia]. unfold len. lia.
Qed.

Lemma sliceRows_split_witness :
  length (MathUtils.sliceRows [[1]; [2]; [3]] (-1) (Z.of_nat 3))
  = Nat.min (Z.to_nat (- (-1))) 3.
Proof.
  apply (proj2 (sliceRows_split [[1]; [2]; [3]] (-1))). lia.
Defined.

(** ** [softmax]: the subtracted maximum and a temperature above zero *)

Lemma row_sum_map_scale (K : R) (l : list R) :
  row_sum (map (fun x => x * K) l) = row_sum l * K.
Proof.
  induction l as [|x l IH]; cbn [map].
  - unfold row_sum; simpl; lra.
  - rewrite !row_sum_cons, IH. lra.
Qed.

Lemma softmax_row_spec_plain (T : R) (row : list R) :
  softmax_row_spec T row = plain_softmax_row T row.
Proof.
  destruct row as [|s0 rest]; [reflexivity|].
  unfold softmax_row_spec, plain_softmax_row.
  set (m := row_max (s0 :: rest)). set (K := exp (- m / T)).
  assert (HK : 0 < K) by apply exp_pos.
  assert (He : map (fun s => exp ((s - m) / T)) (s0 :: rest)
               = map (fun x => x * K) (map (fun s => exp (s / T)) (s0 :: rest))).
  { rewrite map_map. apply map_ext. intros s. unfold K.
    rewrite <- exp_plus. f_equal. unfold Rdiv. ring. }
  rewrite He, row_sum_map_scale, map_map.
  assert (Hpos : 0 < row_sum (map (fun s => exp (s / T)) (s0 :: rest))).
  { apply row_sum_pos; [apply exps_positive|discriminate]. }
  apply map_ext. intros x. field. lra.
Qed.

Lemma plain_softmax_row_scaled (T : R) (row : list R) :
  T <> 0 ->
  plain_softmax_row 1 (map (fun val => val * / T) row) = plain_softmax_row T row.
Proof.
  intros HT. unfold plain_softmax_row. rewrite !map_map.
  assert (He : map (fun s => exp (s * / T / 1)) row = map (fun s => exp (s / T)) row).
  { apply map_ext. intros s. f_equal. field. exact HT. }
  rewrite He. apply map_ext. intros s.
  replace (s * / T / 1) with (s / T) by (field; exact HT). reflexivity.
Qed.

(** X27.  For a temperature above zero [softmax] returns the plain
    softmax [exp(s / T) / sum exp(s' / T)] of every row: the maximum it
    subtracts does not show in the result.  So a temperature [T] above
    zero has the effect of scaling the scores by [1 / T] at
    temperature 1. *)
Theorem softmax_plain_and_temperature (S : matrix) (T : R) :
  0 < T ->
  MathUtils.softmax S T = Returns (map (plain_softmax_row T) S) /\
  MathUtils.softmax (MathUtils.scale S (/ T)) 1 = MathUtils.softmax S T.
Proof.
  intros HT.
  assert (H1 : MathUtils.softmax S T = Returns (map (plain_softmax_row T) S)).
  { rewrite softmax_returns by exact HT. unfold softmaxRows. f_equal.
    apply map_ext. intros row. apply softmax_row_spec_plain. }
  split; [exact H1|].
  rewrite H1, softmax_returns by lra. unfold softmaxRows, MathUtils.scale.
  f_equal. rewrite map_map. apply map_ext. intros row.
  rewrite softmax_row_spec_plain. apply plain_softmax_row_scaled. lra.
Qed.

Lemma softmax_plain_and_temperature_witness :
  MathUtils.softmax [[1; 2]; [0; 0]] 2
  = Returns (map (plain_softmax_row 2) [[1; 2]; [0; 0]]) /\
  MathUtils.softmax (MathUtils.scale [[1; 2]; [0; 0]] (/ 2)) 1
  = MathUtils.softmax [[1; 2]; [0; 0]] 2.
Proof.
  apply (@softmax_plain_and_temperature [[1; 2]; [0; 0]] 2). lra.
Defined.

(** ** More heads than embedding dimensions *)

Lemma matmul_zero_width (ed : nat) (X W : matrix) :
  shape ed 0 W ->
  MathUtils.matmul X W = Throws TypeError \/
  (X <> [] /\ MathUtils.matmul X W = Returns (map (fun _ => []) X)).
Proof.
  intros [_ Hrows]. unfold MathUtils.matmul.
  destruct X as [|A0 X']; [now left|].
  destruct W as [|B0 W']; [now left|].
  right. split; [discriminate|].
  assert (HB0 : length B0 = 0%nat) by (now inversion Hrows).
  rewrite HB0. apply mapM_pure. intros Ai _. reflexivity.
Qed.

Lemma forward_head_zero_width (this : MHSA.t) (ed : nat) (X : matrix) (h : Head.t)
  (random : nat -> R) :
  random_head random ed 0 h ->
  MHSA.forward_head this X h = Throws TypeError.
Proof.
  intros ((wq & Eq & Sq & _) & (wk & Ek & Sk & _) & (wv & Ev & Sv & _) & _ &
          Ebq & Ebk & Ebv).
  unfold MHSA.forward_head, MHSA.linearProjection.
  rewrite Eq, Ek, Ev, Ebq, Ebk, Ebv. cbn [deref bind].
  destruct (matmul_zero_width X Sq) as [->|[Hne ->]]; [reflexivity|].
  destruct (matmul_zero_width X Sk) as [->|[_ ->]]; [reflexivity|].
  destruct (matmul_zero_width X Sv) as [->|[_ ->]]; [reflexivity|].
  cbn [bind]. unfold MHSA.scaledDotProductAttention.
  destruct X as [|A0 X']; [congruence|]. reflexivity.
Qed.

(** X28.  With more heads than embedding dimensions [createRandomMHSA]
    returns an engine of head width [floor(embedDim / numHeads) = 0],
    and [forward] on it throws a [TypeError] on every input: the
    transposed keys are an empty array. *)
Theorem random_engine_with_too_many_heads (random : nat -> R) (ed nh : nat) (T : R)
  (n : nat) :
  (1 <= nh)%nat -> (ed < nh)%nat ->
  exists this n',
    MHSA.createRandomMHSA random ed nh T n = Returns (this, n') /\
    MHSA.headDim this = 0%nat /\
    forall X, MHSA.forward this X = Throws TypeError.
Proof.
  intros Hnh Hlt.
  destruct (createRandomMHSA_spec random ed T n Hnh)
    as (this & n' & E & Eed & Enh & Ehd & ET & Hl & Hall & _).
  rewrite (Nat.div_small ed nh Hlt) in *.
  exists this, n'. split; [exact E|]. split; [exact Ehd|].
  intros X. unfold MHSA.forward, MHSA.forward_heads. rewrite Enh.
  destruct nh as [|m]; [lia|]. cbn [seq foldM].
  destruct (MHSA.heads this) as [|h0 hs]; [discriminate|].
  cbn [nth_error deref bind].
  inversion Hall as [|? ? Hh0 _]; subst.
  rewrite (@forward_head_zero_width this _ X h0 random Hh0). reflexivity.
Qed.

Lemma random_engine_with_too_many_heads_witness :
  exists this n',
    MHSA.createRandomMHSA (fun _ => 0.5) 2 3 1 0 = Returns (this, n') /\
    MHSA.headDim this = 0%nat /\
    forall X, MHSA.forward this X = Throws TypeError.
Proof.
  apply (@random_engine_with_too_many_heads (fun _ => 0.5) 2 3 1 0); lia.
Defined.

(** ** Deterministic embeddings *)

Lemma hash_acc (t : Embeddings.token) (acc : nat) :
  fold_left (fun acc char => (acc + char)%nat) t acc = (acc + Embeddings.hash t)%nat.
Proof.
  unfold Embeddings.hash. revert acc; induction t as [|c t IH]; intros acc; simpl.
  - lia.
  - rewrite IH. rewrite (IH c). lia.
Qed.

Lemma hash_cons (c : nat) (t : Embeddings.token) :
  Embeddings.hash (c :: t) = (c + Embeddings.hash t)%nat.
Proof.
  unfold Embeddings.hash at 1. simpl. apply hash_acc.
Qed.

Lemma hash_permutation (t t' : Embeddings.token) :
  Permutation t t' -> Embeddings.hash t = Embeddings.hash t'.
Proof.
  induction 1 as [|c t t' _ IH|c d t|t t' t'' _ IH1 _ IH2].
  - reflexivity.
  - rewrite !hash_cons. lia.
  - rewrite !hash_cons. lia.
  - congruence.
Qed.

Lemma sin_rem (x : R) :
  0 <= x -> sin (Embeddings.rem x (2 * PI)) = sin x.
Proof.
  intros Hx. unfold Embeddings.rem.
  assert (Hpi : 0 < 2 * PI) by (pose proof PI_RGT_0; lra).
  set (k := Int_part (x / (2 * PI))).
  assert (Hk : (0 <= k)%Z).
  { destruct (base_Int_part (x / (2 * PI))) as [_ Hlow]. fold k in Hlow.
    assert (Hq : 0 <= x / (2 * PI)).
    { apply Rmult_le_pos; [exact Hx|]. apply Rlt_le. now apply Rinv_0_lt_compat. }
    assert (Hgt : -1 < IZR k) by lra.
    apply lt_IZR in Hgt. lia. }
  rewrite <- (sin_period (x - IZR k * (2 * PI)) (Z.to_nat k)).
  f_equal. rewrite INR_IZR_INZ. replace (Z.of_nat (Z.to_nat k)) with k by lia. ring.
Qed.

Lemma deterministic_entry (tokens : list Embeddings.token) (embedDim i j : nat) :
  (i < length tokens)%nat -> (j < embedDim)%nat ->
  nth j (nth i (Embeddings.generateDeterministicEmbeddings tokens embedDim) []) 0
  = sin (INR (Embeddings.hash (nth i tokens [])) * 0.1 + INR j * 0.5) * 0.5.
Proof.
  intros Hi Hj. unfold Embeddings.generateDeterministicEmbeddings.
  set (row := fun t : Embeddings.token => map _ (seq 0 embedDim)).
  assert (Hrow : nth i (map row tokens) [] = row (nth i tokens [])).
  { rewrite (nth_indep _ [] (row [])) by (now rewrite length_map). apply map_nth. }
  rewrite Hrow. unfold row.
  set (f := fun j0 : nat => _ * 0.5).
  rewrite (nth_indep _ 0 (f 0%nat)) by (now rewrite length_map, length_seq).
  rewrite map_nth, seq_nth by assumption. unfold f. cbn [Nat.add].
  rewrite sin_rem; [reflexivity|].
  pose proof (pos_INR (Embeddings.hash (nth i tokens []))).
  pose proof (pos_INR j). lra.
Qed.

Lemma shape_deterministic (tokens : list Embeddings.token) (embedDim : nat) :
  shape (length tokens) embedDim
        (Embeddings.generateDeterministicEmbeddings tokens embedDim).
Proof.
  unfold Embeddings.generateDeterministicEmbeddings. split.
  - apply length_map.
  - apply Forall_map, Forall_forall. intros t _. now rewrite length_map, length_seq.
Qed.

(** X29.  [generateDeterministicEmbeddings] returns one row of
    [embedDim] entries per token; the entry [j] of a token is
    [sin(hash * 0.1 + j * 0.5) * 0.5] for the sum [hash] of its
    character codes (the reduction modulo [2 * PI] does not show), so
    it lies between -0.5 and 0.5, and two tokens made of the same
    characters in another order get the same row. *)
Theorem deterministic_embeddings (tokens : list Embeddings.token) (embedDim : nat) :
  let E := Embeddings.generateDeterministicEmbeddings tokens embedDim in
  shape (length tokens) embedDim E /\
  (forall i j, (i < length tokens)%nat -> (j < embedDim)%nat ->
     nth j (nth i E []) 0
     = sin (INR (Embeddings.hash (nth i tokens [])) * 0.1 + INR j * 0.5) * 0.5 /\
     - 0.5 <= nth j (nth i E []) 0 <= 0.5) /\
  (forall i i', (i < length tokens)%nat -> (i' < length tokens)%nat ->
     Permutation (nth i tokens []) (nth i' tokens []) ->
     nth i E [] = nth i' E []).
Proof.
  intros E. split; [apply shape_deterministic|]. split.
  - intros i j Hi Hj. unfold E. rewrite (deterministic_entry tokens Hi Hj).
    split; [reflexivity|].
    pose proof (SIN_bound (INR (Embeddings.hash (nth i tokens [])) * 0.1 + INR j * 0.5)).
    lra.
  - intros i i' Hi Hi' Hperm. unfold E, Embeddings.generateDeterministicEmbeddings.
    set (row := fun t : Embeddings.token => map _ (seq 0 embedDim)).
    assert (Hrow : forall k, (k < length tokens)%nat ->
                        nth k (map row tokens) [] = row (nth k tokens [])).
    { intros k Hk. rewrite (nth_indep _ [] (row [])) by (now rewrite length_map).
      apply map_nth. }
    rewrite !Hrow by assumption. unfold row.
    now rewrite (hash_permutation Hperm).
Qed.

Lemma deterministic_embeddings_witness :
  nth 0 (Embeddings.generateDeterministicEmbeddings [[97; 98]; [98; 97]]%nat 4) []
  = nth 1 (Embeddings.generateDeterministicEmbeddings [[97; 98]; [98; 97]]%nat 4) [].
Proof.
  apply (proj2 (proj2 (deterministic_embeddings [[97; 98]; [98; 97]]%nat 4)) 0 1)%nat.
  - simpl. lia.
  - simpl. lia.
  - simpl. apply perm_swap.
Defined.

(** ** From tokens to the averaged attention *)

(** X30.  The random mode of the page end to end: for at least one
    token, [1 <= numHeads <= embedDim] and a positive temperature,
    [createRandomMHSA] returns an engine on which [forward] of the
    deterministic embeddings returns an output of one row of
    [embedDim] entries per token, and [averageAttentions] of its head
    attentions returns a [seqLen x seqLen] matrix whose rows sum to 1,
    also when [numHeads] does not divide [embedDim]. *)
Theorem random_mode_pipeline (random : nat -> R) (tokens : list Embeddings.token)
  (ed nh : nat) (T : R) (n : nat) :
  tokens <> [] -> (1 <= nh)%nat -> (nh <= ed)%nat -> 0 < T ->
  exists this n' res avg,
    MHSA.createRandomMHSA random ed nh T n = Returns (this, n') /\
    MHSA.forward this (Embeddings.generateDeterministicEmbeddings tokens ed)
    = Returns res /\
    shape (length tokens) ed (Result.output res) /\
    length (Result.headAttentions res) = nh /\
    MathUtils.averageAttentions (Result.headAttentions res) = Returns avg /\
    shape (length tokens) (length tokens) avg /\ stochastic avg.
Proof.
  intros Hne Hnh Hed HT.
  destruct (createRandomMHSA_spec random ed T n Hnh)
    as (this & n' & E & Eed & Enh & _).
  destruct (@random_engine_initialized random ed nh T n this n' Hnh Hed HT E)
    as [Hinit _].
  set (X := Embeddings.generateDeterministicEmbeddings tokens ed).
  assert (HlenX : length X = length tokens).
  { unfold X, Embeddings.generateDeterministicEmbeddings. apply length_map. }
  assert (HX : shape (length X) (MHSA.embedDim this) X).
  { rewrite HlenX, Eed. apply shape_deterministic. }
  assert (Hs : (1 <= length X)%nat).
  { rewrite HlenX. destruct tokens; [congruence|simpl; lia]. }
  destruct (forward_result_attentions Hinit HX Hs) as (avg & Hl & _ & Havg & Hsh & Hst).
  pose proof (forward_returns Hinit HX Hs) as Hfw.
  pose proof (shape_merge Hinit HX Hs) as Hm.
  exists this, n', (forward_result this X), avg.
  rewrite HlenX in Hsh. rewrite Enh in Hl. destruct Hm as [Hm1 Hm2].
  split; [exact E|]. split; [exact Hfw|].
  split; [split; [rewrite <- HlenX; exact Hm1 | rewrite <- Eed; exact Hm2]|].
  split; [exact Hl|]. split; [exact Havg|]. split; [exact Hsh|exact Hst].
Qed.

Lemma random_mode_pipeline_witness :
  exists this n' res avg,
    MHSA.createRandomMHSA (fun _ => 0.5) 5 2 1 0 = Returns (this, n') /\
    MHSA.forward this (Embeddings.generateDeterministicEmbeddings [[104; 105]]%nat 5)
    = Returns res /\
    shape 1 5 (Result.output res) /\
    length (Result.headAttentions res) = 2%nat /\
    MathUtils.averageAttentions (Result.headAttentions res) = Returns avg /\
    shape 1 1 avg /\ stochastic avg.
Proof.
  apply (@random_mode_pipeline (fun _ => 0.5) [[104; 105]]%nat 5 2 1 0).
  - discriminate.
  - lia.
  - lia.
  - lra.
Defined.
